(** * DuplFiles: duplicate-file finder and remover

    A shallow embedding of [find_del_duplicates.py] (and of
    [del_duplicate.py], whose [find_duplicates], [write_results] and
    [format_size] are textually the same functions) together with the
    properties of the scan, grouping, report and deletion stages.

    Conventions of the embedding:
    - Python [int]s are [Z]; list lengths are [nat] and are injected with
      [Z.of_nat] where the program computes with [len].
    - A modification time is the number returned by [os.path.getmtime].
      The program only compares and negates it, so it is modelled as [Z].
    - A [dict] is an insertion-ordered association list; iteration order
      is list order, as in CPython.
    - [list.sort(key=...)] and [sorted(..., key=...)] are stable sorts;
      they are modelled by a stable insertion sort on the key.
    - The file system is a finite map from paths to files, threaded
      explicitly through the functions that change it.  The clock is one
      reading held in the world; the report file is not entered into the
      map.
    - Strings are byte strings, a Python [str] being held in UTF-8 (the
      encoding of file names); [len] counts the characters of the
      bytes.  [strip], [lower], [split] and [int] are modelled as Python
      has them on ASCII text, and the properties that depend on what was
      typed are stated for ASCII lines.
    - Of the printed output only the lines about files are kept, as a
      list of events. *)

From Stdlib Require Import ZArith Lia Ascii.
From stdpp Require Import base list strings gmap pretty sorting.

Set Warnings "-clear-no-such-hyp".

(** ** Stable sorting by an integer key *)

Section sort_by.
Context {A : Type} (key : A → Z).

(** [x] goes in front of the first element whose key is not smaller, so
    it stays in front of equal elements that followed it in the input. *)
Fixpoint insert_by (x : A) (l : list A) : list A :=
  match l with
  | [] => [x]
  | y :: l' => if (key x <=? key y)%Z then x :: y :: l' else y :: insert_by x l'
  end.

Definition sort_by (l : list A) : list A := foldr insert_by [] l.

(** The first element, in list order, among those of least key. *)
Fixpoint first_min (l : list A) : option A :=
  match l with
  | [] => None
  | x :: l' =>
      match first_min l' with
      | Some y => if (key x <=? key y)%Z then Some x else Some y
      | None => Some x
      end
  end.

Definition key_le (x y : A) : Prop := (key x ≤ key y)%Z.
End sort_by.

(** ** [defaultdict(list)] as an insertion-ordered association list *)

Section dict.
Context {K V : Type} `{EqDecision K}.

(** [d[k].append(v)]: an existing key keeps its position, a new key is
    added at the end. *)
Fixpoint dict_append (k : K) (v : V) (d : list (K * list V)) : list (K * list V) :=
  match d with
  | [] => [(k, [v])]
  | (k', vs) :: d' =>
      if decide (k = k') then (k', vs ++ [v]) :: d'
      else (k', vs) :: dict_append k v d'
  end.

(** The value stored under [k], the empty list when [k] is absent. *)
Fixpoint dict_get (k : K) (d : list (K * list V)) : list V :=
  match d with
  | [] => []
  | (k', vs) :: d' => if decide (k = k') then vs else dict_get k d'
  end.

(** The dictionary built by appending the pairs of [xs] in order. *)
Definition group_pairs (xs : list (K * V)) : list (K * list V) :=
  foldl (λ d kv, dict_append kv.1 kv.2 d) [] xs.

Definition dict_wf (d : list (K * list V)) : Prop :=
  NoDup d.*1 ∧ Forall (λ kv, kv.2 ≠ []) d.

(** The pairs appended when [l] is traversed and [x] is filed under
    [f x], or skipped where [f x] is [None]. *)
Definition keyed (f : V → option K) (l : list V) : list (K * V) :=
  omap (λ x, (λ k, (k, x)) <$> f x) l.
End dict.

(** ** The operating system as the program sees it *)

(** What the program takes from its libraries without fixing it: the
    digest function ([hashlib.md5] followed by [hexdigest], applied to the
    whole content, which is what hashing block by block computes), the
    rendering of a time under a format ([strftime] in the local zone),
    the home directory ([os.path.expanduser('~')]) and the current
    directory ([os.getcwd()]). *)
Class Platform := {
  md5 : string → string;
  strftime : string → Z → string;
  home : string;
  cwd : string;
}.

(** The exceptions the program can meet.  All of them derive from
    Python's [Exception]. *)
Inductive exn :=
  | FileNotFoundError (filename : string)
  | PermissionError (filename : string)
  | IndexError
  | ValueError
  | EOFError.

Inductive result (A : Type) : Type :=
  | Ok (a : A)
  | Raise (e : exn).
Global Arguments Ok {_} _.
Global Arguments Raise {_} _.

Global Instance result_ret : MRet result := @Ok.
Global Instance result_bind : MBind result := λ A B f m,
  match m with
  | Ok a => f a
  | Raise e => Raise e
  end.

(** [str(e)]. *)
Definition str_exn (e : exn) : string :=
  match e with
  | FileNotFoundError filename =>
      "[Errno 2] No such file or directory: '" +:+ filename +:+ "'"
  | PermissionError filename =>
      "[Errno 13] Permission denied: '" +:+ filename +:+ "'"
  | IndexError => "list index out of range"
  | ValueError => "invalid literal for int() with base 10"
  | EOFError => "EOF when reading a line"
  end.

(** A file: its bytes, its modification time, and whether the process may
    [stat] it, open it for reading, and remove its entry from its
    directory ([os.remove], [os.unlink] and [os.rename] all need that). *)
Record file := File {
  content : string;
  mtime : Z;
  st_ok : bool;
  rd_ok : bool;
  rm_ok : bool;
}.

(** The world: the files by path, whether the trash directory can be
    created, and the reading of the clock. *)
Record world := World {
  fs : gmap string file;
  mkdir_ok : bool;
  clock : Z;
}.

Definition with_fs (w : world) (m : gmap string file) : world :=
  {| fs := m; mkdir_ok := mkdir_ok w; clock := clock w |}.

Definition os_stat (w : world) (p : string) : result file :=
  match fs w !! p with
  | None => Raise (FileNotFoundError p)
  | Some f => if st_ok f then Ok f else Raise (PermissionError p)
  end.

Definition getsize (w : world) (p : string) : result Z :=
  f ← os_stat w p; mret (Z.of_nat (String.length (content f))).

Definition getmtime (w : world) (p : string) : result Z :=
  f ← os_stat w p; mret (mtime f).

Definition os_path_exists (w : world) (p : string) : bool :=
  match os_stat w p with Ok _ => true | Raise _ => false end.

Definition os_makedirs (w : world) (dir : string) : result unit :=
  if mkdir_ok w then Ok () else Raise (PermissionError dir).

Definition os_remove (w : world) (p : string) : result world :=
  match fs w !! p with
  | None => Raise (FileNotFoundError p)
  | Some f => if rm_ok f then Ok (with_fs w (delete p (fs w))) else Raise (PermissionError p)
  end.

(** [os.rename]: the entry moves with the file; it is refused for a
    file that is missing or whose entry may not be removed.  The trash
    directory is taken to be on the device of the files, where a rename
    is not refused for another reason. *)
Definition os_rename (w : world) (src dst : string) : result world :=
  match fs w !! src with
  | None => Raise (FileNotFoundError src)
  | Some f =>
      if rm_ok f then Ok (with_fs w (<[dst := f]> (delete src (fs w))))
      else Raise (PermissionError src)
  end.

(** The file [shutil.copy2] makes at its destination: the content of
    the source, written at the reading of the clock, in a directory the
    process has just written to. *)
Definition fresh_copy (w : world) (f : file) : file :=
  {| content := content f; mtime := clock w;
     st_ok := true; rd_ok := true; rm_ok := true |}.

(** [shutil.copy2]: [copyfile] opens the source and writes the
    destination, then [copystat] reads the times of the source and gives
    them to the copy.  A failure of [copystat] leaves the copy behind, so
    the world is returned beside the result. *)
Definition shutil_copy2 (w : world) (src dst : string) : result unit * world :=
  match fs w !! src with
  | None => (Raise (FileNotFoundError src), w)
  | Some f =>
      if rd_ok f then
        let copy := fresh_copy w f in
        if st_ok f then
          (Ok (), with_fs w (<[dst := {| content := content copy; mtime := mtime f;
                                        st_ok := st_ok copy; rd_ok := rd_ok copy;
                                        rm_ok := rm_ok copy |}]> (fs w)))
        else (Raise (PermissionError src), with_fs w (<[dst := copy]> (fs w)))
      else (Raise (PermissionError src), w)
  end.

(** [shutil.move] of a regular file to a path that is no directory: it
    tries [os.rename], and when that raises [OSError] it copies the file
    with [copy2] and then unlinks the source.  When the copy was made and
    the source cannot be unlinked, the exception leaves the copy
    behind. *)
Definition shutil_move (w : world) (src dst : string) : result unit * world :=
  match os_rename w src dst with
  | Ok w' => (Ok (), w')
  | Raise _ =>
      match shutil_copy2 w src dst with
      | (Ok _, w1) =>
          match os_remove w1 src with
          | Ok w2 => (Ok (), w2)
          | Raise e => (Raise e, w1)
          end
      | (Raise e, w1) => (Raise e, w1)
      end
  end.

(** Python truth value of a [str]: the empty string is false. *)
Definition truthy (s : string) : bool := negb (bool_decide (s = "")).

Section scan.
Context {P : Platform}.

(** [get_file_hash]: [None] where the source catches [IOError]/[OSError]. *)
Definition get_file_hash (w : world) (filepath : string) : option string :=
  match fs w !! filepath with
  | Some f => if rd_ok f then Some (md5 (content f)) else None
  | None => None
  end.

(** One iteration of the first pass of [find_duplicates]; [walk] is the
    sequence of [os.path.join(root, filename)] that [os.walk] yields. *)
Definition size_step (w : world) (min_size : Z)
    (size_map : list (Z * list string)) (filepath : string) : list (Z * list string) :=
  match getsize w filepath with
  | Ok size =>
      if (min_size <=? size)%Z then dict_append size filepath size_map else size_map
  | Raise _ => size_map
  end.

Definition size_pass (w : world) (walk : list string) (min_size : Z) :
    list (Z * list string) :=
  foldl (size_step w min_size) [] walk.

Definition potential_duplicates (size_map : list (Z * list string)) :
    list (Z * list string) :=
  filter (λ sp, 1 < length sp.2) size_map.

(** One iteration of the second pass.  The state is [hash_map] together
    with the list of paths [get_file_hash] has been called on. *)
Definition hash_step (w : world)
    (st : list (string * list string) * list string) (filepath : string) :
    list (string * list string) * list string :=
  let file_hash := get_file_hash w filepath in
  (match file_hash with
   | Some h => if truthy h then dict_append h filepath st.1 else st.1
   | None => st.1
   end,
   st.2 ++ [filepath]).

Definition hash_pass (w : world) (pot : list (Z * list string)) :
    list (string * list string) * list string :=
  foldl (λ st sp, foldl (hash_step w) st sp.2) ([], []) pot.

Definition find_duplicates (w : world) (walk : list string) (min_size : Z) :
    list (string * list string) :=
  let size_map := size_pass w walk min_size in
  let hash_map := (hash_pass w (potential_duplicates size_map)).1 in
  filter (λ hp, 1 < length hp.2) hash_map.

(** The paths handed to the hasher by [find_duplicates], in call order. *)
Definition hashed_files (w : world) (walk : list string) (min_size : Z) : list string :=
  (hash_pass w (potential_duplicates (size_pass w walk min_size))).2.
End scan.

(** ** Strings *)

Definition nl : string := String "010"%char "".

(** [c * n] for a one-character string. *)
Definition str_mul (c : ascii) (n : nat) : string :=
  Nat.iter n (String c) "".

(** The slice [s[:n]]. *)
Definition str_take (n : nat) (s : string) : string := String.substring 0 n s.

(** [str.isspace] on the ASCII range. *)
Definition py_isspace (c : ascii) : bool :=
  match c with
  | "009" | "010" | "011" | "012" | "013" | "028" | "029" | "030" | "031" | " " => true
  | _ => false
  end%char.

Fixpoint lstrip (s : string) : string :=
  match s with
  | String c s' => if py_isspace c then lstrip s' else s
  | "" => ""
  end.

(** [s.strip()] on ASCII text. *)
Definition strip (s : string) : string :=
  String.rev (lstrip (String.rev (lstrip s))).

Definition lower_ascii (c : ascii) : ascii :=
  let n := N_of_ascii c in
  if ((65 <=? n) && (n <=? 90))%N then ascii_of_N (n + 32) else c.

(** [s.lower()] on the ASCII range. *)
Fixpoint lower (s : string) : string :=
  match s with
  | String c s' => String (lower_ascii c) (lower s')
  | "" => ""
  end.

(** [s.split()] on ASCII text: the maximal runs of non-space
    characters. [cur] is the run being read, reversed. *)
Fixpoint split_go (cur : string) (s : string) : list string :=
  match s with
  | "" => if bool_decide (cur = "") then [] else [String.rev cur]
  | String c s' =>
      if py_isspace c
      then (if bool_decide (cur = "") then [] else [String.rev cur]) ++ split_go "" s'
      else split_go (String c cur) s'
  end.
Definition split (s : string) : list string := split_go "" s.

(** [int(s)] for an ASCII string without surrounding space: an optional
    sign, then decimal digits, single underscores allowed between
    digits.  [None] stands for [ValueError]. *)
Fixpoint int_digits (acc : Z) (after_digit : bool) (s : string) : option Z :=
  match s with
  | "" => if after_digit then Some acc else None
  | String c s' =>
      match Ascii.is_nat c with
      | Some d => int_digits (10 * acc + Z.of_nat d) true s'
      | None =>
          if bool_decide (c = "_"%char) && after_digit
          then int_digits acc false s'
          else None
      end
  end.

(** The number of decimal digits in [s]. *)
Fixpoint digit_count (s : string) : nat :=
  match s with
  | "" => 0
  | String c s' =>
      match Ascii.is_nat c with
      | Some _ => S (digit_count s')
      | None => digit_count s'
      end
  end.

(** [sys.get_int_max_str_digits()], at its default. *)
Definition int_max_str_digits : Z := 4300.

(** [int(s)]; a string of more digits than the limit is refused with
    [ValueError] like a malformed one. *)
Definition py_int (s : string) : option Z :=
  if (int_max_str_digits <? Z.of_nat (digit_count s))%Z then None
  else
    match s with
    | String "-" s' => Z.opp <$> int_digits 0 false s'
    | String "+" s' => int_digits 0 false s'
    | _ => int_digits 0 false s
    end.

(** *** [len] of a path *)

Definition byte_in (lo hi : N) (c : ascii) : bool :=
  ((lo <=? N_of_ascii c) && (N_of_ascii c <=? hi))%N.

(** A continuation byte of UTF-8. *)
Definition is_cont (c : ascii) : bool := byte_in 128 191 c.

(** The lead byte [b] and the byte [c1] after it can start a
    well-formed sequence of three bytes, and of four bytes. *)
Definition three_ok (b c1 : ascii) : bool :=
  (byte_in 224 224 b && byte_in 160 191 c1)
  || (byte_in 225 236 b && is_cont c1)
  || (byte_in 237 237 b && byte_in 128 159 c1)
  || (byte_in 238 239 b && is_cont c1).

Definition four_ok (b c1 : ascii) : bool :=
  (byte_in 240 240 b && byte_in 144 191 c1)
  || (byte_in 241 243 b && is_cont c1)
  || (byte_in 244 244 b && byte_in 128 143 c1).

(** The number of bytes of the character that starts [s]: the length of
    the well-formed UTF-8 sequence at the start of [s], and 1 for a byte
    that starts none, which the decoding of file names
    ([surrogateescape]) turns into one character of its own. *)
Definition utf8_width (s : string) : nat :=
  match s with
  | String b (String c1 r1) =>
      if byte_in 194 223 b && is_cont c1 then 2
      else
        match r1 with
        | String c2 r2 =>
            if three_ok b c1 && is_cont c2 then 3
            else
              match r2 with
              | String c3 _ =>
                  if four_ok b c1 && is_cont c2 && is_cont c3 then 4 else 1
              | "" => 1
              end
        | "" => 1
        end
  | _ => 1
  end.

(** [len(s)] for a [str] held in UTF-8: the characters are counted where
    they start, [skip] being the number of bytes still to pass of the
    character being read. *)
Fixpoint py_len_go (skip : nat) (s : string) : nat :=
  match s with
  | "" => 0
  | String _ s' =>
      match skip with
      | S k => py_len_go k s'
      | O => S (py_len_go (utf8_width s - 1) s')
      end
  end.

Definition py_len (s : string) : nat := py_len_go 0 s.

Fixpoint strip_prefix (pre s : string) : option string :=
  match pre, s with
  | "", _ => Some s
  | String a pre', String b s' => if bool_decide (a = b) then strip_prefix pre' s' else None
  | String _ _, "" => None
  end.

(** [s.replace(old, new)] for a non-empty [old]; every step consumes a
    character of [s], so [length s] steps are enough. *)
Fixpoint replace_go (fuel : nat) (old new s : string) : string :=
  match fuel with
  | O => s
  | S n =>
      match strip_prefix old s with
      | Some rest => new +:+ replace_go n old new rest
      | None =>
          match s with
          | "" => ""
          | String c s' => String c (replace_go n old new s')
          end
      end
  end.
Definition str_replace (old new s : string) : string :=
  replace_go (S (String.length s)) old new s.

Fixpoint has_slash (p : string) : bool :=
  match p with
  | "" => false
  | String c p' => bool_decide (c = "/"%char) || has_slash p'
  end.

(** [os.path.basename]: what follows the last slash. *)
Fixpoint basename (p : string) : string :=
  match p with
  | "" => ""
  | String c p' =>
      if bool_decide (c = "/"%char) || has_slash p' then basename p' else p
  end.

Definition ends_with_slash (a : string) : bool :=
  match String.rev a with
  | String c _ => bool_decide (c = "/"%char)
  | "" => false
  end.

Definition starts_with_slash (b : string) : bool :=
  match b with
  | String c _ => bool_decide (c = "/"%char)
  | "" => false
  end.

(** [os.path.join(a, b)] on POSIX: an absolute [b] replaces [a]. *)
Definition os_path_join (a b : string) : string :=
  if starts_with_slash b then b
  else if bool_decide (a = "") || ends_with_slash a then a +:+ b
  else a +:+ "/" +:+ b.

(** [p.split('/')]: the pieces between the slashes, empty ones
    included.  [cur] is the piece being read, reversed. *)
Fixpoint split_slash_go (cur : string) (p : string) : list string :=
  match p with
  | "" => [String.rev cur]
  | String c p' =>
      if bool_decide (c = "/"%char) then String.rev cur :: split_slash_go "" p'
      else split_slash_go (String c cur) p'
  end.
Definition split_slash (p : string) : list string := split_slash_go "" p.

(** ['/'.join(comps)]. *)
Definition join_slash (comps : list string) : string :=
  match comps with
  | [] => ""
  | c :: cs => foldl (λ acc x, acc +:+ "/" +:+ x) c cs
  end.

(** The body of the loop of [normpath] over the components;
    [new_comps] is held with its last element first. *)
Definition normpath_step (initial_slashes : nat) (new_comps : list string)
    (comp : string) : list string :=
  if bool_decide (comp = "") || bool_decide (comp = ".") then new_comps
  else if negb (bool_decide (comp = ".."))
          || (bool_decide (initial_slashes = 0) && bool_decide (new_comps = []))
          || bool_decide (head new_comps = Some "..")
  then comp :: new_comps
  else tail new_comps.

(** [os.path.normpath] on POSIX. *)
Definition normpath (path : string) : string :=
  if bool_decide (path = "") then "."
  else
    let initial_slashes :=
      if starts_with_slash path then
        if String.prefix "//" path && negb (String.prefix "///" path) then 2 else 1
      else 0 in
    let comps := rev (foldl (normpath_step initial_slashes) [] (split_slash path)) in
    let path := str_mul "/" initial_slashes +:+ join_slash comps in
    if bool_decide (path = "") then "." else path.

Section abspath.
Context {P : Platform}.

(** [os.path.abspath] on POSIX. *)
Definition abspath (path : string) : string :=
  normpath (if starts_with_slash path then path else os_path_join cwd path).
End abspath.

(** ** [format_size] *)

Definition two_digits (d : Z) : string :=
  if (d <? 10)%Z then "0" +:+ pretty d else pretty d.

(** [f"{x:.2f}"] for a non-negative double [x] whose value is
    [num / den]: the multiple of a hundredth nearest to that value, an
    exact tie going to the even one. *)
Definition fmt_2f (num den : Z) : string :=
  let q := (100 * num / den)%Z in
  let r := ((100 * num) mod den)%Z in
  let h := if (2 * r <? den)%Z then q
           else if (den <? 2 * r)%Z then (q + 1)%Z
           else if Z.even q then q else (q + 1)%Z in
  pretty (h / 100)%Z +:+ "." +:+ two_digits (h mod 100)%Z.

(** The double nearest to the non-negative integer [n], a tie going to
    the even significand.  Below [2^53] it is [n] itself; from there on
    the doubles are the multiples of [2^e] that have 53 bits in front of
    the [e] low ones. *)
Definition float_of_int (n : Z) : Z :=
  if (n <? 2 ^ 53)%Z then n
  else
    let e := (Z.log2 n - 52)%Z in
    let q := (n / 2 ^ e)%Z in
    let r := (n mod 2 ^ e)%Z in
    let q' := if (2 * r <? 2 ^ e)%Z then q
              else if (2 ^ e <? 2 * r)%Z then (q + 1)%Z
              else if Z.even q then q else (q + 1)%Z in
    (q' * 2 ^ e)%Z.

(** The loop of [format_size]. After [k] divisions [size_bytes] is the
    quotient [num / 1024^k], kept as the pair [num], [den = 1024^k].
    The first division rounds the integer to a double, and a division of
    a double by 1024 is exact, so [num] is the double nearest to the
    size. *)
Fixpoint format_size_units (units : list string) (num den : Z) : string :=
  match units with
  | [] => fmt_2f num den +:+ " PB"
  | unit :: units' =>
      if (num <? 1024 * den)%Z then fmt_2f num den +:+ " " +:+ unit
      else format_size_units units' num (1024 * den)
  end.

Definition format_size (size_bytes : Z) : string :=
  format_size_units ["B"; "KB"; "MB"; "GB"; "TB"] (float_of_int size_bytes) 1.

(** ** [write_results] *)

Definition time_format : string := "%Y-%m-%d %H:%M:%S".

(** [lst[0]], raising [IndexError] on the empty list. *)
Definition first {A} (l : list A) : result A :=
  match l with
  | x :: _ => Ok x
  | [] => Raise IndexError
  end.

(** [sorted(duplicates.items(), key=lambda x: -len(x[1]))]. *)
Definition by_count_desc (duplicates : list (string * list string)) :
    list (string * list string) :=
  sort_by (λ x, - Z.of_nat (length x.2))%Z duplicates.

Section report.
Context {P : Platform}.

(** The entry appended for [p]: its times and size, or [(p, 0, 0)] where
    the source catches [OSError]. *)
Definition stat_or_zero (w : world) (p : string) : string * Z * Z :=
  match getmtime w p with
  | Ok mtime =>
      match getsize w p with
      | Ok size => (p, mtime, size)
      | Raise _ => (p, 0%Z, 0%Z)
      end
  | Raise _ => (p, 0%Z, 0%Z)
  end.

(** [paths_with_mtime] after [sort(key=lambda x: x[1])]. *)
Definition paths_with_mtime (w : world) (paths : list string) : list (string * Z * Z) :=
  sort_by (λ x, x.1.2) (stat_or_zero w <$> paths).

Definition duplicate_lines (x : string * Z * Z) : string :=
  "  [DUPLICATE] " +:+ x.1.1 +:+ nl +:+
  "              Modified: " +:+ strftime time_format x.1.2 +:+ nl.

(** The text written for one group. *)
Definition group_block (group_num : Z) (file_hash : string)
    (orig : string * Z * Z) (rest : list (string * Z * Z)) : string :=
  "Group " +:+ pretty group_num +:+ " (Hash: " +:+ str_take 12 file_hash +:+
    "..., Size: " +:+ format_size orig.2 +:+ ")" +:+ nl +:+
  str_mul "-" 50 +:+ nl +:+
  "  [ORIGINAL] " +:+ orig.1.1 +:+ nl +:+
  "             Modified: " +:+ strftime time_format orig.1.2 +:+ nl +:+
  foldr (λ x acc, duplicate_lines x +:+ acc) "" rest +:+
  nl.

(** One iteration of the loop over the groups.  The state is the text
    written so far, [group_num] and [total_wasted]. *)
Definition report_step (w : world) (st : string * Z * Z)
    (g : string * list string) : result (string * Z * Z) :=
  let '(text, group_num, total_wasted) := st in
  let '(file_hash, paths) := g in
  let pwm := paths_with_mtime w paths in
  orig ← first pwm;
  let file_size := orig.2 in
  let wasted_space := (file_size * (Z.of_nat (length paths) - 1))%Z in
  mret (text +:+ group_block group_num file_hash orig (tail pwm),
        (group_num + 1)%Z, (total_wasted + wasted_space)%Z).

Fixpoint report_loop (w : world) (st : string * Z * Z)
    (groups : list (string * list string)) : result (string * Z * Z) :=
  match groups with
  | [] => Ok st
  | g :: groups' => st' ← report_step w st g; report_loop w st' groups'
  end.

Definition report_header (w : world) (directory : string) : string :=
  "Duplicate File Report" +:+ nl +:+
  str_mul "=" 60 +:+ nl +:+
  "Scanned directory: " +:+ directory +:+ nl +:+
  "Generated: " +:+ strftime time_format (clock w) +:+ nl +:+
  str_mul "=" 60 +:+ nl +:+ nl.

Definition sum_Z (l : list Z) : Z := foldr Z.add 0%Z l.

(** [write_results]: the text written to [output_file] and the returned
    pair [(total_groups, total_wasted)]. *)
Definition write_results (w : world) (duplicates : list (string * list string))
    (directory : string) : result (string * (Z * Z)) :=
  let header := report_header w directory in
  match duplicates with
  | [] => Ok (header +:+ "No duplicate files found." +:+ nl, (0%Z, 0%Z))
  | _ =>
      let total_groups := Z.of_nat (length duplicates) in
      let total_duplicates :=
        sum_Z ((λ g, Z.of_nat (length g.2) - 1)%Z <$> duplicates) in
      let found :=
        "Found " +:+ pretty total_groups +:+ " groups of duplicates (" +:+
        pretty total_duplicates +:+ " duplicate files)" +:+ nl +:+ nl in
      '(text, _, total_wasted) ←
        report_loop w (header +:+ found, 1%Z, 0%Z) (by_count_desc duplicates);
      mret (text +:+
            str_mul "=" 60 +:+ nl +:+
            "Summary:" +:+ nl +:+
            "  Total duplicate groups: " +:+ pretty total_groups +:+ nl +:+
            "  Total duplicate files: " +:+ pretty total_duplicates +:+ nl +:+
            "  Potential space savings: " +:+ format_size total_wasted +:+ nl,
            (total_groups, total_wasted))
  end.
End report.

(** ** Deletion *)

(** What a deleting function prints: the file it keeps, a file it
    deleted, a file it failed to delete and why, and the four refusals
    of the interactive prompt. *)
Inductive event :=
  | Keeping (path : string)
  | Deleted (path : string)
  | Failed (path : string) (msg : string)
  | CannotDeleteOriginal
  | InvalidIndex (num : Z)
  | InvalidFormat
  | InvalidCommand.

(** The state a deletion run threads: the world, the two counters it
    returns, and what it has printed so far. *)
Record session := Session {
  sw : world;
  files_deleted : Z;
  space_freed : Z;
  printed : list event;
}.

Definition deleted_paths (evs : list event) : list string :=
  omap (λ e, match e with Deleted p => Some p | _ => None end) evs.

(** The paths [delete_file] was called on. *)
Definition attempted_paths (evs : list event) : list string :=
  omap (λ e, match e with Deleted p | Failed p _ => Some p | _ => None end) evs.

Definition kept_paths (evs : list event) : list string :=
  omap (λ e, match e with Keeping p => Some p | _ => None end) evs.

(** The refusals of the prompt and the other messages that name no file
    to delete. *)
Definition quiet (ev : event) : Prop :=
  match ev with
  | Deleted _ | Failed _ _ | Keeping _ => False
  | _ => True
  end.

(** The counter of deleted files agrees with what was printed. *)
Definition counted (s : session) : Prop :=
  files_deleted s = Z.of_nat (length (deleted_paths (printed s))).

(** No file announced as kept was handed to [delete_file]. *)
Definition apart (s : session) : Prop :=
  ∀ k, k ∈ kept_paths (printed s) → k ∉ attempted_paths (printed s).

(** What the work on one group adds to a session: it announces files
    [ks] as kept and hands files [ds] to [delete_file], all of them
    members of the group, and none of [ks] is among [ds]. *)
Definition group_step (paths : list string) (s s' : session) : Prop :=
  ∃ ks ds,
    kept_paths (printed s') = kept_paths (printed s) ++ ks
    ∧ attempted_paths (printed s') = attempted_paths (printed s) ++ ds
    ∧ (∀ x, x ∈ ks → x ∈ paths)
    ∧ (∀ x, x ∈ ds → x ∈ paths)
    ∧ (∀ x, x ∈ ks → x ∉ ds).

(** Every file a session has named is in [seen]. *)
Definition named_in (seen : list string) (s : session) : Prop :=
  ∀ x, x ∈ kept_paths (printed s) ∨ x ∈ attempted_paths (printed s) → x ∈ seen.

(** From [s] to [s'] no file was announced as kept, and the files
    handed to [delete_file] were all taken from [cands]. *)
Definition adds_only (cands : list string) (s s' : session) : Prop :=
  kept_paths (printed s') = kept_paths (printed s)
  ∧ ∃ ds, attempted_paths (printed s') = attempted_paths (printed s) ++ ds
          ∧ ∀ a, a ∈ ds → a ∈ cands.

Section delete.
Context {P : Platform}.

Definition trash_name (timestamp : string) (counter : option Z) (filename : string) :
    string :=
  match counter with
  | None => timestamp +:+ "_" +:+ filename
  | Some c => timestamp +:+ "_" +:+ pretty c +:+ "_" +:+ filename
  end.

(** The loop [while os.path.exists(trash_path)].  Each round tries a
    new name, and a world with [n] files cannot hold [n + 1] of them, so
    [n] rounds are enough (lemma [trash_loop_free] below). *)
Fixpoint trash_loop (fuel : nat) (w : world) (trash_dir timestamp filename : string)
    (trash_path : string) (counter : Z) : string :=
  if os_path_exists w trash_path then
    match fuel with
    | O => trash_path
    | S n =>
        trash_loop n w trash_dir timestamp filename
          (os_path_join trash_dir (trash_name timestamp (Some counter) filename))
          (counter + 1)%Z
    end
  else trash_path.

(** The [k]-th name the loop tries: the plain one, then the numbered
    ones. *)
Definition trash_candidate (trash_dir timestamp filename : string) (k : nat) : string :=
  os_path_join trash_dir
    (trash_name timestamp
       (match k with O => None | S _ => Some (Z.of_nat k) end) filename).

(** The body of the [try] in [delete_file]: the message it returns or
    the exception it raises, and the world it leaves in either case. *)
Definition delete_file_try (w : world) (filepath : string) (use_trash : bool) :
    result string * world :=
  if use_trash then
    let trash_dir := os_path_join home ".duplicate_trash" in
    match os_makedirs w trash_dir with
    | Raise e => (Raise e, w)
    | Ok _ =>
        let filename := basename filepath in
        let timestamp := strftime "%Y%m%d_%H%M%S" (clock w) in
        let trash_path := os_path_join trash_dir (trash_name timestamp None filename) in
        let trash_path :=
          trash_loop (size (fs w)) w trash_dir timestamp filename trash_path 1 in
        match shutil_move w filepath trash_path with
        | (Ok _, w') => (Ok ("Moved to trash: " +:+ trash_path), w')
        | (Raise e, w') => (Raise e, w')
        end
    end
  else
    match os_remove w filepath with
    | Ok w' => (Ok "Permanently deleted", w')
    | Raise e => (Raise e, w)
    end.

(** [delete_file]: [except Exception] turns every failure into a
    [False] result. *)
Definition delete_file (w : world) (filepath : string) (use_trash : bool) :
    bool * string * world :=
  match delete_file_try w filepath use_trash with
  | (Ok msg, w') => (true, msg, w')
  | (Raise e, w') => (false, "Error: " +:+ str_exn e, w')
  end.

(** The block shared by the three call sites of [delete_file]: delete,
    count on success, print the outcome. *)
Definition delete_and_count (use_trash : bool) (file_size : Z) (s : session)
    (path : string) : session :=
  let '(success, msg, w') := delete_file (sw s) path use_trash in
  if success then
    {| sw := w'; files_deleted := files_deleted s + 1;
       space_freed := space_freed s + file_size;
       printed := printed s ++ [Deleted path] |}
  else
    {| sw := w'; files_deleted := files_deleted s;
       space_freed := space_freed s;
       printed := printed s ++ [Failed path msg] |}.

(** *** [auto_delete] *)

(** The tuple [(p, mtime, size, len(p))], or nothing where the source
    catches [OSError] and continues. *)
Definition stat_info (w : world) (p : string) : option (string * Z * Z * Z) :=
  match getmtime w p with
  | Ok mtime =>
      match getsize w p with
      | Ok size => Some (p, mtime, size, Z.of_nat (py_len p))
      | Raise _ => None
      end
  | Raise _ => None
  end.

Definition info_path (x : string * Z * Z * Z) : string := x.1.1.1.
Definition info_mtime (x : string * Z * Z * Z) : Z := x.1.1.2.
Definition info_size (x : string * Z * Z * Z) : Z := x.1.2.
Definition info_len (x : string * Z * Z * Z) : Z := x.2.

(** The [if]/[elif] chain on [keep_strategy]; any other string leaves
    the list as it is. *)
Definition apply_strategy (keep_strategy : string)
    (paths_with_info : list (string * Z * Z * Z)) : list (string * Z * Z * Z) :=
  if bool_decide (keep_strategy = "oldest") then sort_by info_mtime paths_with_info
  else if bool_decide (keep_strategy = "newest")
  then sort_by (λ x, - info_mtime x)%Z paths_with_info
  else if bool_decide (keep_strategy = "shortest_path")
  then sort_by info_len paths_with_info
  else paths_with_info.

(** The list after the strategy has been applied, for the group [paths]
    in the world [w]. *)
Definition paths_with_info (keep_strategy : string) (w : world) (paths : list string) :
    list (string * Z * Z * Z) :=
  apply_strategy keep_strategy (omap (stat_info w) paths).

(** One iteration of the loop of [auto_delete] over the groups. *)
Definition auto_delete_group (keep_strategy : string) (use_trash : bool)
    (s : session) (g : string * list string) : session :=
  match paths_with_info keep_strategy (sw s) g.2 with
  | [] => s
  | keep :: others =>
      let keep_file := info_path keep in
      let file_size := info_size keep in
      let s := {| sw := sw s; files_deleted := files_deleted s;
                  space_freed := space_freed s;
                  printed := printed s ++ [Keeping keep_file] |} in
      foldl (delete_and_count use_trash file_size) s (info_path <$> others)
  end.

Definition new_session (w : world) : session :=
  {| sw := w; files_deleted := 0; space_freed := 0; printed := [] |}.

(** [auto_delete]; the source returns [(files_deleted, space_freed)],
    which are fields of the final session. *)
Definition auto_delete (w : world) (duplicates : list (string * list string))
    (keep_strategy : string) (use_trash : bool) : session :=
  foldl (auto_delete_group keep_strategy use_trash) (new_session w) duplicates.
End delete.

(** ** [interactive_delete] *)

(** [input()] on a terminal whose remaining lines are [inputs]. *)
Definition input (inputs : list string) : result (string * list string) :=
  match inputs with
  | line :: rest => Ok (line, rest)
  | [] => Raise EOFError
  end.

(** How the prompt loop of a group ends: [break], [return] on [q], or an
    exception nobody catches ([input()] at the end of the input). *)
Inductive loop_exit := Break | Return | Uncaught (e : exn).

Definition say (s : session) (ev : event) : session :=
  {| sw := sw s; files_deleted := files_deleted s;
     space_freed := space_freed s; printed := printed s ++ [ev] |}.

Section interactive.
Context {P : Platform}.

(** The branch [choice.startswith('d ')]. *)
Definition d_command (use_trash : bool) (pwm : list (string * Z * Z))
    (file_size : Z) (s : session) (choice : string) : session :=
  match split choice !! 1%nat with
  | None => say s InvalidFormat
  | Some token =>
      match py_int token with
      | None => say s InvalidFormat
      | Some num =>
          if (num =? 0)%Z then say s CannotDeleteOriginal
          else if ((1 <=? num) && (num <? Z.of_nat (length pwm)))%Z then
            match pwm !! Z.to_nat num with
            | Some x => delete_and_count use_trash file_size s x.1.1
            | None => say s InvalidFormat
            end
          else say s (InvalidIndex num)
      end
  end.

(** The [while True] loop of one group: a line is read in every round,
    so the recursion is on the lines that remain. *)
Fixpoint prompt_loop (inputs : list string) (use_trash : bool)
    (pwm : list (string * Z * Z)) (file_size : Z) (s : session) :
    loop_exit * session * list string :=
  match inputs with
  | [] => (Uncaught EOFError, s, [])
  | line :: rest =>
      let choice := lower (strip line) in
      if bool_decide (choice = "q") then (Return, s, rest)
      else if bool_decide (choice = "s") then (Break, s, rest)
      else if bool_decide (choice = "da") then
        match rest with
        | [] => (Uncaught EOFError, s, [])
        | line' :: rest' =>
            let confirm := lower (strip line') in
            if bool_decide (confirm = "y") then
              (Break,
               foldl (delete_and_count use_trash file_size) s
                 ((λ x, x.1.1) <$> tail pwm),
               rest')
            else (Break, s, rest')
        end
      else if String.prefix "d " choice then
        prompt_loop rest use_trash pwm file_size
          (d_command use_trash pwm file_size s choice)
      else
        prompt_loop rest use_trash pwm file_size (say s InvalidCommand)
  end.

(** The loop over the groups.  The line printed for index 0 is the
    event [Keeping]. *)
Fixpoint interactive_groups (groups : list (string * list string))
    (inputs : list string) (use_trash : bool) (s : session) :
    loop_exit * session :=
  match groups with
  | [] => (Return, s)
  | (file_hash, paths) :: groups' =>
      let pwm := paths_with_mtime (sw s) paths in
      match pwm with
      | [] => (Uncaught IndexError, s)
      | orig :: _ =>
          let file_size := orig.2 in
          let '(how, s', inputs') :=
            prompt_loop inputs use_trash pwm file_size (say s (Keeping orig.1.1)) in
          match how with
          | Break => interactive_groups groups' inputs' use_trash s'
          | _ => (how, s')
          end
      end
  end.

(** The question about the deletion mode at the start. *)
Definition ask_use_trash (inputs : list string) : result (bool * list string) :=
  '(response, inputs) ← input inputs;
  let response := lower (strip response) in
  if bool_decide (response ∈ ["permanent"; "perm"; "p"]) then
    '(confirm, inputs) ← input inputs;
    mret (negb (bool_decide (lower (strip confirm) = "yes")), inputs)
  else mret (true, inputs).

(** [interactive_delete]: how the run ended and the session reached;
    on [Return] the source returns the two counters of the session. *)
Definition interactive_delete (w : world) (duplicates : list (string * list string))
    (inputs : list string) : loop_exit * session :=
  match ask_use_trash inputs with
  | Raise e => (Uncaught e, new_session w)
  | Ok (use_trash, inputs) =>
      interactive_groups (by_count_desc duplicates) inputs use_trash (new_session w)
  end.
End interactive.

(** ** [main] *)

(** The values [argparse] admits for [--delete]. *)
Inductive delete_mode := Interactive | AutoOldest | AutoNewest | AutoShortest.

Definition delete_mode_str (m : delete_mode) : string :=
  match m with
  | Interactive => "interactive"
  | AutoOldest => "auto-oldest"
  | AutoNewest => "auto-newest"
  | AutoShortest => "auto-shortest"
  end.

Record args := Args {
  directory : string;
  output : string;
  min_size : Z;
  delete : option delete_mode;
  permanent : bool;
  dry_run : bool;
}.

(** What a run leaves behind: the exit code, the report it wrote, and the
    session of its deletion stage if that stage ran. *)
Record outcome := Outcome {
  exit_code : Z;
  report : option string;
  deletion : option session;
}.

Section main.
Context {P : Platform}.

(** The deletion stage of [main], entered after the confirmation. *)
Definition run_deletion (w : world) (a : args) (mode : delete_mode)
    (duplicates : list (string * list string)) (inputs : list string) :
    result session :=
  let choice := delete_mode_str mode in
  if bool_decide (choice = "interactive") then
    match interactive_delete w duplicates inputs with
    | (Uncaught e, _) => Raise e
    | (_, s) => Ok s
    end
  else if String.prefix "auto-" choice then
    let strategy := str_replace "auto-" "" choice in
    mret (auto_delete w duplicates strategy (negb (permanent a)))
  else mret (new_session w).

(** [main] after argument parsing.  [walk] is [None] when the absolute
    [directory] is not a directory, and otherwise the paths [os.walk]
    yields for it.  The report file itself is not entered into the
    modelled file system. *)
Definition main (w : world) (a : args) (walk : option (list string))
    (inputs : list string) : result outcome :=
  match walk with
  | None => Ok {| exit_code := 1; report := None; deletion := None |}
  | Some walk =>
      let directory := abspath (directory a) in
      let duplicates := find_duplicates w walk (min_size a) in
      '(text, _) ← write_results w duplicates directory;
      let done_ s := Ok {| exit_code := 0; report := Some text; deletion := s |} in
      match delete a, duplicates with
      | Some mode, _ :: _ =>
          if dry_run a then done_ None
          else
            '(confirm, inputs) ← input inputs;
            let confirmed :=
              if permanent a then bool_decide (strip confirm = "DELETE")
              else bool_decide (lower (strip confirm) = "y") in
            if confirmed then
              s ← run_deletion w a mode duplicates inputs; done_ (Some s)
            else done_ None
      | _, _ => done_ None
      end
  end.
End main.

(** ** Keys of the two passes *)

Section scan_keys.
Context {P : Platform}.

(** The size under which the first pass files a path, if it files it. *)
Definition size_key (w : world) (min_size : Z) (filepath : string) : option Z :=
  match getsize w filepath with
  | Ok size => if (min_size <=? size)%Z then Some size else None
  | Raise _ => None
  end.

(** The digest under which the second pass files a path it hashes. *)
Definition hash_key (w : world) (filepath : string) : option string :=
  match get_file_hash w filepath with
  | Some h => if truthy h then Some h else None
  | None => None
  end.
End scan_keys.

(** ** Orders the strategies and the report apply *)

(** The key [auto_delete] sorts by under each of its three strategies. *)
Definition strategy_key (keep_strategy : string) : option (string * Z * Z * Z → Z) :=
  if bool_decide (keep_strategy = "oldest") then Some info_mtime
  else if bool_decide (keep_strategy = "newest") then Some (λ x, - info_mtime x)%Z
  else if bool_decide (keep_strategy = "shortest_path") then Some info_len
  else None.

(** "Ties of the key are broken by the lexical order of [name]": of two
    entries of [l] with one key, the earlier has the smaller name. *)
Definition ties_by_name {A} (key : A → Z) (name : A → string) (l : list A) : Prop :=
  ∀ i j x y, l !! i = Some x → l !! j = Some y → (i < j)%nat →
             key x = key y → String.leb (name x) (name y) = true.


(** The same groups in another input order: the groups permuted, and
    the members of each group permuted. *)
Definition same_groups (d1 d2 : list (string * list string)) : Prop :=
  ∃ d', d1 ≡ₚ d' ∧ Forall2 (λ g g', g.1 = g'.1 ∧ g.2 ≡ₚ g'.2) d' d2.

(** The groups of [d] that have [n] members, in the order of [d]. *)
Definition with_count (n : nat) (d : list (string * list string)) :
    list (string * list string) :=
  filter (λ g, length g.2 = n) d.

(** The members of a group for which the report shows the time [t], in
    the order of the group. *)
Definition shown_at (w : world) (t : Z) (paths : list string) : list string :=
  filter (λ p, (stat_or_zero w p).1.2 = t) paths.

(** Two presentations of one group that differ at most in the order of
    members that show different times. *)
Definition same_members (w : world) (g g' : string * list string) : Prop :=
  g.1 = g'.1 ∧ ∀ t, shown_at w t g.2 = shown_at w t g'.2.

(** Two inputs that differ at most in the order of groups that have
    different numbers of members, and inside the groups in the order of
    members that show different times: for every number of members, the
    groups of that size follow each other in the same order in both. *)
Definition same_report_order (w : world) (d1 d2 : list (string * list string)) :
    Prop :=
  ∀ n, Forall2 (same_members w) (with_count n d1) (with_count n d2).

Section report_spec.
Context {P : Platform}.

(** The blocks of the groups as they follow each other in the report,
    numbered from [group_num]. *)
Fixpoint render_groups (w : world) (group_num : Z)
    (groups : list (string * list string)) : string :=
  match groups with
  | [] => ""
  | (file_hash, paths) :: groups' =>
      match paths_with_mtime w paths with
      | orig :: rest => group_block group_num file_hash orig rest
      | [] => ""
      end +:+ render_groups w (group_num + 1) groups'
  end.

(** The sum of [wasted_space] over the groups. *)
Definition wasted_total (w : world) (groups : list (string * list string)) : Z :=
  sum_Z ((λ g, match paths_with_mtime w g.2 with
               | orig :: _ => orig.2 * (Z.of_nat (length g.2) - 1)
               | [] => 0
               end)%Z <$> groups).

Definition found_line (duplicates : list (string * list string)) : string :=
  "Found " +:+ pretty (Z.of_nat (length duplicates)) +:+ " groups of duplicates (" +:+
  pretty (sum_Z ((λ g, Z.of_nat (length g.2) - 1)%Z <$> duplicates)) +:+
  " duplicate files)" +:+ nl +:+ nl.

Definition summary (duplicates : list (string * list string)) (total_wasted : Z) :
    string :=
  str_mul "=" 60 +:+ nl +:+
  "Summary:" +:+ nl +:+
  "  Total duplicate groups: " +:+ pretty (Z.of_nat (length duplicates)) +:+ nl +:+
  "  Total duplicate files: " +:+
    pretty (sum_Z ((λ g, Z.of_nat (length g.2) - 1)%Z <$> duplicates)) +:+ nl +:+
  "  Potential space savings: " +:+ format_size total_wasted +:+ nl.
End report_spec.

(** ** A platform and small worlds for the examples *)

Module Demo.
(** A stand-in digest (the content behind a tag) and a stand-in clock
    rendering (the number behind a letter); the examples do not depend
    on more than their being functions. *)
Definition platform : Platform :=
  {| md5 := λ c, "md5:" +:+ c;
     strftime := λ _ t, "t" +:+ pretty t;
     home := "/home/u";
     cwd := "/work" |}.

Definition plain (c : string) (t : Z) : file :=
  {| content := c; mtime := t; st_ok := true; rd_ok := true; rm_ok := true |}.

Definition mk_world (files : list (string * file)) (now : Z) : world :=
  {| fs := list_to_map files; mkdir_ok := true; clock := now |}.

(** The scenario of the specification: [a.txt] and [b.txt] hold ["X"],
    [c.txt] holds ["Y"]. *)
Definition abc : world :=
  mk_world [("/d/a.txt", plain "X" 100); ("/d/b.txt", plain "X" 200);
            ("/d/c.txt", plain "Y" 150)] 1000.
Definition abc_walk : list string := ["/d/a.txt"; "/d/b.txt"; "/d/c.txt"].

(** Two copies written at the same time; [os.walk] yields [b] first. *)
Definition tie : world :=
  mk_world [("/d/b", plain "X" 5); ("/d/a", plain "X" 5)] 1000.
Definition tie_walk : list string := ["/d/b"; "/d/a"].

(** Two copies, the one with the longer path found first. *)
Definition long_short : world :=
  mk_world [("/d/longer_name.txt", plain "X" 100); ("/d/a.txt", plain "X" 200)] 1000.
Definition long_short_walk : list string := ["/d/longer_name.txt"; "/d/a.txt"].

(** Two pairs of copies; the two walks differ in which pair comes
    first. *)
Definition four : world :=
  mk_world [("/d/a", plain "X" 10); ("/d/b", plain "X" 20);
            ("/d/c", plain "Y" 30); ("/d/e", plain "Y" 40)] 1000.
Definition four_walk : list string := ["/d/a"; "/d/b"; "/d/c"; "/d/e"].
Definition four_walk' : list string := ["/d/c"; "/d/e"; "/d/a"; "/d/b"].

(** The same files one second later. *)
Definition four_later : world :=
  {| fs := fs four; mkdir_ok := mkdir_ok four; clock := 1001 |}.

(** A group of which one member has disappeared since the scan. *)
Definition half : world := mk_world [("/d/a", plain "X" 10)] 1000.
Definition half_group : string * list string := ("md5:X", ["/d/a"; "/d/b"]).


Definition auto_shortest_args : args :=
  {| directory := "/d"; output := "duplicates_report.txt"; min_size := 0;
     delete := Some AutoShortest; permanent := false; dry_run := false |}.

(** Two pairs and a triple, given in two orders: the pairs keep their
    relative order, the triple moves to the front, and members that
    differ in time are exchanged. *)
Definition seven : world :=
  mk_world [("/d/a", plain "X" 10); ("/d/b", plain "X" 20);
            ("/d/c", plain "Y" 30); ("/d/e", plain "Y" 40);
            ("/d/f", plain "Z" 50); ("/d/g", plain "Z" 60);
            ("/d/h", plain "Z" 70)] 1000.
Definition seven_groups : list (string * list string) :=
  [("md5:X", ["/d/a"; "/d/b"]); ("md5:Y", ["/d/c"; "/d/e"]);
   ("md5:Z", ["/d/f"; "/d/g"; "/d/h"])].
Definition seven_groups' : list (string * list string) :=
  [("md5:X", ["/d/b"; "/d/a"]); ("md5:Z", ["/d/h"; "/d/f"; "/d/g"]);
   ("md5:Y", ["/d/c"; "/d/e"])].

(** A file in a directory the process may read but not write: it can
    be read and copied, and its entry cannot be removed. *)
Definition locked (c : string) (t : Z) : file :=
  {| content := c; mtime := t; st_ok := true; rd_ok := true; rm_ok := false |}.

(** Three copies, the second of them locked. *)
Definition guarded : world :=
  mk_world [("/d/a", plain "X" 10); ("/r/b", locked "X" 20);
            ("/d/c", plain "X" 30)] 1000.
Definition guarded_group : string * list string :=
  ("md5:X", ["/d/a"; "/r/b"; "/d/c"]).
End Demo.

(** ** Further notions used in the properties of the whole program *)

Section delete_spec.
Context {P : Platform}.

(** The name under which [delete_file] puts [filepath] in the trash. *)
Definition trash_path (w : world) (filepath : string) : string :=
  let trash_dir := os_path_join home ".duplicate_trash" in
  let filename := basename filepath in
  let timestamp := strftime "%Y%m%d_%H%M%S" (clock w) in
  trash_loop (size (fs w)) w trash_dir timestamp filename
    (os_path_join trash_dir (trash_name timestamp None filename)) 1.
End delete_spec.

(** [p] holds the file [f], and the process can see it. *)
Definition visible (w : world) (p : string) (f : file) : Prop :=
  fs w !! p = Some f ∧ st_ok f = true.

(** The copy a move to the trash leaves behind when it fails after
    [copyfile]: the content of [f], with the time of [f] if [copystat]
    could read it and the time of writing otherwise. *)
Definition stray_copy (w : world) (f : file) : file :=
  {| content := content f; mtime := if st_ok f then mtime f else clock w;
     st_ok := true; rd_ok := true; rm_ok := true |}.

(** Every file of the world can be seen. *)
Definition all_visible (w : world) : Prop :=
  ∀ p f, fs w !! p = Some f → st_ok f = true.

(** From [s] to [s'] some files [ds] were handed to [delete_file], and
    every file that could be seen and is not among them is still there,
    unchanged. *)
Definition frame (s s' : session) : Prop :=
  ∃ ds, attempted_paths (printed s') = attempted_paths (printed s) ++ ds
        ∧ ∀ k f, visible (sw s) k f → k ∉ ds → visible (sw s') k f.

(** Going from [w] to [w'] no file was lost: [w'] holds at least as
    many files, and every file of [w] is found in [w'] under some
    path. *)
Definition nothing_lost (w w' : world) : Prop :=
  size (fs w) ≤ size (fs w')
  ∧ ∀ q f, fs w !! q = Some f → ∃ q', fs w' !! q' = Some f.

(** A step of a session that keeps every file when every file can be
    seen before it, and leaves every file visible. *)
Definition trash_safe (s s' : session) : Prop :=
  all_visible (sw s) → all_visible (sw s') ∧ nothing_lost (sw s) (sw s').

(** Going from [w] to [w'] files were only removed: what [w'] holds
    under a path, [w] held under it. *)
Definition only_removed (w w' : world) : Prop :=
  ∀ q f, fs w' !! q = Some f → fs w !! q = Some f.

(** A step of a session in permanent mode: files were only removed, and
    the files newly reported as deleted are gone. *)
Definition removal_step (s s' : session) : Prop :=
  only_removed (sw s) (sw s')
  ∧ ∃ ds, deleted_paths (printed s') = deleted_paths (printed s) ++ ds
          ∧ ∀ p, p ∈ ds → fs (sw s') !! p = None.

(** The line asks for a deletion: after [strip] and [lower] it is [da]
    or starts with [d ] . *)
Definition asks_to_delete (line : string) : bool :=
  let choice := lower (strip line) in
  bool_decide (choice = "da") || String.prefix "d " choice.

(** The number of hundredths [f"{x:.2f}"] shows for [x = num / den]:
    [100 * x] rounded to the nearest integer, a tie going to the even
    one. *)
Definition hundredths (num den : Z) : Z :=
  let q := (100 * num / den)%Z in
  let r := ((100 * num) mod den)%Z in
  if (2 * r <? den)%Z then q
  else if (den <? 2 * r)%Z then (q + 1)%Z
  else if Z.even q then q else (q + 1)%Z.

(** The units of [format_size], the last one being the fallback after
    the loop. *)
Definition size_units : list string := ["B"; "KB"; "MB"; "GB"; "TB"; "PB"].

(** Every character of [s] passes the test [ok]. *)
Fixpoint all_chars (ok : ascii → bool) (s : string) : bool :=
  match s with
  | "" => true
  | String c s' => ok c && all_chars ok s'
  end.

Definition is_digit (c : ascii) : bool := bool_decide (is_Some (Ascii.is_nat c)).

(** The line is ASCII text, on which [strip], [lower], [split] and
    [int] are as Python has them. *)
Definition is_ascii (s : string) : bool :=
  all_chars (λ c, (N_of_ascii c <? 128)%N) s.

(** From [s] to [s'] every counted deletion added [file_size] to the
    space freed. *)
Definition freed_by (file_size : Z) (s s' : session) : Prop :=
  (space_freed s' - space_freed s
   = file_size * (files_deleted s' - files_deleted s))%Z.

Module Demo2.
(** Ten-byte files where at least a hundred bytes are asked for. *)
Definition small : world :=
  Demo.mk_world [("/d/a", Demo.plain "0123456789" 10);
                 ("/d/b", Demo.plain "0123456789" 20)] 1000.
Definition small_walk : list string := ["/d/a"; "/d/b"].

Definition report_only_args : args :=
  {| directory := "/d"; output := "duplicates_report.txt"; min_size := 0;
     delete := None; permanent := false; dry_run := false |}.

End Demo2.

(** * Properties *)

(** ** Stable sorting *)

Section sort_by_facts.
Context {A : Type} (key : A → Z).

Lemma insert_by_perm x l : insert_by key x l ≡ₚ x :: l.
Proof.
  induction l as [|y l IH]; simpl; [done|].
  destruct (key x <=? key y)%Z; [done|].
  rewrite IH. apply Permutation_swap.
Qed.

Lemma sort_by_perm l : sort_by key l ≡ₚ l.
Proof.
  induction l as [|x l IH]; simpl; [done|].
  by rewrite insert_by_perm, IH.
Qed.

Lemma sort_by_length l : length (sort_by key l) = length l.
Proof. by rewrite sort_by_perm. Qed.

Lemma sort_by_elem x l : x ∈ sort_by key l ↔ x ∈ l.
Proof. by rewrite sort_by_perm. Qed.

Lemma insert_by_sorted x l :
  StronglySorted (key_le key) l → StronglySorted (key_le key) (insert_by key x l).
Proof.
  induction 1 as [|y l Hl IH Hy]; simpl.
  - repeat constructor.
  - destruct (Z.leb_spec (key x) (key y)) as [Hxy|Hxy].
    + constructor; [by constructor|].
      constructor; [done|].
      eapply Forall_impl; [exact Hy|]. unfold key_le. intros z ?. lia.
    + constructor; [done|].
      rewrite insert_by_perm. constructor; [|done]. unfold key_le. lia.
Qed.

Lemma sort_by_sorted l : StronglySorted (key_le key) (sort_by key l).
Proof.
  induction l as [|x l IH]; simpl; [constructor|].
  by apply insert_by_sorted.
Qed.

(** Stability: elements of one key keep their input order. *)
Lemma insert_by_filter_key k x l :
  StronglySorted (key_le key) l →
  filter (λ y, key y = k) (insert_by key x l) = filter (λ y, key y = k) (x :: l).
Proof.
  induction 1 as [|y l Hl IH Hy]; simpl; [done|].
  destruct (Z.leb_spec (key x) (key y)) as [Hxy|Hxy]; [done|].
  rewrite (filter_cons _ y), IH, !(filter_cons _ x), !(filter_cons _ y).
  repeat case_decide; try done; lia.
Qed.

Lemma sort_by_stable k l :
  filter (λ y, key y = k) (sort_by key l) = filter (λ y, key y = k) l.
Proof.
  induction l as [|x l IH]; simpl; [done|].
  rewrite insert_by_filter_key by apply sort_by_sorted.
  by rewrite !filter_cons, IH.
Qed.

Lemma insert_by_head x l :
  head (insert_by key x l) =
  match head l with
  | Some y => if (key x <=? key y)%Z then Some x else Some y
  | None => Some x
  end.
Proof. destruct l as [|y l]; simpl; [done|]. by destruct (key x <=? key y)%Z. Qed.

Lemma sort_by_head l : head (sort_by key l) = first_min key l.
Proof.
  induction l as [|x l IH]; simpl; [done|].
  by rewrite insert_by_head, IH.
Qed.

Lemma first_min_is_Some l : l ≠ [] → is_Some (first_min key l).
Proof.
  destruct l as [|x l]; [done|]. intros _. simpl.
  destruct (first_min key l); [destruct (key x <=? key _)%Z|]; eauto.
Qed.

(** What [first_min] selects: nothing before it has a key as small, and
    nothing after it has a smaller one. *)
Lemma first_min_spec l m :
  first_min key l = Some m →
  ∃ l1 l2, l = l1 ++ m :: l2
           ∧ Forall (λ x, (key m < key x)%Z) l1
           ∧ Forall (λ x, (key m ≤ key x)%Z) l2.
Proof.
  revert m. induction l as [|x l IH]; intros m; simpl; [done|].
  destruct (first_min key l) as [y|] eqn:Hy.
  - destruct (IH y eq_refl) as (l1 & l2 & -> & H1 & H2).
    destruct (Z.leb_spec (key x) (key y)) as [Hxy|Hxy]; intros [= <-].
    + exists [], (l1 ++ y :: l2). split_and!; [done|constructor|].
      rewrite Forall_app, Forall_cons. split_and!; [|done|].
      * eapply Forall_impl; [exact H1|]. simpl. intros; lia.
      * eapply Forall_impl; [exact H2|]. simpl. intros; lia.
    + exists (x :: l1), l2. split_and!; [done| |done].
      constructor; [lia|done].
  - intros [= <-]. destruct l as [|z l].
    2:{ destruct (first_min_is_Some (z :: l)) as [? ?]; [done|congruence]. }
    exists [], []. split_and!; [done|constructor..].
Qed.

End sort_by_facts.

(** ** Dictionaries *)

Section dict_facts.
Context {K V : Type} `{EqDecision K}.

Lemma dict_append_keys (k : K) (v : V) d k' :
  k' ∈ (dict_append k v d).*1 ↔ k' = k ∨ k' ∈ d.*1.
Proof.
  induction d as [|[k0 vs] d IH]; simpl.
  - rewrite list_elem_of_singleton, elem_of_nil. naive_solver.
  - case_decide; subst; simpl; rewrite !elem_of_cons; [|rewrite IH]; naive_solver.
Qed.

Lemma dict_append_wf (k : K) (v : V) d : dict_wf d → dict_wf (dict_append k v d).
Proof.
  intros [Hnd Hne]. induction d as [|[k0 vs] d IH]; simpl.
  - split; [apply NoDup_singleton|by repeat constructor].
  - apply NoDup_cons in Hnd as [Hk0 Hnd]. apply Forall_cons in Hne as [Hvs Hne].
    case_decide; subst.
    + split; [by apply NoDup_cons|]. constructor; [|done].
      simpl. by destruct vs.
    + destruct (IH Hnd Hne) as [IH1 IH2]. split; [|by constructor].
      simpl. apply NoDup_cons. split; [|done].
      rewrite dict_append_keys. naive_solver.
Qed.

Lemma dict_get_append (k k' : K) (v : V) d :
  dict_get k (dict_append k' v d) =
  if decide (k = k') then dict_get k d ++ [v] else dict_get k d.
Proof.
  induction d as [|[k0 vs] d IH]; simpl.
  - by repeat case_decide.
  - repeat (case_decide; simpl; subst); try done.
Qed.

Lemma elem_of_dict (k : K) (vs : list V) d :
  dict_wf d → (k, vs) ∈ d ↔ dict_get k d = vs ∧ vs ≠ [].
Proof.
  intros [Hnd Hne]. induction d as [|[k0 vs0] d IH]; simpl.
  - split; [by intros ?%elem_of_nil|]. by intros [<- ?].
  - apply NoDup_cons in Hnd as [Hk0 Hnd]. apply Forall_cons in Hne as [Hvs Hne].
    rewrite elem_of_cons, (IH Hnd Hne). case_decide; subst.
    + split; [intros [[= <-]|[Hg Hv]]; [done|]|naive_solver].
      destruct Hk0. apply (list_elem_of_fmap_2 fst _ (k0, vs)).
      by apply IH.
    + naive_solver.
Qed.

Lemma group_pairs_snoc (xs : list (K * V)) kv :
  group_pairs (xs ++ [kv]) = dict_append kv.1 kv.2 (group_pairs xs).
Proof. unfold group_pairs. by rewrite foldl_app. Qed.

Lemma group_pairs_wf (xs : list (K * V)) : dict_wf (group_pairs xs).
Proof.
  induction xs as [|kv xs IH] using rev_ind.
  - split; [constructor|constructor].
  - rewrite group_pairs_snoc. by apply dict_append_wf.
Qed.

Lemma dict_get_group_pairs (k : K) (xs : list (K * V)) :
  dict_get k (group_pairs xs) = (filter (λ kv, kv.1 = k) xs).*2.
Proof.
  induction xs as [|kv xs IH] using rev_ind; [done|].
  rewrite group_pairs_snoc, dict_get_append, filter_app, fmap_app, IH.
  rewrite filter_cons, filter_nil.
  repeat case_decide; subst; simpl; try done; by rewrite ?app_nil_r.
Qed.

(** A bucket is exactly the values appended under its key, in order. *)
Lemma elem_of_group_pairs (k : K) (vs : list V) xs :
  (k, vs) ∈ group_pairs xs ↔ vs = (filter (λ kv, kv.1 = k) xs).*2 ∧ vs ≠ [].
Proof.
  rewrite elem_of_dict by apply group_pairs_wf.
  rewrite dict_get_group_pairs. naive_solver.
Qed.
End dict_facts.

(** ** Sanity checks of the string and formatting functions *)

Example strip_lower_ex : lower (strip "  D 12 ") = "d 12".
Proof. reflexivity. Qed.

Example split_ex : split "d  12 x" = ["d"; "12"; "x"].
Proof. reflexivity. Qed.

Example py_int_ex :
  py_int "12" = Some 12%Z ∧ py_int "-0" = Some 0%Z ∧ py_int "1_0" = Some 10%Z
  ∧ py_int "1__0" = None ∧ py_int "x" = None ∧ py_int "" = None ∧ py_int "3_" = None.
Proof. repeat split; reflexivity. Qed.

Example str_replace_ex :
  str_replace "auto-" "" "auto-oldest" = "oldest"
  ∧ str_replace "ab" "x" "cabab" = "cxx".
Proof. split; reflexivity. Qed.

Example basename_ex :
  basename "/a/b/c.txt" = "c.txt" ∧ basename "c" = "c" ∧ basename "/a/" = "".
Proof. repeat split; reflexivity. Qed.

Example os_path_join_ex :
  os_path_join "/home/u" ".duplicate_trash" = "/home/u/.duplicate_trash"
  ∧ os_path_join "/home/u/" "x" = "/home/u/x" ∧ os_path_join "/a" "/b" = "/b".
Proof. repeat split; reflexivity. Qed.

Example format_size_ex :
  format_size 0 = "0.00 B" ∧ format_size 1023 = "1023.00 B"
  ∧ format_size 1024 = "1.00 KB" ∧ format_size 1536 = "1.50 KB"
  ∧ format_size 1048575 = "1024.00 KB" ∧ format_size 128 = "128.00 B"
  ∧ format_size (5 * 1024 * 1024 + 128 * 1024 + 5 * 1024) = "5.13 MB".
Proof. repeat split; vm_compute; reflexivity. Qed.

(** From [2^53] on the size is rounded to a double before it is
    divided: the size below is one byte above 8.125 PB and is printed as
    the tie 8.125 is, to the even hundredth. *)
Example format_size_double_ex :
  float_of_int 9147936743096321 = 9147936743096320%Z
  ∧ format_size 9147936743096321 = "8.12 PB"
  ∧ format_size (2 ^ 60 - 1) = "1024.00 PB".
Proof. repeat split; vm_compute; reflexivity. Qed.

Example py_int_limit_ex :
  py_int (str_mul "1" 4300) ≠ None ∧ py_int (str_mul "1" 4301) = None
  ∧ py_int (str_mul "0" 4301) = None.
Proof. repeat split; vm_compute; congruence. Qed.

(** [len] counts characters: three letters of two bytes each are
    three. *)
Example py_len_ex :
  py_len "/d/ééé" = 6 ∧ String.length "/d/ééé" = 9 ∧ py_len "/d/abcd" = 7
  ∧ py_len "" = 0.
Proof. repeat split; reflexivity. Qed.

Example normpath_ex :
  normpath "/work/photos/../d/" = "/work/d" ∧ normpath "//a//b/./c/.." = "//a/b"
  ∧ normpath "///a" = "/a" ∧ normpath "../x/.." = ".." ∧ normpath "/.." = "/"
  ∧ normpath "" = "."
  ∧ abspath (P := Demo.platform) "photos/../d/" = "/work/d".
Proof. repeat split; vm_compute; reflexivity. Qed.

(** ** Grouping by a partial key *)

Section keyed.
Context {K A : Type} `{EqDecision K}.

Lemma keyed_filter (f : A → option K) (k : K) (l : list A) :
  (filter (λ kv, kv.1 = k) (keyed f l)).*2 = filter (λ x, f x = Some k) l.
Proof.
  induction l as [|x l IH]; [done|].
  unfold keyed in *. simpl. rewrite (filter_cons _ x l).
  destruct (f x) as [k'|] eqn:Hfx; simpl.
  - rewrite filter_cons. simpl.
    destruct (decide (k' = k)) as [->|Hne].
    + rewrite decide_True by done. simpl. f_equal. apply IH.
    + destruct (decide (Some k' = Some k)); [congruence|apply IH].
  - apply IH.
Qed.

(** Folding a conditional [dict_append] over [l] builds the grouping of
    the keyed elements. *)
Lemma foldl_keyed (f : A → option K) (step : list (K * list A) → A → list (K * list A))
    (l : list A) (d : list (K * list A)) :
  (∀ d x, step d x = match f x with Some k => dict_append k x d | None => d end) →
  foldl step d l = foldl (λ d kv, dict_append kv.1 kv.2 d) d (keyed f l).
Proof.
  intros Hstep. revert d. induction l as [|x l IH]; intros d; [done|].
  simpl. rewrite Hstep, IH. unfold keyed. simpl.
  by destruct (f x).
Qed.

Lemma elem_of_group_keyed (f : A → option K) (k : K) (vs : list A) (l : list A) :
  (k, vs) ∈ group_pairs (keyed f l) ↔ vs = filter (λ x, f x = Some k) l ∧ vs ≠ [].
Proof. by rewrite elem_of_group_pairs, keyed_filter. Qed.
End keyed.

Lemma two_elems_length {A} (x y : A) (l : list A) :
  x ∈ l → y ∈ l → x ≠ y → 1 < length l.
Proof.
  destruct l as [|a [|b l]]; simpl; [by intros ?%elem_of_nil| |lia].
  intros ->%list_elem_of_singleton ->%list_elem_of_singleton. done.
Qed.

Lemma another_elem `{EqDecision A} (x : A) (l : list A) :
  NoDup l → 1 < length l → ∃ y, y ∈ l ∧ y ≠ x.
Proof.
  destruct l as [|a [|b l]]; simpl; [lia..|]. intros Hnd _.
  apply NoDup_cons in Hnd as [Hab _].
  destruct (decide (a = x)) as [->|Ha].
  - exists b. split; [right; left|]. intros ->. apply Hab. left.
  - exists a. split; [left|done].
Qed.

(** ** The two passes of [find_duplicates] *)

Section scan_facts.
Context {P : Platform}.
Implicit Types (w : world) (walk : list string) (min_size : Z).

Lemma size_pass_group w walk min_size :
  size_pass w walk min_size = group_pairs (keyed (size_key w min_size) walk).
Proof.
  unfold size_pass, group_pairs. apply foldl_keyed.
  intros d x. unfold size_step, size_key.
  destruct (getsize w x) as [size|]; [|done]. by destruct (min_size <=? size)%Z.
Qed.

Lemma hash_step_fold w st l :
  foldl (hash_step w) st l =
  (foldl (λ d kv, dict_append kv.1 kv.2 d) st.1 (keyed (hash_key w) l), st.2 ++ l).
Proof.
  revert st. induction l as [|x l IH]; intros [d c]; simpl.
  - by rewrite app_nil_r.
  - rewrite IH. simpl. rewrite <-(assoc_L (++)). simpl. f_equal.
    unfold keyed, hash_key. simpl.
    destruct (get_file_hash w x) as [h|]; [|done]. by destruct (truthy h).
Qed.

Lemma hash_pass_concat w (pot : list (Z * list string)) st :
  foldl (λ st sp, foldl (hash_step w) st sp.2) st pot
  = foldl (hash_step w) st (mjoin pot.*2).
Proof.
  revert st. induction pot as [|sp pot IH]; intros st; simpl; [done|].
  by rewrite foldl_app, IH.
Qed.

Lemma hash_pass_group w (pot : list (Z * list string)) :
  hash_pass w pot =
  (group_pairs (keyed (hash_key w) (mjoin pot.*2)), mjoin pot.*2).
Proof. unfold hash_pass. by rewrite hash_pass_concat, hash_step_fold. Qed.

(** The hasher is called exactly on the members of the size buckets
    with more than one member, bucket by bucket. *)
Lemma hashed_files_eq w walk min_size :
  hashed_files w walk min_size
  = mjoin (potential_duplicates (size_pass w walk min_size)).*2.
Proof. unfold hashed_files. by rewrite hash_pass_group. Qed.

Lemma elem_of_size_pass w walk min_size size paths :
  (size, paths) ∈ size_pass w walk min_size ↔
  paths = filter (λ p, size_key w min_size p = Some size) walk ∧ paths ≠ [].
Proof. by rewrite size_pass_group, elem_of_group_keyed. Qed.

Lemma size_key_Some w min_size p size :
  size_key w min_size p = Some size ↔ getsize w p = Ok size ∧ (min_size ≤ size)%Z.
Proof.
  unfold size_key. destruct (getsize w p) as [s|]; [|by split; [|intros []]].
  destruct (Z.leb_spec min_size s) as [Hle|Hlt]; split.
  - by intros [= <-].
  - by intros [[= <-] _].
  - done.
  - intros [[= <-] ?]. lia.
Qed.

Lemma elem_of_hashed_files w walk min_size p :
  p ∈ hashed_files w walk min_size ↔
  ∃ size, p ∈ walk ∧ size_key w min_size p = Some size
          ∧ 1 < length (filter (λ q, size_key w min_size q = Some size) walk).
Proof.
  rewrite hashed_files_eq, list_elem_of_join. split.
  - intros (paths & Hp & Hin).
    apply list_elem_of_fmap in Hin as ([size paths'] & -> & Hin).
    apply list_elem_of_filter in Hin as [Hlen Hin].
    apply elem_of_size_pass in Hin as [-> _]. simpl in *.
    apply list_elem_of_filter in Hp as [Hk Hp]. eauto.
  - intros (size & Hp & Hk & Hlen).
    exists (filter (λ q, size_key w min_size q = Some size) walk). split.
    + by apply list_elem_of_filter.
    + apply list_elem_of_fmap.
      exists (size, filter (λ q, size_key w min_size q = Some size) walk).
      split; [done|]. apply list_elem_of_filter. split; [done|].
      apply elem_of_size_pass. split; [done|].
      intros Hnil. rewrite Hnil in Hlen. simpl in Hlen. lia.
Qed.

Lemma elem_of_find_duplicates w walk min_size h paths :
  (h, paths) ∈ find_duplicates w walk min_size ↔
  paths = filter (λ p, hash_key w p = Some h) (hashed_files w walk min_size)
  ∧ 1 < length paths.
Proof.
  unfold find_duplicates. rewrite list_elem_of_filter. simpl.
  rewrite hash_pass_group. simpl. rewrite elem_of_group_keyed.
  rewrite hashed_files_eq. split; [naive_solver|].
  intros [-> Hlen]. split_and!; [done..|].
  intros Hnil. rewrite Hnil in Hlen. simpl in Hlen. lia.
Qed.
End scan_facts.

Section grouping.
Context {P : Platform}.
Implicit Types (w : world) (walk : list string) (min_size : Z).

Lemma size_key_file w min_size p f :
  fs w !! p = Some f → st_ok f = true →
  (min_size ≤ Z.of_nat (String.length (content f)))%Z →
  size_key w min_size p = Some (Z.of_nat (String.length (content f))).
Proof.
  intros Hp Hst Hmin. apply size_key_Some. split; [|done].
  unfold getsize, os_stat. rewrite Hp, Hst. done.
Qed.

Lemma hash_key_file w p f :
  fs w !! p = Some f → rd_ok f = true → md5 (content f) ≠ "" →
  hash_key w p = Some (md5 (content f)).
Proof.
  intros Hp Hrd Hne. unfold hash_key, get_file_hash. rewrite Hp, Hrd.
  unfold truthy. by rewrite bool_decide_eq_false_2.
Qed.

Lemma hash_key_Some w p h : hash_key w p = Some h → get_file_hash w p = Some h.
Proof.
  unfold hash_key. destruct (get_file_hash w p) as [h'|]; [|done].
  destruct (truthy h'); [|done]. by intros [= ->].
Qed.

(** C3. Two scanned files that both can be read, hold the same bytes
    and are at least [min_size] long are members of one group, the one
    of their digest; all members of a group have the digest of the
    group, so two members of a group never differ in digest, and never
    in content if the digest has no collisions; and every group has at
    least two members. *)
Theorem find_duplicates_groups w walk min_size :
  (∀ p1 p2 f1 f2,
      p1 ∈ walk → p2 ∈ walk → p1 ≠ p2 →
      fs w !! p1 = Some f1 → fs w !! p2 = Some f2 →
      st_ok f1 = true → st_ok f2 = true → rd_ok f1 = true → rd_ok f2 = true →
      content f1 = content f2 →
      (min_size ≤ Z.of_nat (String.length (content f1)))%Z →
      md5 (content f1) ≠ "" →
      ∃ paths, (md5 (content f1), paths) ∈ find_duplicates w walk min_size
               ∧ p1 ∈ paths ∧ p2 ∈ paths)
  ∧ (∀ h paths p,
      (h, paths) ∈ find_duplicates w walk min_size → p ∈ paths →
      get_file_hash w p = Some h)
  ∧ (∀ h paths p q fp fq,
      (h, paths) ∈ find_duplicates w walk min_size → p ∈ paths → q ∈ paths →
      fs w !! p = Some fp → fs w !! q = Some fq →
      md5 (content fp) = md5 (content fq)
      ∧ ((∀ c1 c2, md5 c1 = md5 c2 → c1 = c2) → content fp = content fq))
  ∧ (∀ h paths,
      (h, paths) ∈ find_duplicates w walk min_size → 2 ≤ length paths).
Proof.
  split_and!.
  - intros p1 p2 f1 f2 Hw1 Hw2 Hne Hf1 Hf2 Hst1 Hst2 Hrd1 Hrd2 Hc Hmin Hmd5.
    set (size := Z.of_nat (String.length (content f1))).
    assert (size_key w min_size p1 = Some size) as Hk1
      by by apply size_key_file.
    assert (size_key w min_size p2 = Some size) as Hk2.
    { unfold size. rewrite Hc. apply size_key_file; [done..|]. by rewrite <-Hc. }
    assert (1 < length (filter (λ q, size_key w min_size q = Some size) walk)) as Hlen.
    { apply (two_elems_length p1 p2); [by apply list_elem_of_filter..|done]. }
    assert (p1 ∈ hashed_files w walk min_size) as Hh1.
    { apply elem_of_hashed_files. eauto. }
    assert (p2 ∈ hashed_files w walk min_size) as Hh2.
    { apply elem_of_hashed_files. eauto. }
    assert (hash_key w p1 = Some (md5 (content f1))) as Hd1
      by by apply hash_key_file.
    assert (hash_key w p2 = Some (md5 (content f1))) as Hd2.
    { rewrite Hc. apply hash_key_file; [done..|]. by rewrite <-Hc. }
    eexists. split_and!.
    + apply elem_of_find_duplicates. split; [done|].
      apply (two_elems_length p1 p2); [by apply list_elem_of_filter..|done].
    + by apply list_elem_of_filter.
    + by apply list_elem_of_filter.
  - intros h paths p [-> _]%elem_of_find_duplicates [Hk _]%list_elem_of_filter.
    by apply hash_key_Some.
  - intros h paths p q fp fq [-> _]%elem_of_find_duplicates
      [Hp%hash_key_Some _]%list_elem_of_filter
      [Hq%hash_key_Some _]%list_elem_of_filter Hfp Hfq.
    unfold get_file_hash in Hp, Hq. rewrite Hfp in Hp. rewrite Hfq in Hq.
    destruct (rd_ok fp), (rd_ok fq); try done.
    assert (md5 (content fp) = md5 (content fq)) as Heq by congruence.
    split; [done|]. intros Hinj. by apply Hinj.
  - intros h paths [_ Hlen]%elem_of_find_duplicates. lia.
Qed.

(** C7. A path is handed to the hasher only if its size could be read,
    is at least [min_size], and is also the size of another scanned
    path; a size bucket only holds paths of that size, which is at
    least [min_size]; and the member of a bucket of one is not hashed. *)
Theorem hashed_only_if_shared_size w walk min_size :
  NoDup walk →
  (∀ p, p ∈ hashed_files w walk min_size →
        ∃ size, getsize w p = Ok size ∧ (min_size ≤ size)%Z
                ∧ ∃ q, q ∈ walk ∧ q ≠ p ∧ getsize w q = Ok size)
  ∧ (∀ size paths p,
        (size, paths) ∈ size_pass w walk min_size → p ∈ paths →
        getsize w p = Ok size ∧ (min_size ≤ size)%Z)
  ∧ (∀ size p,
        (size, [p]) ∈ size_pass w walk min_size →
        p ∉ hashed_files w walk min_size).
Proof.
  intros Hnd. split_and!.
  - intros p (size & Hp & Hk & Hlen)%elem_of_hashed_files.
    exists size. apply size_key_Some in Hk as Hk'. destruct Hk' as [Hs Hmin].
    split_and!; [done..|].
    destruct (another_elem p (filter (λ q, size_key w min_size q = Some size) walk))
      as (q & Hq & Hqp); [by apply NoDup_filter|done|].
    apply list_elem_of_filter in Hq as [Hkq Hq].
    apply size_key_Some in Hkq as [Hsq _]. eauto.
  - intros size paths p [-> _]%elem_of_size_pass [Hk _]%list_elem_of_filter.
    by apply size_key_Some.
  - intros size p [Heq _]%elem_of_size_pass
      (size' & Hp & Hk & Hlen)%elem_of_hashed_files.
    assert (p ∈ filter (λ q, size_key w min_size q = Some size) walk) as Hin
      by (rewrite <-Heq; left).
    apply list_elem_of_filter in Hin as [Hk' _].
    rewrite Hk in Hk'. injection Hk' as ->.
    rewrite <-Heq in Hlen. simpl in Hlen. lia.
Qed.
End grouping.

(** ** What the deleting functions print *)

Lemma attempted_paths_app evs1 evs2 :
  attempted_paths (evs1 ++ evs2) = attempted_paths evs1 ++ attempted_paths evs2.
Proof. apply omap_app. Qed.

Lemma kept_paths_app evs1 evs2 :
  kept_paths (evs1 ++ evs2) = kept_paths evs1 ++ kept_paths evs2.
Proof. apply omap_app. Qed.

Lemma deleted_paths_app evs1 evs2 :
  deleted_paths (evs1 ++ evs2) = deleted_paths evs1 ++ deleted_paths evs2.
Proof. apply omap_app. Qed.

Lemma say_attempted s ev :
  quiet ev → attempted_paths (printed (say s ev)) = attempted_paths (printed s).
Proof.
  intros Hq. simpl. rewrite attempted_paths_app.
  destruct ev; simpl in *; try done; by rewrite app_nil_r.
Qed.

Lemma say_kept s ev :
  quiet ev → kept_paths (printed (say s ev)) = kept_paths (printed s).
Proof.
  intros Hq. simpl. rewrite kept_paths_app.
  destruct ev; simpl in *; try done; by rewrite app_nil_r.
Qed.

Section delete_facts.
Context {P : Platform}.
Implicit Types (w : world) (s : session) (use_trash : bool).

(** [delete_and_count] prints one line, [Deleted] or [Failed], about
    the path it was given, and counts the first kind only. *)
Lemma delete_and_count_spec use_trash file_size s path :
  let s' := delete_and_count use_trash file_size s path in
  let r := delete_file (sw s) path use_trash in
  sw s' = r.2
  ∧ (r.1.1 = true →
       printed s' = printed s ++ [Deleted path]
       ∧ files_deleted s' = (files_deleted s + 1)%Z
       ∧ space_freed s' = (space_freed s + file_size)%Z)
  ∧ (r.1.1 = false →
       printed s' = printed s ++ [Failed path r.1.2]
       ∧ files_deleted s' = files_deleted s
       ∧ space_freed s' = space_freed s).
Proof.
  unfold delete_and_count. simpl.
  destruct (delete_file (sw s) path use_trash) as [[[] msg] w']; simpl; done.
Qed.

Lemma delete_and_count_attempted use_trash file_size s path :
  attempted_paths (printed (delete_and_count use_trash file_size s path))
  = attempted_paths (printed s) ++ [path].
Proof.
  destruct (delete_and_count_spec use_trash file_size s path) as (_ & Ht & Hf).
  destruct (delete_file (sw s) path use_trash) as [[[] msg] w']; simpl in *.
  - destruct Ht as [-> _]; [done|]. by rewrite attempted_paths_app.
  - destruct Hf as [-> _]; [done|]. by rewrite attempted_paths_app.
Qed.

Lemma delete_and_count_kept use_trash file_size s path :
  kept_paths (printed (delete_and_count use_trash file_size s path))
  = kept_paths (printed s).
Proof.
  destruct (delete_and_count_spec use_trash file_size s path) as (_ & Ht & Hf).
  destruct (delete_file (sw s) path use_trash) as [[[] msg] w']; simpl in *.
  - destruct Ht as [-> _]; [done|]. rewrite kept_paths_app. simpl. by rewrite app_nil_r.
  - destruct Hf as [-> _]; [done|]. rewrite kept_paths_app. simpl. by rewrite app_nil_r.
Qed.

(** A batch attempts every path it is given, in order, whatever the
    outcome of the earlier ones. *)
Lemma batch_attempted use_trash file_size s paths :
  attempted_paths (printed (foldl (delete_and_count use_trash file_size) s paths))
  = attempted_paths (printed s) ++ paths.
Proof.
  revert s. induction paths as [|p paths IH]; intros s; simpl.
  - by rewrite app_nil_r.
  - rewrite IH, delete_and_count_attempted. by rewrite <-(assoc_L (++)).
Qed.

Lemma batch_kept use_trash file_size s paths :
  kept_paths (printed (foldl (delete_and_count use_trash file_size) s paths))
  = kept_paths (printed s).
Proof.
  revert s. induction paths as [|p paths IH]; intros s; simpl; [done|].
  by rewrite IH, delete_and_count_kept.
Qed.

Lemma delete_and_count_counted use_trash file_size s path :
  counted s → counted (delete_and_count use_trash file_size s path).
Proof.
  unfold counted. intros Hc.
  destruct (delete_and_count_spec use_trash file_size s path) as (_ & Ht & Hf).
  destruct (delete_file (sw s) path use_trash) as [[[] msg] w']; simpl in *.
  - destruct Ht as (-> & -> & _); [done|].
    rewrite deleted_paths_app, length_app. simpl. lia.
  - destruct Hf as (-> & -> & _); [done|].
    rewrite deleted_paths_app, length_app. simpl. lia.
Qed.

End delete_facts.

(** ** Kept files and deleted files stay apart *)

Lemma group_step_apart paths seen s s' :
  group_step paths s s' → named_in seen s → apart s →
  (∀ x, x ∈ paths → x ∉ seen) →
  apart s' ∧ named_in (seen ++ paths) s'.
Proof.
  intros (ks & ds & Hk & Ha & Hks & Hds & Hkd) Hseen Hap Hdisj. split.
  - intros k. rewrite Hk, Ha, !elem_of_app. intros [Hin|Hin] [Hin'|Hin'].
    + by apply (Hap k).
    + apply (Hdisj k); [by apply Hds|]. apply Hseen. by left.
    + apply (Hdisj k); [by apply Hks|]. apply Hseen. by right.
    + by apply (Hkd k).
  - intros x. rewrite Hk, Ha, !elem_of_app. intros [[?|?]|[?|?]].
    + left. apply Hseen. by left.
    + right. by apply Hks.
    + left. apply Hseen. by right.
    + right. by apply Hds.
Qed.

Lemma group_step_refl paths s : group_step paths s s.
Proof.
  exists [], []. rewrite !app_nil_r. split_and!; try done; by intros ? ?%elem_of_nil.
Qed.

Section auto_facts.
Context {P : Platform}.
Implicit Types (w : world) (s : session) (use_trash : bool).

Lemma stat_info_path w p x : stat_info w p = Some x → info_path x = p.
Proof.
  unfold stat_info. destruct (getmtime w p); [|done].
  destruct (getsize w p); [|done]. by intros [= <-].
Qed.

Lemma stat_info_paths w (paths : list string) :
  info_path <$> omap (stat_info w) paths
  = filter (λ p, is_Some (stat_info w p)) paths.
Proof.
  induction paths as [|p paths IH]; [done|]. simpl. rewrite filter_cons.
  destruct (stat_info w p) as [x|] eqn:Hx; simpl.
  - f_equal; [by eapply stat_info_path|apply IH].
  - apply IH.
Qed.

Lemma apply_strategy_perm keep_strategy l : apply_strategy keep_strategy l ≡ₚ l.
Proof. unfold apply_strategy. repeat case_bool_decide; by rewrite ?sort_by_perm. Qed.

(** The paths in [paths_with_info] are the members whose metadata could
    be read, in some order. *)
Lemma paths_with_info_paths keep_strategy w (paths : list string) :
  info_path <$> paths_with_info keep_strategy w paths
  ≡ₚ filter (λ p, is_Some (stat_info w p)) paths.
Proof.
  unfold paths_with_info. by rewrite apply_strategy_perm, stat_info_paths.
Qed.

Lemma auto_delete_group_nil keep_strategy use_trash s g :
  paths_with_info keep_strategy (sw s) g.2 = [] →
  auto_delete_group keep_strategy use_trash s g = s.
Proof. unfold auto_delete_group. by intros ->. Qed.

(** With a non-empty list the head is announced as kept and exactly
    the others are handed to [delete_file], in order. *)
Lemma auto_delete_group_cons keep_strategy use_trash s g keep others :
  paths_with_info keep_strategy (sw s) g.2 = keep :: others →
  let s' := auto_delete_group keep_strategy use_trash s g in
  kept_paths (printed s') = kept_paths (printed s) ++ [info_path keep]
  ∧ attempted_paths (printed s') = attempted_paths (printed s) ++ (info_path <$> others).
Proof.
  intros Hpwi. unfold auto_delete_group. rewrite Hpwi. simpl.
  rewrite batch_kept, batch_attempted. simpl.
  rewrite kept_paths_app, attempted_paths_app. simpl. by rewrite app_nil_r.
Qed.

Lemma auto_delete_group_step keep_strategy use_trash s g :
  NoDup g.2 →
  group_step g.2 s (auto_delete_group keep_strategy use_trash s g).
Proof.
  intros Hnd.
  destruct (paths_with_info keep_strategy (sw s) g.2) as [|keep others] eqn:Hpwi.
  { rewrite auto_delete_group_nil by done. apply group_step_refl. }
  destruct (auto_delete_group_cons keep_strategy use_trash s g keep others Hpwi)
    as [Hk Ha].
  pose proof (paths_with_info_paths keep_strategy (sw s) g.2) as Hperm.
  rewrite Hpwi in Hperm. simpl in Hperm.
  assert (NoDup (info_path keep :: (info_path <$> others))) as Hnd'.
  { rewrite Hperm. by apply NoDup_filter. }
  assert (∀ x, x ∈ info_path keep :: (info_path <$> others) → x ∈ g.2) as Hin.
  { intros x. rewrite Hperm. by intros [_ ?]%list_elem_of_filter. }
  apply NoDup_cons in Hnd' as [Hkeep _].
  exists [info_path keep], (info_path <$> others). split_and!; [done..| | |].
  - intros x ->%list_elem_of_singleton. apply Hin. left.
  - intros x Hx. apply Hin. by right.
  - by intros x ->%list_elem_of_singleton.
Qed.

Lemma auto_delete_fold_apart keep_strategy use_trash d s seen :
  named_in seen s → apart s →
  NoDup (mjoin d.*2) → (∀ x, x ∈ mjoin d.*2 → x ∉ seen) →
  apart (foldl (auto_delete_group keep_strategy use_trash) s d).
Proof.
  revert s seen. induction d as [|g d IH]; intros s seen Hseen Hap Hnd Hdisj; [done|].
  simpl in *. apply NoDup_app in Hnd as (Hg & Hgd & Hd).
  destruct (group_step_apart g.2 seen s (auto_delete_group keep_strategy use_trash s g))
    as [Hap' Hseen']; [by apply auto_delete_group_step|done..| |].
  { intros x Hx. apply Hdisj, elem_of_app. by left. }
  apply (IH _ (seen ++ g.2)); [done..|].
  intros x Hx [Hs|Hs]%elem_of_app.
  - apply (Hdisj x); [|done]. apply elem_of_app. by right.
  - by apply (Hgd x).
Qed.

End auto_facts.

Lemma adds_only_refl cands s : adds_only cands s s.
Proof. split; [done|]. exists []. rewrite app_nil_r. split; [done|]. by intros ? ?%elem_of_nil. Qed.

Lemma adds_only_trans cands s1 s2 s3 :
  adds_only cands s1 s2 → adds_only cands s2 s3 → adds_only cands s1 s3.
Proof.
  intros [Hk1 (ds1 & Ha1 & Hd1)] [Hk2 (ds2 & Ha2 & Hd2)]. split; [congruence|].
  exists (ds1 ++ ds2). rewrite Ha2, Ha1, (assoc_L (++)). split; [done|].
  intros a [?|?]%elem_of_app; auto.
Qed.

Lemma adds_only_say cands s ev : quiet ev → adds_only cands s (say s ev).
Proof.
  intros Hq. split; [by apply say_kept|]. exists [].
  rewrite app_nil_r, say_attempted by done. split; [done|]. by intros ? ?%elem_of_nil.
Qed.

Lemma lookup_tail_elem {A} (l : list A) (n : nat) (x : A) :
  1 ≤ n → l !! n = Some x → x ∈ tail l.
Proof.
  destruct l as [|y l], n as [|n]; simpl; try done; try lia.
  intros _ Hl. by eapply list_elem_of_lookup_2.
Qed.

Section interactive_facts.
Context {P : Platform}.
Implicit Types (w : world) (s : session) (use_trash : bool).
Implicit Types (pwm : list (string * Z * Z)).

Lemma stat_or_zero_path w p : (stat_or_zero w p).1.1 = p.
Proof.
  unfold stat_or_zero. destruct (getmtime w p); [|done]. by destruct (getsize w p).
Qed.

(** [paths_with_mtime] holds every member of the group, once. *)
Lemma paths_with_mtime_paths w (paths : list string) :
  (λ x, x.1.1) <$> paths_with_mtime w paths ≡ₚ paths.
Proof.
  unfold paths_with_mtime. rewrite sort_by_perm, <-list_fmap_compose.
  induction paths as [|p paths IH]; [done|]. simpl.
  by rewrite stat_or_zero_path, IH.
Qed.

Lemma paths_with_mtime_length w (paths : list string) :
  length (paths_with_mtime w paths) = length paths.
Proof. unfold paths_with_mtime. by rewrite sort_by_length, length_fmap. Qed.

Lemma batch_adds_only use_trash file_size s (paths : list string) :
  adds_only paths s (foldl (delete_and_count use_trash file_size) s paths).
Proof. split; [apply batch_kept|]. exists paths. by rewrite batch_attempted. Qed.

Lemma d_command_adds_only use_trash pwm file_size s choice :
  adds_only ((λ x, x.1.1) <$> tail pwm) s (d_command use_trash pwm file_size s choice).
Proof.
  unfold d_command.
  destruct (split choice !! 1%nat) as [token|]; [|by apply adds_only_say].
  destruct (py_int token) as [num|]; [|by apply adds_only_say].
  destruct (Z.eqb_spec num 0); [by apply adds_only_say|].
  destruct (Z.leb_spec 1 num); simpl; [|by apply adds_only_say].
  destruct (Z.ltb_spec num (Z.of_nat (length pwm))); [|by apply adds_only_say].
  destruct (pwm !! Z.to_nat num) as [x|] eqn:Hx; [|by apply adds_only_say].
  split; [apply delete_and_count_kept|].
  exists [x.1.1]. rewrite delete_and_count_attempted. split; [done|].
  intros a ->%list_elem_of_singleton.
  apply (list_elem_of_fmap_2 (λ x : string * Z * Z, x.1.1)).
  apply (lookup_tail_elem pwm (Z.to_nat num)); [lia|done].
Qed.

(** Whatever is typed at the prompt of a group, only files listed
    after index 0 are handed to [delete_file]. *)
Lemma prompt_loop_adds_only inputs use_trash pwm file_size s :
  adds_only ((λ x, x.1.1) <$> tail pwm) s
    (prompt_loop inputs use_trash pwm file_size s).1.2.
Proof.
  revert s. induction inputs as [|line rest IH]; intros s; simpl.
  { apply adds_only_refl. }
  repeat case_bool_decide; simpl; try apply adds_only_refl.
  - destruct rest as [|line' rest']; [apply adds_only_refl|].
    case_bool_decide; [apply batch_adds_only|apply adds_only_refl].
  - destruct (String.prefix "d " (lower (strip line))).
    + eapply adds_only_trans; [apply d_command_adds_only|apply IH].
    + eapply adds_only_trans; [|apply IH].
      by apply (adds_only_say _ _ InvalidCommand).
Qed.

Lemma interactive_group_step pwm orig others inputs use_trash s (paths : list string) :
  pwm = orig :: others → (λ x, x.1.1) <$> pwm ≡ₚ paths → NoDup paths →
  group_step paths s
    (prompt_loop inputs use_trash pwm orig.2 (say s (Keeping orig.1.1))).1.2.
Proof.
  intros -> Hperm Hnd.
  destruct (prompt_loop_adds_only inputs use_trash (orig :: others) orig.2
              (say s (Keeping orig.1.1))) as [Hk (ds & Ha & Hds)].
  simpl in *. rewrite kept_paths_app in Hk. rewrite attempted_paths_app in Ha.
  simpl in *. rewrite app_nil_r in Ha.
  assert (NoDup (orig.1.1 :: ((λ x, x.1.1) <$> others))) as Hnd'
    by by rewrite Hperm.
  apply NoDup_cons in Hnd' as [Horig _].
  exists [orig.1.1], ds. split_and!; [done..| | |].
  - intros x ->%list_elem_of_singleton. rewrite <-Hperm. left.
  - intros x Hx. rewrite <-Hperm. right. by apply Hds.
  - intros x ->%list_elem_of_singleton Hx. by apply Horig, Hds.
Qed.

Lemma interactive_groups_apart groups inputs use_trash s seen :
  named_in seen s → apart s →
  NoDup (mjoin groups.*2) → (∀ x, x ∈ mjoin groups.*2 → x ∉ seen) →
  apart (interactive_groups groups inputs use_trash s).2.
Proof.
  revert s inputs seen.
  induction groups as [|[file_hash paths] groups IH];
    intros s inputs seen Hseen Hap Hnd Hdisj; [done|].
  simpl in *. apply NoDup_app in Hnd as (Hg & Hgd & Hd).
  destruct (paths_with_mtime (sw s) paths) as [|orig others] eqn:Hpwm; [done|].
  pose proof (interactive_group_step _ orig others inputs use_trash s paths
                eq_refl) as Hstep.
  rewrite <-Hpwm in Hstep at 1. specialize (Hstep (paths_with_mtime_paths _ _) Hg).
  destruct (prompt_loop inputs use_trash (orig :: others) orig.2
              (say s (Keeping orig.1.1))) as [[how s'] inputs'] eqn:Hloop.
  simpl in Hstep.
  destruct (group_step_apart paths seen s s') as [Hap' Hseen']; [done..| |].
  { intros x Hx. apply Hdisj, elem_of_app. by left. }
  destruct how; simpl; [|done..].
  apply (IH _ _ (seen ++ paths)); [done..|].
  intros x Hx [Hs|Hs]%elem_of_app.
  - apply (Hdisj x); [|done]. apply elem_of_app. by right.
  - by apply (Hgd x).
Qed.

Lemma new_session_apart w : apart (new_session w) ∧ named_in [] (new_session w).
Proof.
  split; [by intros k ?%elem_of_nil|]. intros x [?%elem_of_nil|?%elem_of_nil]; done.
Qed.

Lemma by_count_desc_paths (d : list (string * list string)) :
  mjoin (by_count_desc d).*2 ≡ₚ mjoin d.*2.
Proof. unfold by_count_desc. by rewrite sort_by_perm. Qed.

Lemma interactive_delete_apart w (d : list (string * list string)) inputs :
  NoDup (mjoin d.*2) → apart (interactive_delete w d inputs).2.
Proof.
  intros Hnd. unfold interactive_delete.
  destruct (new_session_apart w) as [Hap Hseen].
  destruct (ask_use_trash inputs) as [[use_trash inputs']|e]; [|done].
  apply (interactive_groups_apart _ _ _ _ []); [done..| |].
  - by rewrite by_count_desc_paths.
  - by intros x _ ?%elem_of_nil.
Qed.
End interactive_facts.

(** ** A scanned path is a member of at most one group *)

Section dict_paths.
Context {K V : Type} `{EqDecision K}.

Lemma dict_append_join (k : K) (v : V) (d : list (K * list V)) :
  mjoin (dict_append k v d).*2 ≡ₚ v :: mjoin d.*2.
Proof.
  induction d as [|[k' vs] d IH]; simpl; [done|].
  case_decide; simpl.
  - rewrite <-(assoc_L (++)). simpl. by rewrite <-Permutation_middle.
  - rewrite IH. by rewrite <-Permutation_middle.
Qed.

Lemma group_pairs_join (xs : list (K * V)) : mjoin (group_pairs xs).*2 ≡ₚ xs.*2.
Proof.
  induction xs as [|kv xs IH] using rev_ind; [done|].
  rewrite group_pairs_snoc, dict_append_join, IH, fmap_app. simpl.
  by rewrite <-Permutation_cons_append.
Qed.

Lemma keyed_values (f : V → option K) (l : list V) :
  (keyed f l).*2 = filter (λ x, is_Some (f x)) l.
Proof.
  induction l as [|x l IH]; [done|]. unfold keyed in *. simpl.
  rewrite filter_cons. destruct (f x); simpl; [f_equal|]; apply IH.
Qed.

Lemma group_keyed_NoDup (f : V → option K) (l : list V) :
  NoDup l → NoDup (mjoin (group_pairs (keyed f l)).*2).
Proof.
  intros Hnd. rewrite group_pairs_join, keyed_values. by apply NoDup_filter.
Qed.

Lemma filter_join_NoDup (P : K * list V → Prop) `{∀ x, Decision (P x)}
    (d : list (K * list V)) :
  NoDup (mjoin d.*2) → NoDup (mjoin (filter P d).*2).
Proof.
  induction d as [|g d IH]; [done|]. simpl.
  intros (Hg & Hgd & Hd)%NoDup_app. rewrite filter_cons.
  case_decide; simpl; [|by apply IH].
  apply NoDup_app. split_and!; [done| |by apply IH].
  intros x Hx Hin. apply (Hgd x Hx).
  apply list_elem_of_join in Hin as (vs & Hxvs & Hvs).
  apply list_elem_of_fmap in Hvs as (g' & -> & Hg').
  apply list_elem_of_filter in Hg' as [_ Hg'].
  apply list_elem_of_join. exists g'.2. split; [done|].
  by apply list_elem_of_fmap_2.
Qed.
End dict_paths.

Section scan_paths.
Context {P : Platform}.

Lemma hashed_files_NoDup (w : world) (walk : list string) (min_size : Z) :
  NoDup walk → NoDup (hashed_files w walk min_size).
Proof.
  intros Hnd. rewrite hashed_files_eq. unfold potential_duplicates.
  apply filter_join_NoDup. rewrite size_pass_group. by apply group_keyed_NoDup.
Qed.

(** The groups of [find_duplicates] are pairwise disjoint and without
    repetition when [os.walk] yields every path once. *)
Lemma find_duplicates_NoDup (w : world) (walk : list string) (min_size : Z) :
  NoDup walk → NoDup (mjoin (find_duplicates w walk min_size).*2).
Proof.
  intros Hnd. unfold find_duplicates. apply filter_join_NoDup.
  rewrite hash_pass_group. simpl. apply group_keyed_NoDup.
  rewrite <-hashed_files_eq. by apply hashed_files_NoDup.
Qed.
End scan_paths.

(** ** The trash loop ends on a free name *)

Lemma append_cons (x : ascii) (a c : string) : String x a +:+ c = String x (a +:+ c).
Proof. reflexivity. Qed.

Lemma append_assoc (a b c : string) : (a +:+ b) +:+ c = a +:+ (b +:+ c).
Proof.
  induction a as [|x a IH]; [done|]. by rewrite !append_cons, IH.
Qed.

Lemma append_nil_r (a : string) : a +:+ "" = a.
Proof.
  induction a as [|x a IH]; [done|]. by rewrite append_cons, IH.
Qed.

Lemma length_append (a b : string) :
  String.length (a +:+ b) = String.length a + String.length b.
Proof.
  induction a as [|x a IH]; [done|]. rewrite append_cons. simpl. by rewrite IH.
Qed.

Lemma append_inv_tail (a b c : string) : a +:+ c = b +:+ c → a = b.
Proof.
  revert b. induction a as [|x a IH]; intros [|y b] Heq; [done| | |].
  - apply (f_equal String.length) in Heq.
    rewrite !length_append in Heq. simpl in Heq. lia.
  - apply (f_equal String.length) in Heq.
    rewrite !length_append in Heq. simpl in Heq. lia.
  - rewrite !append_cons in Heq. injection Heq as -> Heq. f_equal. by apply IH.
Qed.

Section trash_loop_facts.
Context {P : Platform}.
Implicit Types (w : world) (trash_dir timestamp filename : string).

Lemma starts_with_slash_append timestamp (r r' : string) :
  starts_with_slash (timestamp +:+ "_" +:+ r)
  = starts_with_slash (timestamp +:+ "_" +:+ r').
Proof. by destruct timestamp. Qed.

(** All candidates are the same prefix followed by the part that
    carries the counter. *)
Lemma trash_candidate_split trash_dir timestamp filename :
  ∃ pre, ∀ k,
    trash_candidate trash_dir timestamp filename k
    = pre +:+ match k with
              | O => filename
              | S _ => pretty (Z.of_nat k) +:+ "_" +:+ filename
              end.
Proof.
  unfold trash_candidate, os_path_join, trash_name.
  destruct (starts_with_slash (timestamp +:+ "_" +:+ filename)) eqn:Habs.
  - exists (timestamp +:+ "_"). intros [|k].
    + by rewrite Habs, append_assoc.
    + rewrite (starts_with_slash_append _ _ filename), Habs.
      by rewrite append_assoc.
  - destruct (bool_decide (trash_dir = "") || ends_with_slash trash_dir).
    + exists (trash_dir +:+ timestamp +:+ "_"). intros [|k].
      * by rewrite Habs, !append_assoc.
      * rewrite (starts_with_slash_append _ _ filename), Habs.
        by rewrite !append_assoc.
    + exists (trash_dir +:+ "/" +:+ timestamp +:+ "_"). intros [|k].
      * by rewrite Habs, !append_assoc.
      * rewrite (starts_with_slash_append _ _ filename), Habs.
        by rewrite !append_assoc.
Qed.

Lemma trash_candidate_inj trash_dir timestamp filename (i j : nat) :
  trash_candidate trash_dir timestamp filename i
  = trash_candidate trash_dir timestamp filename j → i = j.
Proof.
  destruct (trash_candidate_split trash_dir timestamp filename) as [pre Hpre].
  rewrite !Hpre. intros Heq%(inj (String.app pre)).
  destruct i as [|i], j as [|j]; [done| | |].
  - apply (f_equal String.length) in Heq. rewrite !length_append in Heq.
    simpl in Heq. lia.
  - apply (f_equal String.length) in Heq. rewrite !length_append in Heq.
    simpl in Heq. lia.
  - apply append_inv_tail in Heq. apply (inj pretty) in Heq. lia.
Qed.

(** The loop started on candidate [k] returns a candidate [j] that it
    reached through existing names only, and if [j] exists too the fuel
    was used up. *)
Lemma trash_loop_candidate w trash_dir timestamp filename (fuel k : nat) :
  ∃ j, k ≤ j ≤ k + fuel
       ∧ trash_loop fuel w trash_dir timestamp filename
           (trash_candidate trash_dir timestamp filename k) (Z.of_nat k + 1)
         = trash_candidate trash_dir timestamp filename j
       ∧ (∀ i, k ≤ i < j →
               os_path_exists w (trash_candidate trash_dir timestamp filename i) = true)
       ∧ (os_path_exists w (trash_candidate trash_dir timestamp filename j) = true →
          j = k + fuel).
Proof.
  revert k. induction fuel as [|fuel IH]; intros k.
  - exists k. simpl. split; [lia|].
    destruct (os_path_exists w _); split_and!; try done; intros; lia.
  - cbn [trash_loop].
    destruct (os_path_exists w (trash_candidate trash_dir timestamp filename k))
      eqn:Hex.
    + destruct (IH (S k)) as (j & Hj & Hloop & Hbefore & Hlast).
      exists j. split; [lia|]. split_and!.
      * rewrite <-Hloop. unfold trash_candidate.
        by replace (Z.of_nat (S k)) with (Z.of_nat k + 1)%Z by lia.
      * intros i Hi. destruct (decide (i = k)) as [->|]; [done|]. apply Hbefore. lia.
      * intros Hexj. rewrite (Hlast Hexj). lia.
    + exists k. split; [lia|]. split_and!; [done| |].
      * intros i Hi. lia.
      * intros Hexk. congruence.
Qed.

Lemma os_path_exists_dom w (p : string) :
  os_path_exists w p = true → p ∈ dom (fs w).
Proof.
  unfold os_path_exists, os_stat. intros Hex. apply elem_of_dom.
  destruct (fs w !! p); [eauto|done].
Qed.

(** The name [delete_file] moves the file to does not exist: the loop
    did not stop for lack of rounds. *)
Lemma trash_loop_free w trash_dir timestamp filename :
  os_path_exists w
    (trash_loop (size (fs w)) w trash_dir timestamp filename
       (os_path_join trash_dir (trash_name timestamp None filename)) 1)
  = false.
Proof.
  destruct (trash_loop_candidate w trash_dir timestamp filename (size (fs w)) 0)
    as (j & Hj & Hloop & Hbefore & Hlast).
  change (os_path_join trash_dir (trash_name timestamp None filename))
    with (trash_candidate trash_dir timestamp filename 0).
  change 1%Z with (Z.of_nat 0 + 1)%Z. rewrite Hloop.
  destruct (os_path_exists w (trash_candidate trash_dir timestamp filename j))
    eqn:Hex; [|done].
  specialize (Hlast eq_refl). simpl in Hlast. subst j.
  set (cands := trash_candidate trash_dir timestamp filename
                  <$> seq 0 (S (size (fs w)))).
  assert (NoDup cands) as Hnd.
  { apply NoDup_fmap_2_strong; [|apply NoDup_seq].
    intros i j _ _. apply trash_candidate_inj. }
  assert (list_to_set cands ⊆ dom (fs w)) as Hsub.
  { intros p (i & -> & Hi)%elem_of_list_to_set%list_elem_of_fmap.
    apply elem_of_seq in Hi. apply os_path_exists_dom.
    destruct (decide (i = size (fs w))) as [->|]; [done|]. apply Hbefore. lia. }
  apply subseteq_size in Hsub.
  rewrite size_list_to_set, size_dom in Hsub by done.
  unfold cands in Hsub. rewrite length_fmap, length_seq in Hsub. lia.
Qed.
End trash_loop_facts.

(** ** The deletion engine *)

Section deletion_claims.
Context {P : Platform}.
Implicit Types (w : world) (s : session) (use_trash : bool).

Lemma prompt_loop_d0 line rest use_trash pwm file_size s :
  lower (strip line) = "d 0" →
  prompt_loop (line :: rest) use_trash pwm file_size s
  = prompt_loop rest use_trash pwm file_size (say s CannotDeleteOriginal).
Proof. intros Hc. simpl. rewrite Hc. reflexivity. Qed.

Lemma d_command_zero use_trash pwm file_size s choice token :
  split choice !! 1%nat = Some token → py_int token = Some 0%Z →
  d_command use_trash pwm file_size s choice = say s CannotDeleteOriginal.
Proof. intros Htok Hint. unfold d_command. by rewrite Htok, Hint. Qed.

Lemma run_deletion_apart w a mode (d : list (string * list string)) inputs s :
  NoDup (mjoin d.*2) → run_deletion w a mode d inputs = Ok s → apart s.
Proof.
  intros Hnd. unfold run_deletion.
  destruct (new_session_apart w) as [Hap Hseen].
  destruct mode; cbn.
  - pose proof (interactive_delete_apart w d inputs Hnd) as Hint.
    destruct (interactive_delete w d inputs) as [[| |e] s']; intros [= <-]; done.
  - intros [= <-]. apply (auto_delete_fold_apart _ _ _ _ []); [done..|].
    by intros x _ ?%elem_of_nil.
  - intros [= <-]. apply (auto_delete_fold_apart _ _ _ _ []); [done..|].
    by intros x _ ?%elem_of_nil.
  - intros [= <-]. apply (auto_delete_fold_apart _ _ _ _ []); [done..|].
    by intros x _ ?%elem_of_nil.
Qed.

Lemma main_apart w a (walk : list string) inputs o s :
  NoDup walk → main w a (Some walk) inputs = Ok o → deletion o = Some s → apart s.
Proof.
  intros Hnd. unfold main.
  destruct (write_results _ _ _) as [[text r]|e]; [|done]. cbn.
  destruct (delete a) as [mode|]; [|by intros [= <-]].
  destruct (find_duplicates w walk (min_size a)) as [|g d] eqn:Hd; [by intros [= <-]|].
  destruct (dry_run a); [by intros [= <-]|].
  destruct (input inputs) as [[confirm inputs']|e]; [|done]. cbn.
  match goal with |- context [if ?c then _ else _] => destruct c end;
    [|by intros [= <-]].
  destruct (run_deletion w a mode (g :: d) inputs') as [s'|e] eqn:Hrun; [|done].
  cbn. intros [= <-] [= <-]. eapply run_deletion_apart; [|done].
  rewrite <-Hd. by apply find_duplicates_NoDup.
Qed.

(** C1. A file announced as kept is never handed to [delete_file].  In
    auto mode, when the groups share no path, no kept file of the run
    is among the files the run tried to delete, and the work on a
    group hands exactly the entries after the kept one to
    [delete_file].  In interactive mode the same holds for every input
    typed, and a line that reads [d 0], or any [d] command whose number
    is 0, is answered by the refusal and changes nothing else.  A run
    of [main] over a walk that yields every path once never hands a kept
    file to [delete_file]. *)
Theorem keep_never_deleted :
  (∀ w (d : list (string * list string)) keep_strategy use_trash,
      NoDup (mjoin d.*2) →
      ∀ k, k ∈ kept_paths (printed (auto_delete w d keep_strategy use_trash)) →
           k ∉ attempted_paths (printed (auto_delete w d keep_strategy use_trash)))
  ∧ (∀ keep_strategy use_trash s (g : string * list string) keep others,
      paths_with_info keep_strategy (sw s) g.2 = keep :: others →
      kept_paths (printed (auto_delete_group keep_strategy use_trash s g))
        = kept_paths (printed s) ++ [info_path keep]
      ∧ attempted_paths (printed (auto_delete_group keep_strategy use_trash s g))
        = attempted_paths (printed s) ++ (info_path <$> others))
  ∧ (∀ w (d : list (string * list string)) inputs,
      NoDup (mjoin d.*2) →
      ∀ k, k ∈ kept_paths (printed (interactive_delete w d inputs).2) →
           k ∉ attempted_paths (printed (interactive_delete w d inputs).2))
  ∧ (∀ line rest use_trash pwm file_size s,
      lower (strip line) = "d 0" →
      prompt_loop (line :: rest) use_trash pwm file_size s
      = prompt_loop rest use_trash pwm file_size (say s CannotDeleteOriginal))
  ∧ (∀ use_trash pwm file_size s choice token,
      split choice !! 1%nat = Some token → py_int token = Some 0%Z →
      d_command use_trash pwm file_size s choice = say s CannotDeleteOriginal)
  ∧ (∀ w a (walk : list string) inputs o s,
      NoDup walk → main w a (Some walk) inputs = Ok o → deletion o = Some s →
      ∀ k, k ∈ kept_paths (printed s) → k ∉ attempted_paths (printed s)).
Proof.
  split_and!.
  - intros w d keep_strategy use_trash Hnd.
    destruct (new_session_apart w) as [Hap Hseen].
    apply (auto_delete_fold_apart _ _ _ _ []); [done..|].
    by intros x _ ?%elem_of_nil.
  - intros. by apply auto_delete_group_cons.
  - intros w d inputs Hnd. by apply interactive_delete_apart.
  - intros. by apply prompt_loop_d0.
  - intros. by eapply d_command_zero.
  - intros w a walk inputs o s Hnd Hmain Hdel. by eapply main_apart.
Qed.

Lemma trash_path_free w filepath : os_path_exists w (trash_path w filepath) = false.
Proof. apply trash_loop_free. Qed.

Lemma os_path_exists_visible w p f : visible w p f → os_path_exists w p = true.
Proof. intros [Hp Hst]. unfold os_path_exists, os_stat. by rewrite Hp, Hst. Qed.

Lemma trash_path_not_visible w filepath q f :
  visible w q f → q ≠ trash_path w filepath.
Proof.
  intros Hvis ->. pose proof (trash_path_free w filepath) as Hfree.
  by rewrite (os_path_exists_visible _ _ f) in Hfree.
Qed.

(** [shutil.move] to a name that does not exist: a file whose entry may
    be removed is renamed; otherwise the move fails, and if the file
    could be read a copy of it stays under the new name. *)
Lemma shutil_move_cases w src dst :
  os_path_exists w dst = false →
  shutil_move w src dst =
  match fs w !! src with
  | None => (Raise (FileNotFoundError src), w)
  | Some f =>
      if rm_ok f then (Ok (), with_fs w (<[dst := f]> (base.delete src (fs w))))
      else (Raise (PermissionError src),
            if rd_ok f then with_fs w (<[dst := stray_copy w f]> (fs w)) else w)
  end.
Proof.
  intros Hfree. unfold shutil_move, os_rename, shutil_copy2.
  destruct (fs w !! src) as [f|] eqn:Hsrc; [|done].
  destruct (rm_ok f) eqn:Hrm; [done|].
  destruct (rd_ok f) eqn:Hrd; [|done].
  unfold stray_copy. destruct (st_ok f) eqn:Hst; [|done].
  assert (dst ≠ src) as Hne.
  { intros ->. unfold os_path_exists, os_stat in Hfree.
    by rewrite Hsrc, Hst in Hfree. }
  unfold os_remove. simpl. rewrite lookup_insert_ne by done.
  by rewrite Hsrc, Hrm.
Qed.

(** [delete_file] case by case. *)
Lemma delete_file_cases w filepath use_trash :
  delete_file w filepath use_trash =
  if use_trash && negb (mkdir_ok w)
  then (false,
        "Error: " +:+ str_exn (PermissionError (os_path_join home ".duplicate_trash")),
        w)
  else
    match fs w !! filepath with
    | None => (false, "Error: " +:+ str_exn (FileNotFoundError filepath), w)
    | Some f =>
        if rm_ok f then
          if use_trash
          then (true, "Moved to trash: " +:+ trash_path w filepath,
                with_fs w (<[trash_path w filepath := f]> (base.delete filepath (fs w))))
          else (true, "Permanently deleted",
                with_fs w (base.delete filepath (fs w)))
        else (false, "Error: " +:+ str_exn (PermissionError filepath),
              if use_trash && rd_ok f
              then with_fs w (<[trash_path w filepath := stray_copy w f]> (fs w))
              else w)
    end.
Proof.
  unfold delete_file, delete_file_try, os_makedirs. destruct use_trash; simpl.
  - destruct (mkdir_ok w); simpl; [|done].
    fold (trash_path w filepath).
    rewrite shutil_move_cases by apply trash_path_free.
    destruct (fs w !! filepath) as [f|]; [|done]. by destruct (rm_ok f).
  - unfold os_remove. destruct (fs w !! filepath) as [f|]; [|done].
    by destruct (rm_ok f).
Qed.




Lemma stat_info_None w p :
  stat_info w p = None ↔
  (∃ e, getmtime w p = Raise e) ∨ (∃ e, getsize w p = Raise e).
Proof.
  unfold stat_info. destruct (getmtime w p) as [m|e]; [|naive_solver].
  destruct (getsize w p) as [sz|e]; naive_solver.
Qed.

(** C9. In [auto_delete] a member whose modification time or size
    cannot be read is left out of the list the decision is made on,
    the members that can be read are all in it, and when at most one
    member can be read the work on the group calls [delete_file] on
    nothing: files, counters and attempted deletions are unchanged. *)
Theorem unreadable_members_excluded keep_strategy use_trash s
    (g : string * list string) :
  (∀ p, (∃ e, getmtime (sw s) p = Raise e) ∨ (∃ e, getsize (sw s) p = Raise e) →
        p ∉ info_path <$> paths_with_info keep_strategy (sw s) g.2)
  ∧ (∀ p, p ∈ g.2 → is_Some (stat_info (sw s) p) →
          p ∈ info_path <$> paths_with_info keep_strategy (sw s) g.2)
  ∧ (length (filter (λ p, is_Some (stat_info (sw s) p)) g.2) ≤ 1 →
       sw (auto_delete_group keep_strategy use_trash s g) = sw s
       ∧ attempted_paths (printed (auto_delete_group keep_strategy use_trash s g))
         = attempted_paths (printed s)
       ∧ files_deleted (auto_delete_group keep_strategy use_trash s g)
         = files_deleted s
       ∧ space_freed (auto_delete_group keep_strategy use_trash s g)
         = space_freed s).
Proof.
  split_and!.
  - intros p Hp%stat_info_None.
    rewrite paths_with_info_paths, list_elem_of_filter, Hp.
    by intros [[? ?] _].
  - intros p Hp Hsome. rewrite paths_with_info_paths. by apply list_elem_of_filter.
  - intros Hlen.
    rewrite <-(paths_with_info_paths keep_strategy), length_fmap in Hlen.
    unfold auto_delete_group.
    destruct (paths_with_info keep_strategy (sw s) g.2) as [|keep [|x others]];
      simpl in *; [done| |lia].
    rewrite attempted_paths_app. simpl. by rewrite app_nil_r.
Qed.
End deletion_claims.

(** ** The keep strategies *)

Section strategy_claims.
Context {P : Platform}.

Lemma apply_strategy_sort keep_strategy key l :
  strategy_key keep_strategy = Some key →
  apply_strategy keep_strategy l = sort_by key l.
Proof.
  unfold strategy_key, apply_strategy.
  repeat case_bool_decide; intros [= <-]; done.
Qed.

Lemma apply_strategy_other keep_strategy l :
  strategy_key keep_strategy = None → apply_strategy keep_strategy l = l.
Proof.
  unfold strategy_key, apply_strategy. by repeat case_bool_decide.
Qed.

(** C5, as the program has it. Under each of the three strategies the
    list the decision is made on is the stable sort of the readable
    members by the key of the strategy: it holds the same entries, the
    keys ascend, entries of one key stay in the order in which the group
    listed them, and the kept file is the first member, in the order of
    the group, among those of least key. *)
Theorem strategy_is_stable_sort keep_strategy key (w : world) (paths : list string) :
  strategy_key keep_strategy = Some key →
  paths_with_info keep_strategy w paths ≡ₚ omap (stat_info w) paths
  ∧ StronglySorted (key_le key) (paths_with_info keep_strategy w paths)
  ∧ (∀ k, filter (λ x, key x = k) (paths_with_info keep_strategy w paths)
          = filter (λ x, key x = k) (omap (stat_info w) paths))
  ∧ (∀ keep, head (paths_with_info keep_strategy w paths) = Some keep →
       ∃ l1 l2, omap (stat_info w) paths = l1 ++ keep :: l2
                ∧ Forall (λ x, (key keep < key x)%Z) l1
                ∧ Forall (λ x, (key keep ≤ key x)%Z) l2).
Proof.
  intros Hkey. unfold paths_with_info.
  rewrite (apply_strategy_sort _ key) by done. split_and!.
  - apply sort_by_perm.
  - apply sort_by_sorted.
  - intros k. apply sort_by_stable.
  - intros keep. rewrite sort_by_head. apply first_min_spec.
Qed.
End strategy_claims.

(** C5, as stated, fails: two members with one modification time and
    paths of one length are kept in the order of the group under every
    strategy, here ["/d/b"] before ["/d/a"]. *)
Lemma ties_not_broken_by_path :
  ¬ ties_by_name info_mtime info_path
      (paths_with_info "oldest" Demo.tie Demo.tie_walk)
  ∧ ¬ ties_by_name (λ x, - info_mtime x)%Z info_path
      (paths_with_info "newest" Demo.tie Demo.tie_walk)
  ∧ ¬ ties_by_name info_len info_path
      (paths_with_info "shortest_path" Demo.tie Demo.tie_walk).
Proof.
  split_and!; intros Hc;
    specialize (Hc 0%nat 1%nat _ _ eq_refl eq_refl ltac:(lia) eq_refl);
    vm_compute in Hc; discriminate.
Qed.

(** C2: what the program does on [--delete auto-shortest].  [main] hands
    [auto_delete] the strategy ["shortest"], which is none of the three
    strings [auto_delete] tests for, so the list is not sorted: with the
    longer path found first, the longer path is kept and the shorter
    one is deleted. *)
Theorem auto_shortest_keeps_first :
  str_replace "auto-" "" (delete_mode_str AutoShortest) = "shortest"
  ∧ strategy_key "shortest" = None
  ∧ (∀ l, apply_strategy "shortest" l = l)
  ∧ (printed <$>
       (match main (P := Demo.platform) Demo.long_short Demo.auto_shortest_args
                (Some Demo.long_short_walk) ["y"] with
        | Ok o => deletion o
        | Raise _ => None
        end))
    = Some [Keeping "/d/longer_name.txt"; Deleted "/d/a.txt"].
Proof.
  split_and!; [reflexivity..| |vm_compute; reflexivity].
  intros l. by apply apply_strategy_other.
Qed.

(** ** The report *)

Lemma sum_Z_perm (l1 l2 : list Z) : l1 ≡ₚ l2 → sum_Z l1 = sum_Z l2.
Proof. unfold sum_Z. induction 1; simpl; lia. Qed.


Section report_facts.
Context {P : Platform}.
Implicit Types (w : world) (d : list (string * list string)).

Lemma report_step_ok w text group_num total_wasted file_hash (paths : list string)
    orig rest :
  paths_with_mtime w paths = orig :: rest →
  report_step w (text, group_num, total_wasted) (file_hash, paths)
  = Ok (text +:+ group_block group_num file_hash orig rest,
        (group_num + 1)%Z,
        (total_wasted + orig.2 * (Z.of_nat (length paths) - 1))%Z).
Proof. intros Hpwm. unfold report_step. rewrite Hpwm. reflexivity. Qed.

(** The loop appends the blocks of the groups in the order it is given
    them. *)
Lemma report_loop_ok w groups text group_num total_wasted :
  (∀ g, g ∈ groups → g.2 ≠ []) →
  report_loop w (text, group_num, total_wasted) groups
  = Ok (text +:+ render_groups w group_num groups,
        (group_num + Z.of_nat (length groups))%Z,
        (total_wasted + wasted_total w groups)%Z).
Proof.
  revert text group_num total_wasted.
  induction groups as [|[file_hash paths] groups IH];
    intros text group_num total_wasted Hne.
  - simpl. rewrite append_nil_r. unfold wasted_total. simpl.
    f_equal. f_equal; [f_equal|]; lia.
  - destruct (paths_with_mtime w paths) as [|orig rest] eqn:Hpwm.
    { apply (f_equal length) in Hpwm. rewrite paths_with_mtime_length in Hpwm.
      destruct (Hne (file_hash, paths)); [left|]. by destruct paths. }
    cbn [report_loop]. rewrite (report_step_ok _ _ _ _ _ _ orig rest) by done.
    cbn [mbind result_bind]. rewrite IH.
    2:{ intros g Hg. apply Hne. by right. }
    cbn [render_groups]. rewrite Hpwm, append_assoc.
    unfold wasted_total. cbn [fmap list_fmap sum_Z foldr snd]. rewrite Hpwm.
    f_equal. f_equal; [f_equal; cbn [length]; lia|unfold sum_Z; lia].
Qed.

(** The text of a report with at least one group. *)
Lemma write_results_ok w d directory :
  d ≠ [] → (∀ g, g ∈ d → g.2 ≠ []) →
  write_results w d directory
  = Ok (report_header w directory +:+ found_line d +:+
          render_groups w 1 (by_count_desc d) +:+
          summary d (wasted_total w (by_count_desc d)),
        (Z.of_nat (length d), wasted_total w (by_count_desc d))).
Proof.
  intros Hd Hne. unfold write_results. destruct d as [|g d']; [done|].
  rewrite report_loop_ok.
  2:{ intros g' Hg'. apply Hne. unfold by_count_desc in Hg'.
      by apply sort_by_elem in Hg'. }
  cbn [mbind result_bind mret result_ret]. unfold found_line, summary.
  rewrite !append_assoc, Z.add_0_l. reflexivity.
Qed.
End report_facts.

(** Stable sorts and the classes of equal key: two inputs are sorted to
    corresponding lists exactly when, key by key, their elements of that
    key correspond in input order. *)
Section sort_by_classes.
Context {A B : Type} (key1 : A → Z) (key2 : B → Z) (R : A → B → Prop).
Hypothesis R_key : ∀ x y, R x y → key1 x = key2 y.

Lemma Forall2_filter_key k l l' :
  Forall2 R l l' →
  Forall2 R (filter (λ x, key1 x = k) l) (filter (λ y, key2 y = k) l').
Proof.
  induction 1 as [|x y l l' Hxy Hl IH]; [constructor|].
  rewrite !filter_cons. pose proof (R_key x y Hxy).
  repeat case_decide; try congruence; try done. by constructor.
Qed.

Lemma sorted_head_least_l x l y l' :
  Forall (key_le key1 x) l →
  Forall2 R (filter (λ a, key1 a = key2 y) (x :: l))
            (filter (λ b, key2 b = key2 y) (y :: l')) →
  (key1 x ≤ key2 y)%Z.
Proof.
  intros Hx Hcl. rewrite (filter_cons_True _ y) in Hcl by done.
  apply Forall2_cons_inv_r in Hcl as (x' & t & _ & _ & Heq).
  assert (x' ∈ filter (λ a, key1 a = key2 y) (x :: l)) as Hin
    by (rewrite Heq; left).
  apply list_elem_of_filter in Hin as [Hk Hin].
  apply elem_of_cons in Hin as [->|Hin]; [lia|].
  rewrite Forall_forall in Hx. specialize (Hx x' Hin). unfold key_le in Hx. lia.
Qed.

Lemma sorted_head_least_r x l y l' :
  Forall (key_le key2 y) l' →
  Forall2 R (filter (λ a, key1 a = key1 x) (x :: l))
            (filter (λ b, key2 b = key1 x) (y :: l')) →
  (key2 y ≤ key1 x)%Z.
Proof.
  intros Hy Hcl. rewrite (filter_cons_True _ x) in Hcl by done.
  apply Forall2_cons_inv_l in Hcl as (y' & t & _ & _ & Heq).
  assert (y' ∈ filter (λ b, key2 b = key1 x) (y :: l')) as Hin
    by (rewrite Heq; left).
  apply list_elem_of_filter in Hin as [Hk Hin].
  apply elem_of_cons in Hin as [->|Hin]; [lia|].
  rewrite Forall_forall in Hy. specialize (Hy y' Hin). unfold key_le in Hy. lia.
Qed.

Lemma sorted_classes_Forall2 l l' :
  StronglySorted (key_le key1) l → StronglySorted (key_le key2) l' →
  (∀ k, Forall2 R (filter (λ x, key1 x = k) l) (filter (λ y, key2 y = k) l')) →
  Forall2 R l l'.
Proof.
  intros Hl. revert l'. induction Hl as [|x l Hl IH Hx]; intros l' Hl' Hcl.
  - destruct l' as [|y l']; [constructor|].
    specialize (Hcl (key2 y)).
    rewrite filter_nil, filter_cons_True in Hcl by done. inversion Hcl.
  - destruct Hl' as [|y l' Hl' Hy].
    { specialize (Hcl (key1 x)).
      rewrite filter_nil, filter_cons_True in Hcl by done. inversion Hcl. }
    assert (key1 x = key2 y) as Hk.
    { apply Z.le_antisymm.
      - by apply (sorted_head_least_l x l y l').
      - by apply (sorted_head_least_r x l y l'). }
    pose proof (Hcl (key1 x)) as H0.
    rewrite (filter_cons_True _ x), (filter_cons_True _ y) in H0 by done.
    apply Forall2_cons in H0 as [Hxy H0]. constructor; [done|].
    apply IH; [done|]. intros k. specialize (Hcl k).
    rewrite !filter_cons in Hcl.
    destruct (decide (key1 x = k)), (decide (key2 y = k)); try congruence.
    by apply Forall2_cons in Hcl as [_ ?].
Qed.

Lemma sort_by_classes l l' :
  (∀ k, Forall2 R (filter (λ x, key1 x = k) l) (filter (λ y, key2 y = k) l'))
  ↔ Forall2 R (sort_by key1 l) (sort_by key2 l').
Proof.
  split.
  - intros Hcl. apply sorted_classes_Forall2; [apply sort_by_sorted..|].
    intros k. rewrite !sort_by_stable. apply Hcl.
  - intros Hs k.
    rewrite <-(sort_by_stable key1 k l), <-(sort_by_stable key2 k l').
    by apply Forall2_filter_key.
Qed.
End sort_by_classes.

Lemma insert_by_fmap {A B} (f : A → B) (key : B → Z) x l :
  insert_by key (f x) (f <$> l) = f <$> insert_by (λ a, key (f a)) x l.
Proof.
  induction l as [|y l IH]; [done|].
  rewrite fmap_cons. cbn [insert_by].
  destruct (key (f x) <=? key (f y))%Z; [done|]. by rewrite fmap_cons, IH.
Qed.

Lemma sort_by_fmap {A B} (f : A → B) (key : B → Z) l :
  sort_by key (f <$> l) = f <$> sort_by (λ a, key (f a)) l.
Proof.
  induction l as [|x l IH]; [done|].
  rewrite fmap_cons. unfold sort_by in *. cbn [foldr]. rewrite IH.
  apply insert_by_fmap.
Qed.

Section report_permutation.
Context {P : Platform}.
Implicit Types (w : world) (d : list (string * list string)).

Lemma stat_or_zero_inj w : Inj (=) (=) (stat_or_zero w).
Proof.
  intros p q Heq. by rewrite <-(stat_or_zero_path w p), Heq, stat_or_zero_path.
Qed.

(** Two lists of members give the same sorted entries exactly when, for
    every time shown, their members of that time come in the same
    order. *)
Lemma paths_with_mtime_classes w (paths paths' : list string) :
  (∀ t, shown_at w t paths = shown_at w t paths')
  ↔ paths_with_mtime w paths = paths_with_mtime w paths'.
Proof.
  unfold paths_with_mtime, shown_at. rewrite !sort_by_fmap.
  pose proof (stat_or_zero_inj w) as Hinj.
  rewrite (inj_iff (fmap (stat_or_zero w))), list_eq_Forall2.
  rewrite <-(sort_by_classes (λ p, (stat_or_zero w p).1.2)
               (λ p, (stat_or_zero w p).1.2) eq) by (by intros ?? ->).
  split; intros H t; specialize (H t); by apply list_eq_Forall2.
Qed.

Lemma with_count_key (k : Z) d :
  filter (λ g, (- Z.of_nat (length g.2))%Z = k) d
  = if decide (k ≤ 0)%Z then with_count (Z.to_nat (- k)) d else [].
Proof.
  unfold with_count. induction d as [|g d IH].
  - by destruct (decide (k ≤ 0)%Z).
  - rewrite filter_cons, IH. destruct (decide (k ≤ 0)%Z).
    + rewrite filter_cons. repeat case_decide; try done; lia.
    + case_decide; [lia|done].
Qed.

Lemma with_count_as_key (n : nat) d :
  with_count n d = filter (λ g, (- Z.of_nat (length g.2))%Z = (- Z.of_nat n)%Z) d.
Proof.
  rewrite with_count_key. rewrite decide_True by lia. f_equal. lia.
Qed.

(** The condition of C4 says that the program renders the same sequence
    of groups: the sorted inputs correspond entry by entry, with the
    same digest and the same sorted entries. *)
Lemma same_report_order_sorted w d1 d2 :
  same_report_order w d1 d2
  ↔ Forall2 (λ g g', g.1 = g'.1 ∧ paths_with_mtime w g.2 = paths_with_mtime w g'.2)
      (by_count_desc d1) (by_count_desc d2).
Proof.
  unfold by_count_desc. rewrite <-sort_by_classes.
  2:{ intros g g' [_ Hpwm]. apply (f_equal length) in Hpwm.
      rewrite !paths_with_mtime_length in Hpwm. by rewrite Hpwm. }
  assert (∀ l l',
    Forall2 (same_members w) l l'
    ↔ Forall2 (λ g g', g.1 = g'.1
                       ∧ paths_with_mtime w g.2 = paths_with_mtime w g'.2) l l')
    as Hrel.
  { intros l l'. split; intros H; eapply Forall2_impl; try exact H;
      intros g g' [Hh Hm]; (split; [done|]); by apply paths_with_mtime_classes. }
  split.
  - intros Hsame k. rewrite !with_count_key.
    destruct (decide (k ≤ 0)%Z); [|constructor]. apply Hrel, Hsame.
  - intros Hcl n. rewrite !with_count_as_key. apply Hrel, Hcl.
Qed.

Lemma report_loop_same w st (gs gs' : list (string * list string)) :
  Forall2 (λ g g', g.1 = g'.1 ∧ paths_with_mtime w g.2 = paths_with_mtime w g'.2)
    gs gs' →
  report_loop w st gs = report_loop w st gs'.
Proof.
  intros Hgs. revert st.
  induction Hgs as [|[h paths] [h' paths'] gs gs' [Hh Hpwm] Hgs IH]; intros st; [done|].
  simpl in Hh, Hpwm. subst h'.
  assert (length paths = length paths') as Hlen.
  { apply (f_equal length) in Hpwm. by rewrite !paths_with_mtime_length in Hpwm. }
  simpl. destruct st as [[text n] tw]. unfold report_step. rewrite Hpwm, Hlen.
  destruct (first (paths_with_mtime w paths')) as [orig|e]; simpl; [|done].
  apply IH.
Qed.

Lemma same_sorted_counts w d1 d2 :
  Forall2 (λ g g', g.1 = g'.1 ∧ paths_with_mtime w g.2 = paths_with_mtime w g'.2)
    (by_count_desc d1) (by_count_desc d2) →
  length d1 = length d2
  ∧ sum_Z ((λ g, Z.of_nat (length g.2) - 1)%Z <$> d1)
    = sum_Z ((λ g, Z.of_nat (length g.2) - 1)%Z <$> d2).
Proof.
  intros Hs. split.
  - apply Forall2_length in Hs. unfold by_count_desc in Hs.
    by rewrite !sort_by_length in Hs.
  - rewrite (sum_Z_perm _ ((λ g, Z.of_nat (length g.2) - 1)%Z <$> by_count_desc d1))
      by (unfold by_count_desc; by rewrite sort_by_perm).
    rewrite (sum_Z_perm ((λ g, Z.of_nat (length g.2) - 1)%Z <$> d2)
               ((λ g, Z.of_nat (length g.2) - 1)%Z <$> by_count_desc d2))
      by (unfold by_count_desc; by rewrite sort_by_perm).
    f_equal. induction Hs as [|g g' l l' [_ Hpwm] _ IH]; [done|].
    rewrite !fmap_cons, IH. apply (f_equal length) in Hpwm.
    rewrite !paths_with_mtime_length in Hpwm. by rewrite Hpwm.
Qed.

Lemma write_results_cons w d directory :
  d ≠ [] →
  write_results w d directory =
  match report_loop w (report_header w directory +:+ found_line d, 1%Z, 0%Z)
          (by_count_desc d) with
  | Ok (text, _, total_wasted) =>
      Ok (text +:+ summary d total_wasted, (Z.of_nat (length d), total_wasted))
  | Raise e => Raise e
  end.
Proof.
  intros Hd. unfold write_results. destruct d as [|g d']; [done|].
  fold (found_line (g :: d')).
  destruct (report_loop _ _ _) as [[[text n] tw]|e]; reflexivity.
Qed.

(** C4, as the program has it.  Rendered in one world (the same files
    and the same reading of the clock), two inputs give the same report,
    byte for byte, when they differ at most in the order of groups that
    have different numbers of members and, inside a group, in the order
    of members that show different times: groups of one size have to
    follow each other in the same order in both inputs, and so have the
    members of a group that show one time.  That condition says
    exactly that the two sorts of the program arrive at the same
    sequence of groups and entries. *)
Theorem report_order_independent w d1 d2 directory :
  (same_report_order w d1 d2 →
   write_results w d1 directory = write_results w d2 directory)
  ∧ (same_report_order w d1 d2
     ↔ Forall2 (λ g g', g.1 = g'.1
                        ∧ paths_with_mtime w g.2 = paths_with_mtime w g'.2)
         (by_count_desc d1) (by_count_desc d2)).
Proof.
  split; [|apply same_report_order_sorted].
  intros Hs%same_report_order_sorted.
  destruct (same_sorted_counts w d1 d2 Hs) as [Hlen Hsum].
  destruct d1 as [|g1 d1], d2 as [|g2 d2]; [done..|].
  rewrite !write_results_cons by done.
  assert (found_line (g1 :: d1) = found_line (g2 :: d2)) as ->.
  { unfold found_line. by rewrite Hlen, Hsum. }
  rewrite (report_loop_same w _ _ _ Hs).
  destruct (report_loop _ _ _) as [[[text n] tw]|e]; [|done].
  unfold summary. by rewrite Hlen, Hsum.
Qed.
End report_permutation.

(** C4, as stated, fails.  The two walks of [Demo.four] give the same
    groups in two orders, the groups tie on the number of members, and
    the two reports differ; and one input rendered at two readings of
    the clock gives two texts. *)
Lemma report_depends_on_input_order :
  let d1 := find_duplicates (P := Demo.platform) Demo.four Demo.four_walk 0 in
  let d2 := find_duplicates (P := Demo.platform) Demo.four Demo.four_walk' 0 in
  same_groups d1 d2
  ∧ write_results (P := Demo.platform) Demo.four d1 "/d"
    ≠ write_results (P := Demo.platform) Demo.four d2 "/d"
  ∧ write_results (P := Demo.platform) Demo.four d1 "/d"
    ≠ write_results (P := Demo.platform) Demo.four_later d1 "/d".
Proof.
  split_and!.
  - exists (find_duplicates (P := Demo.platform) Demo.four Demo.four_walk' 0).
    split; [vm_compute; apply Permutation_swap|].
    vm_compute. by repeat constructor.
  - intros Heq. vm_compute in Heq. discriminate.
  - intros Heq. vm_compute in Heq. discriminate.
Qed.


Section report_claims.
Context {P : Platform}.
Implicit Types (w : world) (d : list (string * list string)).

End report_claims.


(** ** Members whose metadata cannot be read, in the report *)



Section unreadable_in_report.
Context {P : Platform}.
Implicit Types (w : world).


End unreadable_in_report.


(** ** The theorems at concrete inputs *)

Ltac by_compute :=
  lazymatch goal with
  | |- ?G => apply (bool_decide_unpack G); vm_compute; exact I
  end.

(** The scenario of the specification: one group, [a.txt] and [b.txt];
    [oldest] keeps [a.txt]; one group, one duplicate, one byte. *)
Example scenario_abc :
  find_duplicates (P := Demo.platform) Demo.abc Demo.abc_walk 0
    = [("md5:X", ["/d/a.txt"; "/d/b.txt"])]
  ∧ printed (auto_delete (P := Demo.platform) Demo.abc
               [("md5:X", ["/d/a.txt"; "/d/b.txt"])] "oldest" true)
    = [Keeping "/d/a.txt"; Deleted "/d/b.txt"]
  ∧ snd <$> (match write_results (P := Demo.platform) Demo.abc
                     [("md5:X", ["/d/a.txt"; "/d/b.txt"])] "/d" with
             | Ok r => Some r
             | Raise _ => None
             end) = Some (1%Z, 1%Z).
Proof. split_and!; vm_compute; reflexivity. Qed.

(** Called with the strategy name it tests for, [auto_delete] does keep
    the shortest path. *)
(** A batch with a failure in the middle: the second copy is in a
    directory that cannot be written to, so the move to the trash is
    refused after [shutil.move] has copied the file; the failure is
    printed, the third copy is deleted all the same, one deletion is
    counted, and the world holds the stray copy beside the three files
    it held. *)
Example batch_continues_after_failure :
  let s := auto_delete_group (P := Demo.platform) "oldest" true
             (new_session Demo.guarded) Demo.guarded_group in
  printed s
  = [Keeping "/d/a";
     Failed "/r/b" "Error: [Errno 13] Permission denied: '/r/b'";
     Deleted "/d/c"]
  ∧ files_deleted s = 1%Z
  ∧ fs (sw s) !! "/r/b" = Some (Demo.locked "X" 20)
  ∧ fs (sw s) !! "/home/u/.duplicate_trash/t1000_b" = Some (Demo.plain "X" 20)
  ∧ fs (sw s) !! "/home/u/.duplicate_trash/t1000_c" = Some (Demo.plain "X" 30)
  ∧ fs (sw s) !! "/d/c" = None
  ∧ size (fs (sw s)) = 4.
Proof. split_and!; vm_compute; reflexivity. Qed.

Example shortest_path_direct :
  printed (auto_delete (P := Demo.platform) Demo.long_short
             [("md5:X", Demo.long_short_walk)] "shortest_path" true)
  = [Keeping "/d/a.txt"; Deleted "/d/longer_name.txt"].
Proof. vm_compute. reflexivity. Qed.

(** An interactive session on the scenario: trash mode, then [d 0],
    [d 1] twice, an index out of range, an unknown command, and [q]. *)
Example interactive_session :
  let r := interactive_delete (P := Demo.platform) Demo.abc
             [("md5:X", ["/d/a.txt"; "/d/b.txt"])]
             ["trash"; "d 0"; "d 1"; "D 1 "; "d 5"; "x"; "q"] in
  r.1 = Return
  ∧ printed r.2
    = [Keeping "/d/a.txt"; CannotDeleteOriginal; Deleted "/d/b.txt";
       Failed "/d/b.txt" "Error: [Errno 2] No such file or directory: '/d/b.txt'";
       InvalidIndex 5; InvalidCommand]
  ∧ files_deleted r.2 = 1%Z ∧ space_freed r.2 = 1%Z.
Proof. split_and!; vm_compute; reflexivity. Qed.

Lemma find_duplicates_groups_witness :
  ∃ paths,
    ("md5:X", paths) ∈ find_duplicates (P := Demo.platform) Demo.abc Demo.abc_walk 0
    ∧ "/d/a.txt" ∈ paths ∧ "/d/b.txt" ∈ paths.
Proof.
  destruct (find_duplicates_groups (P := Demo.platform) Demo.abc Demo.abc_walk 0)
    as [Hsame _].
  apply (Hsame "/d/a.txt" "/d/b.txt" (Demo.plain "X" 100) (Demo.plain "X" 200));
    try reflexivity; by_compute.
Defined.

Lemma hashed_only_if_shared_size_witness :
  ∃ size, getsize Demo.abc "/d/a.txt" = Ok size ∧ (0 ≤ size)%Z
          ∧ ∃ q, q ∈ Demo.abc_walk ∧ q ≠ "/d/a.txt" ∧ getsize Demo.abc q = Ok size.
Proof.
  destruct (hashed_only_if_shared_size (P := Demo.platform) Demo.abc Demo.abc_walk 0)
    as [Hhashed _]; [by_compute|].
  apply Hhashed. by_compute.
Defined.

Lemma keep_never_deleted_witness :
  "/d/a.txt" ∉ attempted_paths
    (printed (auto_delete (P := Demo.platform) Demo.abc
                (find_duplicates (P := Demo.platform) Demo.abc Demo.abc_walk 0)
                "oldest" true)).
Proof.
  destruct (keep_never_deleted (P := Demo.platform)) as [Hauto _].
  apply Hauto; by_compute.
Defined.


Lemma unreadable_members_excluded_witness :
  sw (auto_delete_group (P := Demo.platform) "oldest" true
        (new_session Demo.half) Demo.half_group)
  = Demo.half.
Proof.
  destruct (unreadable_members_excluded (P := Demo.platform) "oldest" true
              (new_session Demo.half) Demo.half_group) as (_ & _ & Hnone).
  apply Hnone. vm_compute. lia.
Defined.

Lemma strategy_is_stable_sort_witness :
  StronglySorted (key_le info_mtime)
    (paths_with_info "oldest" Demo.abc Demo.abc_walk).
Proof.
  destruct (strategy_is_stable_sort "oldest" info_mtime Demo.abc Demo.abc_walk)
    as (_ & Hsorted & _); [reflexivity|].
  exact Hsorted.
Defined.

Lemma report_order_independent_witness :
  write_results (P := Demo.platform) Demo.seven Demo.seven_groups "/d"
  = write_results (P := Demo.platform) Demo.seven Demo.seven_groups' "/d".
Proof.
  destruct (report_order_independent (P := Demo.platform) Demo.seven
              Demo.seven_groups Demo.seven_groups' "/d") as [Hsame Hiff].
  apply Hsame, Hiff. by_compute.
Defined.



(** * Further properties of the program *)

(** ** What [delete_file] does to the files *)

Section delete_effects.
Context {P : Platform}.
Implicit Types (w : world) (s : session) (use_trash : bool).

Lemma delete_file_permanent_ok w filepath f :
  fs w !! filepath = Some f → rm_ok f = true →
  delete_file w filepath false
  = (true, "Permanently deleted", with_fs w (base.delete filepath (fs w))).
Proof.
  intros Hp Hrm. rewrite delete_file_cases. simpl. by rewrite Hp, Hrm.
Qed.

Lemma delete_file_trash_ok w filepath f :
  fs w !! filepath = Some f → rm_ok f = true → mkdir_ok w = true →
  delete_file w filepath true
  = (true, "Moved to trash: " +:+ trash_path w filepath,
     with_fs w (<[trash_path w filepath := f]> (base.delete filepath (fs w)))).
Proof.
  intros Hp Hrm Hmk. rewrite delete_file_cases, Hmk. simpl.
  by rewrite Hp, Hrm.
Qed.

Lemma delete_file_ok_inv w filepath use_trash :
  (delete_file w filepath use_trash).1.1 = true →
  ∃ f, fs w !! filepath = Some f ∧ rm_ok f = true
       ∧ (use_trash = true → mkdir_ok w = true).
Proof.
  rewrite delete_file_cases.
  destruct use_trash, (mkdir_ok w); simpl; try done;
    destruct (fs w !! filepath) as [f|]; try done;
    destruct (rm_ok f) eqn:Hrm; try done; eauto.
Qed.

(** X1. [delete_file] succeeds exactly when the file is there, may be
    removed and, in trash mode, the trash directory can be made.  A
    permanent deletion then removes the path and nothing else. *)
Theorem delete_file_succeeds_iff w filepath use_trash :
  ((delete_file w filepath use_trash).1.1 = true ↔
   ∃ f, fs w !! filepath = Some f ∧ rm_ok f = true
        ∧ (use_trash = true → mkdir_ok w = true))
  ∧ (∀ f, fs w !! filepath = Some f → rm_ok f = true →
          delete_file w filepath false
          = (true, "Permanently deleted", with_fs w (base.delete filepath (fs w)))).
Proof.
  split; [|apply delete_file_permanent_ok]. split; [apply delete_file_ok_inv|].
  intros (f & Hp & Hrm & Hmk). destruct use_trash.
  - by rewrite (delete_file_trash_ok w filepath f) by auto.
  - by rewrite (delete_file_permanent_ok w filepath f).
Qed.

(** X2. A successful move to the trash: the name chosen did not exist, the
    file is found under it afterwards, the original path is gone, and
    every other path is as it was. *)
Theorem delete_file_quarantine w filepath f :
  visible w filepath f → rm_ok f = true → mkdir_ok w = true →
  ∃ w',
    delete_file w filepath true
    = (true, "Moved to trash: " +:+ trash_path w filepath, w')
    ∧ os_path_exists w (trash_path w filepath) = false
    ∧ fs w' !! filepath = None
    ∧ fs w' !! trash_path w filepath = Some f
    ∧ (∀ q, q ≠ filepath → q ≠ trash_path w filepath → fs w' !! q = fs w !! q).
Proof.
  intros Hvis Hrm Hmk. pose proof Hvis as [Hp Hst].
  assert (trash_path w filepath ≠ filepath) as Hne.
  { intros Heq. pose proof (trash_path_free w filepath) as Hfree.
    rewrite Heq, (os_path_exists_visible w filepath f) in Hfree; done. }
  eexists. split_and!.
  - by apply delete_file_trash_ok.
  - apply trash_path_free.
  - simpl. by rewrite lookup_insert_ne, lookup_delete_eq.
  - simpl. by rewrite lookup_insert_eq.
  - intros q Hq1 Hq2. simpl. by rewrite lookup_insert_ne, lookup_delete_ne.
Qed.

(** Whatever [delete_file] does on [filepath], a file that can be seen
    under another path stays where it is, unchanged. *)
Lemma delete_file_frame w filepath use_trash k f :
  visible w k f → k ≠ filepath →
  visible (delete_file w filepath use_trash).2 k f.
Proof.
  intros Hvis Hne. pose proof Hvis as [Hk Hst].
  pose proof (trash_path_not_visible w filepath k f Hvis) as Hfresh.
  rewrite delete_file_cases.
  destruct (use_trash && negb (mkdir_ok w)); [done|].
  destruct (fs w !! filepath) as [g|] eqn:Hp; [|done].
  destruct (rm_ok g), use_trash; simpl; try done.
  - split; [|done]. simpl. by rewrite lookup_insert_ne, lookup_delete_ne.
  - split; [|done]. simpl. by rewrite lookup_delete_ne.
  - destruct (rd_ok g); [|done]. split; [|done]. simpl.
    by rewrite lookup_insert_ne.
Qed.
End delete_effects.

(** ** Files that are not deleted are left alone *)

Lemma frame_refl s : frame s s.
Proof. exists []. by rewrite app_nil_r. Qed.

Lemma frame_trans s1 s2 s3 : frame s1 s2 → frame s2 s3 → frame s1 s3.
Proof.
  intros (ds1 & Ha1 & Hv1) (ds2 & Ha2 & Hv2). exists (ds1 ++ ds2).
  rewrite Ha2, Ha1, (assoc_L (++)). split; [done|].
  intros k f Hvis Hk. apply Hv2; [apply Hv1; [done|]|];
    intros ?; apply Hk, elem_of_app; auto.
Qed.

Lemma frame_say s ev : attempted_paths [ev] = [] → frame s (say s ev).
Proof.
  intros Hev. exists []. simpl. by rewrite attempted_paths_app, Hev.
Qed.

Section frame_facts.
Context {P : Platform}.
Implicit Types (w : world) (s : session) (use_trash : bool).
Implicit Types (pwm : list (string * Z * Z)).

Lemma frame_delete_and_count use_trash file_size s path :
  frame s (delete_and_count use_trash file_size s path).
Proof.
  exists [path]. split; [apply delete_and_count_attempted|].
  intros k f Hvis Hk.
  destruct (delete_and_count_spec use_trash file_size s path) as [-> _].
  apply delete_file_frame; [done|]. intros ->. apply Hk. left.
Qed.

Lemma frame_batch use_trash file_size s (paths : list string) :
  frame s (foldl (delete_and_count use_trash file_size) s paths).
Proof.
  revert s. induction paths as [|p paths IH]; intros s; simpl; [apply frame_refl|].
  eapply frame_trans; [apply frame_delete_and_count|apply IH].
Qed.

Lemma frame_auto_delete_group keep_strategy use_trash s (g : string * list string) :
  frame s (auto_delete_group keep_strategy use_trash s g).
Proof.
  unfold auto_delete_group.
  destruct (paths_with_info keep_strategy (sw s) g.2) as [|keep others];
    [apply frame_refl|].
  eapply frame_trans; [|apply frame_batch].
  by apply (frame_say s (Keeping (info_path keep))).
Qed.

Lemma frame_auto_delete_fold keep_strategy use_trash (d : list (string * list string)) s :
  frame s (foldl (auto_delete_group keep_strategy use_trash) s d).
Proof.
  revert s. induction d as [|g d IH]; intros s; simpl; [apply frame_refl|].
  eapply frame_trans; [apply frame_auto_delete_group|apply IH].
Qed.

Lemma frame_d_command use_trash pwm file_size s choice :
  frame s (d_command use_trash pwm file_size s choice).
Proof.
  unfold d_command.
  destruct (split choice !! 1%nat) as [token|]; [|by apply frame_say].
  destruct (py_int token) as [num|]; [|by apply frame_say].
  destruct (num =? 0)%Z; [by apply frame_say|].
  destruct ((1 <=? num)%Z && (num <? Z.of_nat (length pwm))%Z); [|by apply frame_say].
  destruct (pwm !! Z.to_nat num) as [x|]; [|by apply frame_say].
  apply frame_delete_and_count.
Qed.

Lemma frame_prompt_loop inputs use_trash pwm file_size s :
  frame s (prompt_loop inputs use_trash pwm file_size s).1.2.
Proof.
  revert s. induction inputs as [|line rest IH]; intros s; simpl; [apply frame_refl|].
  repeat case_bool_decide; try apply frame_refl.
  - destruct rest as [|line' rest']; [apply frame_refl|].
    case_bool_decide; [apply frame_batch|apply frame_refl].
  - destruct (String.prefix "d " (lower (strip line))).
    + eapply frame_trans; [apply frame_d_command|apply IH].
    + eapply frame_trans; [|apply IH]. by apply (frame_say s InvalidCommand).
Qed.

Lemma frame_interactive_groups groups inputs use_trash s :
  frame s (interactive_groups groups inputs use_trash s).2.
Proof.
  revert s inputs. induction groups as [|[file_hash paths] groups IH];
    intros s inputs; simpl; [apply frame_refl|].
  destruct (paths_with_mtime (sw s) paths) as [|orig others] eqn:Hpwm;
    [apply frame_refl|].
  pose proof (frame_prompt_loop inputs use_trash (orig :: others) orig.2
                (say s (Keeping orig.1.1))) as Hloop.
  destruct (prompt_loop inputs use_trash (orig :: others) orig.2
              (say s (Keeping orig.1.1))) as [[how s'] inputs'].
  simpl in Hloop.
  assert (frame s s') as Hss'.
  { eapply frame_trans; [|exact Hloop]. by apply (frame_say s (Keeping orig.1.1)). }
  destruct how; simpl; [|done..].
  eapply frame_trans; [exact Hss'|apply IH].
Qed.

Lemma frame_interactive_delete w (d : list (string * list string)) inputs :
  frame (new_session w) (interactive_delete w d inputs).2.
Proof.
  unfold interactive_delete.
  destruct (ask_use_trash inputs) as [[use_trash inputs']|e]; [|apply frame_refl].
  apply frame_interactive_groups.
Qed.

(** X4. In both modes a file that can be seen when the run starts and that
    the run never hands to [delete_file] is still there at the end,
    unchanged: neither a deletion nor a move to the trash touches any
    other file. *)
Theorem untouched_files_remain :
  (∀ w (d : list (string * list string)) keep_strategy use_trash k f,
      visible w k f →
      k ∉ attempted_paths (printed (auto_delete w d keep_strategy use_trash)) →
      visible (sw (auto_delete w d keep_strategy use_trash)) k f)
  ∧ (∀ w (d : list (string * list string)) inputs k f,
      visible w k f →
      k ∉ attempted_paths (printed (interactive_delete w d inputs).2) →
      visible (sw (interactive_delete w d inputs).2) k f).
Proof.
  split.
  - intros w d keep_strategy use_trash k f Hvis Hk.
    destruct (frame_auto_delete_fold keep_strategy use_trash d (new_session w))
      as (ds & Ha & Hv).
    apply Hv; [done|]. unfold auto_delete in Hk. by rewrite Ha in Hk.
  - intros w d inputs k f Hvis Hk.
    destruct (frame_interactive_delete w d inputs) as (ds & Ha & Hv).
    apply Hv; [done|]. by rewrite Ha in Hk.
Qed.

Lemma stat_info_visible w p x : stat_info w p = Some x → ∃ f, visible w p f.
Proof.
  unfold stat_info, getmtime, os_stat. destruct (fs w !! p) as [f|] eqn:Hp; [|done].
  destruct (st_ok f) eqn:Hst; [|done]. intros _. by exists f.
Qed.

Lemma paths_with_info_visible keep_strategy w (paths : list string) x :
  x ∈ paths_with_info keep_strategy w paths → ∃ f, visible w (info_path x) f.
Proof.
  unfold paths_with_info. rewrite apply_strategy_perm.
  intros (p & Hp & Hx)%list_elem_of_omap.
  rewrite (stat_info_path _ _ _ Hx). by eapply stat_info_visible.
Qed.

(** The invariant of the loop of [auto_delete]: every mentioned path
    belongs to a group already worked on, no kept file was attempted,
    and every kept file is there. *)
Lemma auto_delete_fold_kept_exist keep_strategy use_trash
    (d : list (string * list string)) s seen :
  named_in seen s → apart s →
  (∀ k, k ∈ kept_paths (printed s) → ∃ f, visible (sw s) k f) →
  NoDup (mjoin d.*2) → (∀ x, x ∈ mjoin d.*2 → x ∉ seen) →
  ∀ k, k ∈ kept_paths (printed (foldl (auto_delete_group keep_strategy use_trash) s d)) →
       ∃ f, visible (sw (foldl (auto_delete_group keep_strategy use_trash) s d)) k f.
Proof.
  revert s seen. induction d as [|g d IH];
    intros s seen Hseen Hap Hkept Hnd Hdisj; [done|].
  simpl in *. apply NoDup_app in Hnd as (Hg & Hgd & Hd).
  set (s' := auto_delete_group keep_strategy use_trash s g).
  pose proof (auto_delete_group_step keep_strategy use_trash s g Hg) as Hstep.
  destruct (group_step_apart g.2 seen s s') as [Hap' Hseen']; [done..| |].
  { intros x Hx. apply Hdisj, elem_of_app. by left. }
  apply (IH s' (seen ++ g.2)); [done..| |done|].
  - destruct Hstep as (ks & ds & Hk & Ha & Hks & Hds & Hkd).
    destruct (frame_auto_delete_group keep_strategy use_trash s g)
      as (ds' & Ha' & Hframe).
    rewrite Ha in Ha'. apply (inj (app _)) in Ha' as <-.
    intros k. unfold s'. rewrite Hk. intros [Hin|Hin]%elem_of_app.
    + destruct (Hkept k Hin) as [f Hf]. exists f. apply Hframe; [done|].
      intros Hkd'. apply (Hdisj k); [apply elem_of_app; left; by apply Hds|].
      apply Hseen. by left.
    + assert (∃ f, visible (sw s) k f) as [f Hf].
      { unfold auto_delete_group in Hk.
        destruct (paths_with_info keep_strategy (sw s) g.2) as [|keep others] eqn:Hpwi.
        - rewrite <-(app_nil_r (kept_paths (printed s))) in Hk at 1.
          apply (inj (app _)) in Hk as <-. by apply elem_of_nil in Hin.
        - rewrite batch_kept in Hk. simpl in Hk. rewrite kept_paths_app in Hk.
          apply (inj (app _)) in Hk as <-. simpl in Hin.
          apply list_elem_of_singleton in Hin as ->.
          apply (paths_with_info_visible keep_strategy _ g.2). rewrite Hpwi. left. }
      exists f. apply Hframe; [done|]. by apply Hkd.
  - intros x Hx [Hs|Hs]%elem_of_app.
    + apply (Hdisj x); [|done]. apply elem_of_app. by right.
    + by apply (Hgd x).
Qed.

(** X5. When the groups share no path, every file [auto_delete] announces as
    kept is in the file system when [auto_delete] returns. *)
Theorem kept_files_exist_after_auto_delete w (d : list (string * list string))
    keep_strategy use_trash :
  NoDup (mjoin d.*2) →
  ∀ k, k ∈ kept_paths (printed (auto_delete w d keep_strategy use_trash)) →
       ∃ f, visible (sw (auto_delete w d keep_strategy use_trash)) k f.
Proof.
  intros Hnd. destruct (new_session_apart w) as [Hap Hseen].
  apply (auto_delete_fold_kept_exist _ _ _ _ []); [done..| |done|].
  - by intros k ?%elem_of_nil.
  - by intros x _ ?%elem_of_nil.
Qed.
End frame_facts.

(** ** The trash loses nothing; a permanent deletion only removes *)

Lemma nothing_lost_refl w : nothing_lost w w.
Proof. split; [done|]. eauto. Qed.

Lemma nothing_lost_trans w1 w2 w3 :
  nothing_lost w1 w2 → nothing_lost w2 w3 → nothing_lost w1 w3.
Proof.
  intros [Hs1 Hf1] [Hs2 Hf2]. split; [lia|].
  intros q f Hq. destruct (Hf1 q f Hq) as [q' Hq']. eauto.
Qed.

Lemma trash_safe_refl s : trash_safe s s.
Proof. intros Hv. split; [done|apply nothing_lost_refl]. Qed.

Lemma trash_safe_trans s1 s2 s3 : trash_safe s1 s2 → trash_safe s2 s3 → trash_safe s1 s3.
Proof.
  intros H12 H23 Hv. destruct (H12 Hv) as [Hv2 Hl12]. destruct (H23 Hv2) as [Hv3 Hl23].
  split; [done|]. by eapply nothing_lost_trans.
Qed.

Section trash_facts.
Context {P : Platform}.
Implicit Types (w : world) (s : session).
Implicit Types (pwm : list (string * Z * Z)).

Lemma delete_file_trash_safe w filepath :
  all_visible w →
  all_visible (delete_file w filepath true).2
  ∧ nothing_lost w (delete_file w filepath true).2.
Proof.
  intros Hv.
  assert (fs w !! trash_path w filepath = None) as Hfree.
  { destruct (fs w !! trash_path w filepath) as [g|] eqn:Hg; [|done].
    pose proof (trash_path_free w filepath) as Hex.
    rewrite (os_path_exists_visible w _ g) in Hex; [done|]. split; [done|]. eauto. }
  rewrite delete_file_cases.
  destruct (true && negb (mkdir_ok w)); [split; [done|apply nothing_lost_refl]|].
  destruct (fs w !! filepath) as [f|] eqn:Hp;
    [|split; [done|apply nothing_lost_refl]].
  assert (trash_path w filepath ≠ filepath) as Hne by congruence.
  destruct (rm_ok f); simpl.
  - unfold nothing_lost. split_and!.
    + intros q g. simpl. rewrite lookup_insert_Some, lookup_delete_Some.
      intros [[_ <-]|[_ [_ Hq]]]; eauto.
    + simpl. rewrite map_size_insert_None by by rewrite lookup_delete_ne.
      rewrite map_size_delete_Some by eauto.
      assert (size (fs w) ≠ 0); [|lia].
      intros Hz%map_size_empty_inv. by rewrite Hz in Hp.
    + intros q g Hq. simpl. destruct (decide (q = filepath)) as [->|Hqp].
      * exists (trash_path w filepath). rewrite lookup_insert_eq. congruence.
      * exists q. rewrite lookup_insert_ne, lookup_delete_ne by congruence. done.
  - destruct (rd_ok f); [|split; [done|apply nothing_lost_refl]].
    unfold nothing_lost. split_and!.
    + intros q g. simpl. rewrite lookup_insert_Some.
      intros [[_ <-]|[_ Hq]]; eauto.
    + simpl. rewrite map_size_insert_None by done. lia.
    + intros q g Hq. exists q. simpl. rewrite lookup_insert_ne by congruence. done.
Qed.

Lemma delete_file_permanent_removes w filepath :
  only_removed w (delete_file w filepath false).2
  ∧ ((delete_file w filepath false).1.1 = true →
     fs (delete_file w filepath false).2 !! filepath = None).
Proof.
  rewrite delete_file_cases. simpl.
  destruct (fs w !! filepath) as [f|] eqn:Hp; [|split; [by intros q f|done]].
  destruct (rm_ok f); simpl; [|split; [by intros q g|done]]. split.
  - intros q g. simpl. rewrite lookup_delete_Some. by intros [_ ?].
  - intros _. apply lookup_delete_eq.
Qed.
End trash_facts.

(** ** Properties kept by every step are kept by the loops *)

(** A relation between sessions that holds across printing a message
    and across one call of [delete_and_count] holds across the batch
    loops, the work of [auto_delete] and the interactive prompt. *)
Section session_closure.
Context {P : Platform} (use_trash : bool) (R : session → session → Prop).
Hypothesis R_refl : ∀ s, R s s.
Hypothesis R_trans : ∀ s1 s2 s3, R s1 s2 → R s2 s3 → R s1 s3.
Hypothesis R_say : ∀ s ev, attempted_paths [ev] = [] → R s (say s ev).
Hypothesis R_delete :
  ∀ file_size s path, R s (delete_and_count use_trash file_size s path).

Lemma closure_batch file_size s (paths : list string) :
  R s (foldl (delete_and_count use_trash file_size) s paths).
Proof.
  revert s. induction paths as [|p paths IH]; intros s; simpl; [apply R_refl|].
  eapply R_trans; [apply R_delete|apply IH].
Qed.

Lemma closure_auto_delete_group keep_strategy s (g : string * list string) :
  R s (auto_delete_group keep_strategy use_trash s g).
Proof.
  unfold auto_delete_group.
  destruct (paths_with_info keep_strategy (sw s) g.2) as [|keep others];
    [apply R_refl|].
  eapply R_trans; [|apply closure_batch].
  by apply (R_say s (Keeping (info_path keep))).
Qed.

Lemma closure_auto_delete_fold keep_strategy (d : list (string * list string)) s :
  R s (foldl (auto_delete_group keep_strategy use_trash) s d).
Proof.
  revert s. induction d as [|g d IH]; intros s; simpl; [apply R_refl|].
  eapply R_trans; [apply closure_auto_delete_group|apply IH].
Qed.

Lemma closure_d_command (pwm : list (string * Z * Z)) file_size s choice :
  R s (d_command use_trash pwm file_size s choice).
Proof.
  unfold d_command.
  destruct (split choice !! 1%nat) as [token|]; [|by apply R_say].
  destruct (py_int token) as [num|]; [|by apply R_say].
  destruct (num =? 0)%Z; [by apply R_say|].
  destruct ((1 <=? num)%Z && (num <? Z.of_nat (length pwm))%Z); [|by apply R_say].
  destruct (pwm !! Z.to_nat num) as [x|]; [|by apply R_say].
  apply R_delete.
Qed.

Lemma closure_prompt_loop inputs (pwm : list (string * Z * Z)) file_size s :
  R s (prompt_loop inputs use_trash pwm file_size s).1.2.
Proof.
  revert s. induction inputs as [|line rest IH]; intros s; simpl; [apply R_refl|].
  repeat case_bool_decide; try apply R_refl.
  - destruct rest as [|line' rest']; [apply R_refl|].
    case_bool_decide; [apply closure_batch|apply R_refl].
  - destruct (String.prefix "d " (lower (strip line))).
    + eapply R_trans; [apply closure_d_command|apply IH].
    + eapply R_trans; [|apply IH]. by apply (R_say s InvalidCommand).
Qed.

Lemma closure_interactive_groups groups inputs s :
  R s (interactive_groups groups inputs use_trash s).2.
Proof.
  revert s inputs. induction groups as [|[file_hash paths] groups IH];
    intros s inputs; simpl; [apply R_refl|].
  destruct (paths_with_mtime (sw s) paths) as [|orig others] eqn:Hpwm;
    [apply R_refl|].
  pose proof (closure_prompt_loop inputs (orig :: others) orig.2
                (say s (Keeping orig.1.1))) as Hloop.
  destruct (prompt_loop inputs use_trash (orig :: others) orig.2
              (say s (Keeping orig.1.1))) as [[how s'] inputs'].
  simpl in Hloop.
  assert (R s s') as Hss'.
  { eapply R_trans; [|exact Hloop]. by apply (R_say s (Keeping orig.1.1)). }
  destruct how; simpl; [|done..].
  eapply R_trans; [exact Hss'|apply IH].
Qed.
End session_closure.

Section mode_properties.
Context {P : Platform}.
Implicit Types (w : world) (s : session).

Lemma trash_safe_say s ev : trash_safe s (say s ev).
Proof. intros Hv. split; [done|apply nothing_lost_refl]. Qed.

Lemma trash_safe_delete file_size s path :
  trash_safe s (delete_and_count true file_size s path).
Proof.
  intros Hv. destruct (delete_and_count_spec true file_size s path) as [-> _].
  by apply delete_file_trash_safe.
Qed.

(** X6. In trash mode, when every file can be seen, a run loses no file:
    at the end the file system holds at least as many files as before
    (more when a move that fails leaves a copy in the trash), every file
    it held is found in it under some path, and every file can still be
    seen.  This holds for [auto_delete] and for the interactive loop. *)
Theorem trash_mode_loses_nothing :
  (∀ w (d : list (string * list string)) keep_strategy,
      all_visible w →
      all_visible (sw (auto_delete w d keep_strategy true))
      ∧ nothing_lost w (sw (auto_delete w d keep_strategy true)))
  ∧ (∀ groups inputs s,
      all_visible (sw s) →
      all_visible (sw (interactive_groups groups inputs true s).2)
      ∧ nothing_lost (sw s) (sw (interactive_groups groups inputs true s).2)).
Proof.
  split.
  - intros w d keep_strategy Hv.
    apply (closure_auto_delete_fold true trash_safe trash_safe_refl trash_safe_trans
             (λ s ev _, trash_safe_say s ev) trash_safe_delete
             keep_strategy d (new_session w) Hv).
  - intros groups inputs s Hv.
    apply (closure_interactive_groups true trash_safe trash_safe_refl trash_safe_trans
             (λ s ev _, trash_safe_say s ev) trash_safe_delete groups inputs s Hv).
Qed.

Lemma removal_step_refl s : removal_step s s.
Proof.
  split; [by intros q f|]. exists []. rewrite app_nil_r. split; [done|].
  by intros p ?%elem_of_nil.
Qed.

Lemma removal_step_trans s1 s2 s3 :
  removal_step s1 s2 → removal_step s2 s3 → removal_step s1 s3.
Proof.
  intros [Hr1 (ds1 & Hd1 & Hg1)] [Hr2 (ds2 & Hd2 & Hg2)]. split.
  - intros q f Hq. by apply Hr1, Hr2.
  - exists (ds1 ++ ds2). rewrite Hd2, Hd1, (assoc_L (++)). split; [done|].
    intros p [Hp|Hp]%elem_of_app; [|by apply Hg2].
    destruct (fs (sw s3) !! p) as [f|] eqn:Hf; [|done].
    apply Hr2 in Hf. by rewrite (Hg1 p Hp) in Hf.
Qed.

Lemma removal_step_say s ev : attempted_paths [ev] = [] → removal_step s (say s ev).
Proof.
  intros Hev. split; [by intros q f|]. exists []. rewrite app_nil_r. split.
  - simpl. rewrite deleted_paths_app. destruct ev; simpl in *; try done;
      by rewrite app_nil_r.
  - by intros p ?%elem_of_nil.
Qed.

Lemma removal_step_delete file_size s path :
  removal_step s (delete_and_count false file_size s path).
Proof.
  destruct (delete_and_count_spec false file_size s path) as (Hw & Ht & Hf).
  destruct (delete_file_permanent_removes (sw s) path) as [Hrem Hgone].
  split; [by rewrite Hw|].
  destruct ((delete_file (sw s) path false).1.1) eqn:Hok.
  - destruct Ht as (Hpr & _); [done|]. exists [path]. rewrite Hpr, deleted_paths_app.
    split; [done|]. intros p ->%list_elem_of_singleton. rewrite Hw. by apply Hgone.
  - destruct Hf as (Hpr & _); [done|]. exists []. rewrite Hpr, deleted_paths_app.
    split; [done|]. by intros p ?%elem_of_nil.
Qed.

(** X7. In permanent mode a run only removes files: what the file system
    holds under a path at the end it held under that path at the start,
    and every file reported as deleted is gone.  This holds for
    [auto_delete] and for the interactive loop. *)
Theorem permanent_mode_only_removes :
  (∀ w (d : list (string * list string)) keep_strategy,
      only_removed w (sw (auto_delete w d keep_strategy false))
      ∧ ∀ p, p ∈ deleted_paths (printed (auto_delete w d keep_strategy false)) →
             fs (sw (auto_delete w d keep_strategy false)) !! p = None)
  ∧ (∀ groups inputs s,
      only_removed (sw s) (sw (interactive_groups groups inputs false s).2)
      ∧ ∀ p, p ∈ deleted_paths (printed (interactive_groups groups inputs false s).2) →
             p ∈ deleted_paths (printed s)
             ∨ fs (sw (interactive_groups groups inputs false s).2) !! p = None).
Proof.
  split.
  - intros w d keep_strategy.
    destruct (closure_auto_delete_fold false removal_step removal_step_refl
                removal_step_trans removal_step_say removal_step_delete
                keep_strategy d (new_session w)) as [Hrem (ds & Hd & Hgone)].
    split; [done|]. intros p Hp. apply Hgone. unfold auto_delete in Hp.
    by rewrite Hd in Hp.
  - intros groups inputs s.
    destruct (closure_interactive_groups false removal_step removal_step_refl
                removal_step_trans removal_step_say removal_step_delete
                groups inputs s) as [Hrem (ds & Hd & Hgone)].
    split; [done|]. intros p. rewrite Hd. intros [?|?]%elem_of_app; auto.
Qed.

Lemma counted_step_delete use_trash file_size s path :
  counted s → counted (delete_and_count use_trash file_size s path).
Proof. apply delete_and_count_counted. Qed.

Lemma counted_say s ev : attempted_paths [ev] = [] → counted s → counted (say s ev).
Proof.
  unfold counted. simpl. intros Hev ->. rewrite deleted_paths_app.
  destruct ev; simpl in *; try done; by rewrite app_nil_r.
Qed.

(** X9. The first number [interactive_delete] returns is the number of
    files it reported as deleted, however the session ends. *)
Theorem interactive_delete_counts w (d : list (string * list string)) inputs :
  files_deleted (interactive_delete w d inputs).2
  = Z.of_nat (length (deleted_paths (printed (interactive_delete w d inputs).2))).
Proof.
  unfold interactive_delete.
  destruct (ask_use_trash inputs) as [[use_trash inputs']|e]; [|done].
  apply (closure_interactive_groups use_trash (λ s s', counted s → counted s')
           (λ s H, H) (λ s1 s2 s3 H12 H23 H, H23 (H12 H)) counted_say
           (counted_step_delete use_trash)).
  done.
Qed.
End mode_properties.

(** ** The interactive loop *)

Section interactive_more.
Context {P : Platform}.
Implicit Types (w : world) (s : session) (use_trash : bool).
Implicit Types (pwm : list (string * Z * Z)).

Lemma prompt_loop_quiet inputs use_trash pwm file_size s :
  Forall (λ line, asks_to_delete line = false) inputs →
  attempted_paths (printed (prompt_loop inputs use_trash pwm file_size s).1.2)
    = attempted_paths (printed s)
  ∧ sw (prompt_loop inputs use_trash pwm file_size s).1.2 = sw s
  ∧ Forall (λ line, asks_to_delete line = false)
      (prompt_loop inputs use_trash pwm file_size s).2.
Proof.
  intros Hq. revert s. induction Hq as [|line rest Hline Hrest IH]; intros s; simpl.
  { split_and!; [done..|constructor]. }
  unfold asks_to_delete in Hline. apply orb_false_iff in Hline as [Hda Hd].
  apply bool_decide_eq_false in Hda.
  repeat case_bool_decide; try done; simpl.
  rewrite Hd. destruct (IH (say s InvalidCommand)) as (Ha & Hw & Hr).
  split_and!; [|done..]. rewrite Ha. simpl. rewrite attempted_paths_app. simpl.
  by rewrite app_nil_r.
Qed.

Lemma interactive_groups_quiet groups inputs use_trash s :
  Forall (λ line, asks_to_delete line = false) inputs →
  attempted_paths (printed (interactive_groups groups inputs use_trash s).2)
    = attempted_paths (printed s)
  ∧ sw (interactive_groups groups inputs use_trash s).2 = sw s.
Proof.
  revert s inputs. induction groups as [|[file_hash paths] groups IH];
    intros s inputs Hq; simpl; [done|].
  destruct (paths_with_mtime (sw s) paths) as [|orig others] eqn:Hpwm; [done|].
  destruct (prompt_loop_quiet inputs use_trash (orig :: others) orig.2
              (say s (Keeping orig.1.1)) Hq) as (Ha & Hw & Hr).
  destruct (prompt_loop inputs use_trash (orig :: others) orig.2
              (say s (Keeping orig.1.1))) as [[how s'] inputs'].
  simpl in *. rewrite attempted_paths_app in Ha. simpl in Ha.
  rewrite app_nil_r in Ha.
  destruct how; simpl; [|done..].
  destruct (IH s' inputs' Hr) as [Ha' Hw']. split; congruence.
Qed.

(** X10. Nothing is deleted unless it is asked for: when the lines typed
    are ASCII text and none of them reads as [da] or as a [d] command,
    [interactive_delete] hands no file to [delete_file] and leaves the
    file system as it found it, whatever else is typed. *)
Theorem interactive_deletes_on_request_only w (d : list (string * list string)) inputs :
  Forall (λ line, is_ascii line = true) inputs →
  Forall (λ line, asks_to_delete line = false) inputs →
  attempted_paths (printed (interactive_delete w d inputs).2) = []
  ∧ sw (interactive_delete w d inputs).2 = w.
Proof.
  intros _ Hq. unfold interactive_delete, ask_use_trash, input.
  destruct Hq as [|line rest Hline Hrest]; [done|]. cbn.
  case_bool_decide; cbn.
  - destruct Hrest as [|line' rest' Hline' Hrest']; [done|]. cbn.
    by apply interactive_groups_quiet.
  - by apply interactive_groups_quiet.
Qed.

Lemma prompt_loop_exit inputs use_trash pwm file_size s :
  (prompt_loop inputs use_trash pwm file_size s).1.1 = Break
  ∨ (prompt_loop inputs use_trash pwm file_size s).1.1 = Return
  ∨ (prompt_loop inputs use_trash pwm file_size s).1.1 = Uncaught EOFError.
Proof.
  revert s. induction inputs as [|line rest IH]; intros s; simpl; [auto|].
  repeat case_bool_decide; simpl; auto.
  - destruct rest as [|line' rest']; [auto|]. case_bool_decide; auto.
  - destruct (String.prefix "d " (lower (strip line))); apply IH.
Qed.

Lemma interactive_groups_exit groups inputs use_trash s :
  (∀ g, g ∈ groups → g.2 ≠ []) →
  (interactive_groups groups inputs use_trash s).1 = Return
  ∨ (interactive_groups groups inputs use_trash s).1 = Uncaught EOFError.
Proof.
  revert s inputs. induction groups as [|[file_hash paths] groups IH];
    intros s inputs Hne; simpl; [auto|].
  destruct (paths_with_mtime (sw s) paths) as [|orig others] eqn:Hpwm.
  { apply (f_equal length) in Hpwm. rewrite paths_with_mtime_length in Hpwm.
    destruct (Hne (file_hash, paths)); [left|]. by destruct paths. }
  pose proof (prompt_loop_exit inputs use_trash (orig :: others) orig.2
                (say s (Keeping orig.1.1))) as Hexit.
  destruct (prompt_loop inputs use_trash (orig :: others) orig.2
              (say s (Keeping orig.1.1))) as [[how s'] inputs'].
  simpl in Hexit. destruct Hexit as [->|[->| ->]]; simpl; auto.
  apply IH. intros g Hg. apply Hne. by right.
Qed.

Lemma interactive_delete_ending_aux w (d : list (string * list string)) inputs :
  (∀ g, g ∈ d → g.2 ≠ []) →
  (interactive_delete w d inputs).1 = Return
  ∨ (interactive_delete w d inputs).1 = Uncaught EOFError.
Proof.
  intros Hne. unfold interactive_delete.
  destruct (ask_use_trash inputs) as [[use_trash inputs']|e] eqn:Hask.
  - apply interactive_groups_exit. intros g Hg. apply Hne.
    unfold by_count_desc in Hg. by apply sort_by_elem in Hg.
  - right. simpl. f_equal. unfold ask_use_trash, input in Hask.
    destruct inputs as [|line rest]; [by injection Hask as <-|]. cbn in Hask.
    case_bool_decide; [|done].
    destruct rest as [|line' rest']; [by injection Hask as <-|done].
Qed.


End interactive_more.

(** ** More on [find_duplicates] *)

Lemma filter_keys_NoDup {K V} (Q : K * V → Prop) `{∀ x, Decision (Q x)}
    (d : list (K * V)) :
  NoDup d.*1 → NoDup (filter Q d).*1.
Proof.
  induction d as [|g d IH]; [done|]. simpl. intros [Hg Hd]%NoDup_cons.
  rewrite filter_cons. case_decide; simpl; [|by apply IH].
  apply NoDup_cons. split; [|by apply IH].
  intros (g' & Heq & Hg')%list_elem_of_fmap. apply list_elem_of_filter in Hg' as [_ Hg'].
  apply Hg. rewrite Heq. by apply list_elem_of_fmap_2.
Qed.

Section find_duplicates_more.
Context {P : Platform}.
Implicit Types (w : world) (walk : list string) (min_size : Z).

Lemma find_duplicates_keys_NoDup w walk min_size :
  NoDup (find_duplicates w walk min_size).*1.
Proof.
  unfold find_duplicates. apply filter_keys_NoDup.
  rewrite hash_pass_group. simpl. apply group_pairs_wf.
Qed.

(** X14. The groups of [find_duplicates]: every member was yielded by the
    walk, has a readable size of at least [min_size] and could be read;
    a group holds all hashed files of its digest in the order they were
    hashed; and no digest has two groups. *)
Theorem find_duplicates_members w walk min_size :
  (∀ h paths p,
      (h, paths) ∈ find_duplicates w walk min_size → p ∈ paths →
      p ∈ walk
      ∧ (∃ size, getsize w p = Ok size ∧ (min_size ≤ size)%Z)
      ∧ ∃ f, fs w !! p = Some f ∧ rd_ok f = true ∧ md5 (content f) = h)
  ∧ (∀ h paths,
      (h, paths) ∈ find_duplicates w walk min_size →
      paths = filter (λ p, hash_key w p = Some h) (hashed_files w walk min_size))
  ∧ NoDup (find_duplicates w walk min_size).*1.
Proof.
  split_and!.
  - intros h paths p [-> _]%elem_of_find_duplicates
      [Hk (size & Hw & Hs & _)%elem_of_hashed_files]%list_elem_of_filter.
    split_and!; [done| |].
    + exists size. by apply size_key_Some.
    + apply hash_key_Some in Hk. unfold get_file_hash in Hk.
      destruct (fs w !! p) as [f|]; [|done]. destruct (rd_ok f) eqn:Hrd; [|done].
      exists f. split_and!; [done..|]. by injection Hk.
  - by intros h paths [-> _]%elem_of_find_duplicates.
  - apply find_duplicates_keys_NoDup.
Qed.

(** X15. When no file reaches [min_size], or when no two files have the same
    size, nothing is hashed and no group is reported. *)
Theorem find_duplicates_nothing_to_compare w walk min_size :
  ((∀ p size, p ∈ walk → getsize w p = Ok size → (size < min_size)%Z)
   ∨ (NoDup walk ∧ ∀ p q size, p ∈ walk → q ∈ walk →
                     getsize w p = Ok size → getsize w q = Ok size → p = q)) →
  hashed_files w walk min_size = [] ∧ find_duplicates w walk min_size = [].
Proof.
  intros Hcase.
  assert (hashed_files w walk min_size = []) as Hnone.
  { apply elem_of_nil_inv. intros p (size & Hp & Hk & Hlen)%elem_of_hashed_files.
    destruct Hcase as [Hsmall|[Hnd Hdistinct]].
    - apply size_key_Some in Hk as [Hs Hmin]. specialize (Hsmall p size Hp Hs). lia.
    - destruct (another_elem p (filter (λ q, size_key w min_size q = Some size) walk))
        as (q & Hq & Hqp); [by apply NoDup_filter|done|].
      apply list_elem_of_filter in Hq as [Hkq Hq].
      apply size_key_Some in Hk as [Hs _]. apply size_key_Some in Hkq as [Hsq _].
      apply Hqp. by eapply Hdistinct. }
  split; [done|]. apply elem_of_nil_inv. intros [h paths] [-> Hlen]%elem_of_find_duplicates.
  rewrite Hnone in Hlen. simpl in Hlen. lia.
Qed.

Lemma hashed_files_perm w walk walk' min_size :
  NoDup walk → walk ≡ₚ walk' →
  hashed_files w walk min_size ≡ₚ hashed_files w walk' min_size.
Proof.
  intros Hnd Hperm. apply NoDup_Permutation.
  - by apply hashed_files_NoDup.
  - apply hashed_files_NoDup. by rewrite <-Hperm.
  - intros p. rewrite !elem_of_hashed_files.
    split; intros (size & Hp & Hk & Hlen); exists size.
    + by rewrite <-Hperm.
    + by rewrite Hperm.
Qed.

(** X16. The grouping does not depend on the order in which [os.walk] yields
    the files: two walks of the same paths give the same groups, up to
    the order of the groups and of the members in each group. *)
Theorem find_duplicates_walk_order w walk walk' min_size :
  NoDup walk → walk ≡ₚ walk' →
  same_groups (find_duplicates w walk min_size) (find_duplicates w walk' min_size).
Proof.
  intros Hnd Hperm.
  pose proof (hashed_files_perm w walk walk' min_size Hnd Hperm) as Hh.
  set (pick := λ h, filter (λ p, hash_key w p = Some h) (hashed_files w walk min_size)).
  exists ((λ g', (g'.1, pick g'.1)) <$> find_duplicates w walk' min_size). split.
  - apply NoDup_Permutation.
    + eapply NoDup_fmap_1, find_duplicates_keys_NoDup.
    + eapply (NoDup_fmap_1 fst). rewrite <-list_fmap_compose.
      apply find_duplicates_keys_NoDup.
    + intros [h paths]. rewrite elem_of_find_duplicates, list_elem_of_fmap. split.
      * intros [-> Hlen]. exists (h, filter (λ p, hash_key w p = Some h)
                                      (hashed_files w walk' min_size)).
        split; [done|]. apply elem_of_find_duplicates. split; [done|].
        by rewrite <-Hh.
      * intros ([h' paths'] & [= -> ->] & [-> Hlen]%elem_of_find_duplicates).
        split; [done|]. unfold pick. simpl. by rewrite Hh.
  - apply Forall2_fmap_l, Forall_Forall2_diag, Forall_forall.
    intros [h paths'] [-> _]%elem_of_find_duplicates. simpl. split; [done|].
    unfold pick. by rewrite Hh.
Qed.
End find_duplicates_more.

(** ** More on [write_results] *)

Section write_results_more.
Context {P : Platform}.
Implicit Types (w : world) (d : list (string * list string)).


End write_results_more.

(** ** [main] *)

Section main_more.
Context {P : Platform}.
Implicit Types (w : world) (a : args).

Lemma find_duplicates_nonempty_groups w (walk : list string) min_size g :
  g ∈ find_duplicates w walk min_size → g.2 ≠ [].
Proof.
  destruct g as [h paths]. intros [_ Hlen]%elem_of_find_duplicates.
  simpl. intros ->. simpl in Hlen. lia.
Qed.

Lemma write_results_find_duplicates w (walk : list string) min_size directory :
  ∃ text totals,
    write_results w (find_duplicates w walk min_size) directory = Ok (text, totals).
Proof.
  destruct (find_duplicates w walk min_size) as [|g d] eqn:Hd; [by eexists _, _|].
  rewrite write_results_ok; [by eexists _, _|done|].
  intros g' Hg'. apply (find_duplicates_nonempty_groups w walk min_size).
  by rewrite Hd.
Qed.


Lemma run_deletion_raises w a mode (d : list (string * list string)) inputs e :
  (∀ g, g ∈ d → g.2 ≠ []) →
  run_deletion w a mode d inputs = Raise e → e = EOFError.
Proof.
  intros Hne. unfold run_deletion. destruct mode; cbn; [|done..].
  destruct (interactive_delete_ending_aux w d inputs Hne) as [Hend|Hend];
    destruct (interactive_delete w d inputs) as [how s]; simpl in Hend; subst how;
    [done|]. by intros [= <-].
Qed.

(** X19. [main] returns 1 exactly when the directory is not one, and then
    does nothing else; every other run that returns has written the
    report and returns 0; and the only exception that can leave [main]
    is the [EOFError] of a terminal that ends during the deletion
    dialogue. *)
Theorem main_exit w a inputs :
  main w a None inputs = Ok {| exit_code := 1; report := None; deletion := None |}
  ∧ (∀ (walk : list string) o,
       main w a (Some walk) inputs = Ok o →
       exit_code o = 0%Z ∧ is_Some (report o))
  ∧ (∀ (walk : list string) e,
       main w a (Some walk) inputs = Raise e → e = EOFError).
Proof.
  split; [done|]. split.
  - intros walk o. unfold main.
    destruct (write_results _ _ _) as [[text r]|e]; [|done]. cbn.
    destruct (delete a); [|by intros [= <-]].
    destruct (find_duplicates w walk (min_size a)); [by intros [= <-]|].
    destruct (dry_run a); [by intros [= <-]|].
    destruct (input inputs) as [[confirm inputs']|e]; [|done]. cbn.
    match goal with |- context [if ?c then _ else _] => destruct c end;
      [|by intros [= <-]].
    destruct (run_deletion _ _ _ _ _); [|done]. cbn. by intros [= <-].
  - intros walk e. unfold main.
    destruct (write_results_find_duplicates w walk (min_size a)
                (abspath (directory a))) as (text & totals & ->). cbn.
    destruct (delete a) as [mode|]; [|done].
    destruct (find_duplicates w walk (min_size a)) as [|g d] eqn:Hd; [done|].
    destruct (dry_run a); [done|].
    destruct inputs as [|line rest]; [by intros [= <-]|]. cbn.
    match goal with |- context [if ?c then _ else _] => destruct c end; [|done].
    destruct (run_deletion w a mode (g :: d) rest) as [s|e'] eqn:Hrun; [done|].
    cbn. intros [= <-]. eapply run_deletion_raises; [|done].
    intros g' Hg'. apply (find_duplicates_nonempty_groups w walk (min_size a)).
    by rewrite Hd.
Qed.
End main_more.

(** ** What the strategies keep *)

Section strategy_more.
Context {P : Platform}.
Implicit Types (w : world) (a : args).

Lemma stat_info_of_visible w p f :
  visible w p f →
  stat_info w p
  = Some (p, mtime f, Z.of_nat (String.length (content f)), Z.of_nat (py_len p)).
Proof.
  intros [Hp Hst]. unfold stat_info, getmtime, getsize, os_stat. by rewrite Hp, Hst.
Qed.

Lemma kept_has_least_key keep_strategy key w (paths : list string) keep p f :
  strategy_key keep_strategy = Some key →
  head (paths_with_info keep_strategy w paths) = Some keep →
  p ∈ paths → visible w p f →
  (key keep ≤ key (p, mtime f, Z.of_nat (String.length (content f)),
                   Z.of_nat (py_len p)))%Z.
Proof.
  intros Hkey Hhead Hp Hvis. unfold paths_with_info in Hhead.
  rewrite (apply_strategy_sort _ key) in Hhead by done.
  rewrite sort_by_head in Hhead.
  apply first_min_spec in Hhead as (l1 & l2 & Heq & H1 & H2).
  assert ((p, mtime f, Z.of_nat (String.length (content f)),
           Z.of_nat (py_len p)) ∈ omap (stat_info w) paths) as Hin.
  { apply list_elem_of_omap. exists p. split; [done|]. by apply stat_info_of_visible. }
  rewrite Heq in Hin. rewrite Forall_forall in H1, H2.
  apply elem_of_app in Hin as [Hin|[->|Hin]%elem_of_cons].
  - specialize (H1 _ Hin). lia.
  - lia.
  - by apply H2.
Qed.

(** X20. With [--delete auto-oldest] and [--delete auto-newest] the deletion
    stage of [main] is [auto_delete] under [oldest] and [newest].  Under
    [oldest] no readable member of a group is older than the kept file,
    under [newest] none is newer, and [auto_delete] called with
    [shortest_path] keeps a file no member has a shorter path than,
    the length of a path being its number of characters. *)
Theorem auto_modes_keep_extreme w a (d : list (string * list string)) inputs :
  run_deletion w a AutoOldest d inputs
    = Ok (auto_delete w d "oldest" (negb (permanent a)))
  ∧ run_deletion w a AutoNewest d inputs
    = Ok (auto_delete w d "newest" (negb (permanent a)))
  ∧ (∀ (paths : list string) keep p f,
       head (paths_with_info "oldest" w paths) = Some keep →
       p ∈ paths → visible w p f → (info_mtime keep ≤ mtime f)%Z)
  ∧ (∀ (paths : list string) keep p f,
       head (paths_with_info "newest" w paths) = Some keep →
       p ∈ paths → visible w p f → (mtime f ≤ info_mtime keep)%Z)
  ∧ (∀ (paths : list string) keep p f,
       head (paths_with_info "shortest_path" w paths) = Some keep →
       p ∈ paths → visible w p f →
       py_len (info_path keep) ≤ py_len p).
Proof.
  split_and!; [reflexivity..| | |].
  - intros paths keep p f Hhead Hp Hvis.
    by apply (kept_has_least_key "oldest" info_mtime w paths keep p f).
  - intros paths keep p f Hhead Hp Hvis.
    pose proof (kept_has_least_key "newest" (λ x, - info_mtime x)%Z
                  w paths keep p f eq_refl Hhead Hp Hvis) as Hle.
    unfold info_mtime in *. simpl in Hle. lia.
  - intros paths keep p f Hhead Hp Hvis.
    pose proof (kept_has_least_key "shortest_path" info_len
                  w paths keep p f eq_refl Hhead Hp Hvis) as Hle.
    assert (info_len keep = Z.of_nat (py_len (info_path keep))) as Hlen.
    { unfold paths_with_info in Hhead.
      assert (keep ∈ omap (stat_info w) paths) as Hin.
      { rewrite <-(apply_strategy_perm "shortest_path").
        destruct (apply_strategy "shortest_path" (omap (stat_info w) paths));
          [done|]. injection Hhead as ->. left. }
      apply list_elem_of_omap in Hin as (q & _ & Hq).
      unfold stat_info in Hq. destruct (getmtime w q); [|done].
      destruct (getsize w q); [|done]. by injection Hq as <-. }
    unfold info_len in *. simpl in Hle. lia.
Qed.
End strategy_more.

(** ** The name chosen in the trash *)

Section trash_name_more.
Context {P : Platform}.

(** X3. The name [delete_file] moves a file to is the first one that does
    not exist among the plain name [timestamp_filename] and the numbered
    names [timestamp_1_filename], [timestamp_2_filename], ...: all names
    tried before it exist, and it does not. *)
Theorem trash_path_first_free (w : world) (filepath : string) :
  ∃ j,
    trash_path w filepath
    = trash_candidate (os_path_join home ".duplicate_trash")
        (strftime "%Y%m%d_%H%M%S" (clock w)) (basename filepath) j
    ∧ j ≤ size (fs w)
    ∧ (∀ i, i < j →
         os_path_exists w
           (trash_candidate (os_path_join home ".duplicate_trash")
              (strftime "%Y%m%d_%H%M%S" (clock w)) (basename filepath) i) = true)
    ∧ os_path_exists w (trash_path w filepath) = false.
Proof.
  destruct (trash_loop_candidate w (os_path_join home ".duplicate_trash")
              (strftime "%Y%m%d_%H%M%S" (clock w)) (basename filepath)
              (size (fs w)) 0) as (j & Hj & Hloop & Hbefore & _).
  exists j. split_and!.
  - exact Hloop.
  - lia.
  - intros i Hi. apply Hbefore. lia.
  - apply trash_loop_free.
Qed.
End trash_name_more.

(** ** [format_size] *)

Lemma fmt_2f_hundredths (num den : Z) :
  fmt_2f num den
  = pretty (hundredths num den / 100)%Z +:+ "." +:+
    two_digits (hundredths num den mod 100)%Z.
Proof. reflexivity. Qed.

Lemma hundredths_nearest (num den : Z) :
  (0 ≤ num)%Z → (0 < den)%Z →
  (0 ≤ hundredths num den)%Z
  ∧ (2 * Z.abs (100 * num - hundredths num den * den) ≤ den)%Z
  ∧ ((2 * Z.abs (100 * num - hundredths num den * den) = den)%Z →
     Z.even (hundredths num den) = true).
Proof.
  intros Hnum Hden. unfold hundredths.
  pose proof (Z.div_mod (100 * num) den ltac:(lia)) as Hdm.
  pose proof (Z.mod_pos_bound (100 * num) den Hden) as Hr.
  pose proof (Z.div_pos (100 * num) den ltac:(lia) Hden) as Hq.
  set (q := (100 * num / den)%Z) in *. set (r := ((100 * num) mod den)%Z) in *.
  destruct (Z.ltb_spec (2 * r) den) as [Hlt|Hge].
  { split_and!; [lia|nia|nia]. }
  destruct (Z.ltb_spec den (2 * r)) as [Hgt|Hle].
  { split_and!; [lia|nia|nia]. }
  destruct (Z.even q) eqn:Heven.
  - split_and!; [lia|nia|done].
  - split_and!; [lia|nia|]. intros _. rewrite Z.even_add, Heven. done.
Qed.

(** Below [2^53] every integer is a double. *)
Lemma float_of_int_exact (n : Z) : (n < 2 ^ 53)%Z → float_of_int n = n.
Proof. intros Hn. unfold float_of_int. by rewrite (proj2 (Z.ltb_lt _ _)). Qed.

Lemma format_size_units_at (n : Z) (k : nat) (u : string) :
  size_units !! k = Some u →
  (0 ≤ n < 2 ^ 53)%Z →
  k = 0 ∨ (1024 ^ Z.of_nat k ≤ n)%Z →
  k = 5 ∨ (n < 1024 ^ (Z.of_nat k + 1))%Z →
  format_size n = fmt_2f n (1024 ^ Z.of_nat k) +:+ " " +:+ u.
Proof.
  intros Hu Hn Hlo Hhi. unfold format_size.
  rewrite float_of_int_exact by lia.
  destruct k as [|[|[|[|[|[|k]]]]]]; simpl in Hu; [..|done];
    injection Hu as <-; cbn [format_size_units];
    repeat first
      [ rewrite (proj2 (Z.ltb_lt _ _)) by (destruct Hlo, Hhi; simpl in *; lia)
      | rewrite (proj2 (Z.ltb_ge _ _)) by (destruct Hlo, Hhi; simpl in *; lia) ];
    reflexivity.
Qed.

(** X21. The number [format_size] prints is the nearest hundredth of the
    size in its unit: for a size [n] below [2^53] shown in the [k]-th
    unit, the text is [h / 100], a point, the two digits of
    [h mod 100] and the unit, where [h] hundredths differ from
    [n / 1024^k] by at most half a hundredth, and where [h] is even if
    [n / 1024^k] lies exactly between two hundredths. *)
Theorem format_size_rounds_to_nearest (n : Z) (k : nat) (u : string) :
  size_units !! k = Some u →
  (0 ≤ n < 2 ^ 53)%Z →
  k = 0 ∨ (1024 ^ Z.of_nat k ≤ n)%Z →
  k = 5 ∨ (n < 1024 ^ (Z.of_nat k + 1))%Z →
  ∃ h : Z,
    format_size n
    = pretty (h / 100)%Z +:+ "." +:+ two_digits (h mod 100)%Z +:+ " " +:+ u
    ∧ (0 ≤ h)%Z
    ∧ (2 * Z.abs (100 * n - h * 1024 ^ Z.of_nat k) ≤ 1024 ^ Z.of_nat k)%Z
    ∧ ((2 * Z.abs (100 * n - h * 1024 ^ Z.of_nat k) = 1024 ^ Z.of_nat k)%Z →
       Z.even h = true).
Proof.
  intros Hu Hn Hlo Hhi. exists (hundredths n (1024 ^ Z.of_nat k)).
  split.
  - rewrite (format_size_units_at n k u) by done.
    rewrite fmt_2f_hundredths. by rewrite !append_assoc.
  - apply hundredths_nearest; [lia|]. apply Z.pow_pos_nonneg; lia.
Qed.

(** X22. A size below 1024 is printed exactly, in bytes with two zero
    decimals. *)
Theorem format_size_bytes (n : Z) :
  (0 ≤ n < 1024)%Z → format_size n = pretty n +:+ ".00 B".
Proof.
  intros Hn. unfold format_size, format_size_units.
  rewrite float_of_int_exact by lia.
  rewrite (proj2 (Z.ltb_lt _ _)) by lia.
  rewrite fmt_2f_hundredths.
  assert (hundredths n 1 = 100 * n)%Z as ->.
  { unfold hundredths. rewrite Z.mod_1_r, Z.div_1_r. reflexivity. }
  rewrite Z.mul_comm, Z.div_mul, Z.mod_mul by lia.
  by rewrite !append_assoc.
Qed.

(** X23. The unit [format_size] prints is fixed by the magnitude of the
    size: the [k]-th unit for sizes from [1024^k] up to [1024^(k+1)],
    bytes below 1024, and [PB] for everything from [1024^5] on; the
    number printed is the size divided by [1024^k].  Sizes are taken
    below [2^53], where the float the program divides is exact. *)
Theorem format_size_unit (n : Z) (k : nat) (u : string) :
  size_units !! k = Some u →
  (0 ≤ n < 2 ^ 53)%Z →
  k = 0 ∨ (1024 ^ Z.of_nat k ≤ n)%Z →
  k = 5 ∨ (n < 1024 ^ (Z.of_nat k + 1))%Z →
  format_size n = fmt_2f n (1024 ^ Z.of_nat k) +:+ " " +:+ u.
Proof. apply format_size_units_at. Qed.

(** ** Numbers typed at the prompt *)

Lemma is_nat_pretty_N_char (d : N) :
  (d < 10)%N → Ascii.is_nat (pretty_N_char d) = Some (N.to_nat d).
Proof.
  intros Hd.
  assert (d = 0 ∨ d = 1 ∨ d = 2 ∨ d = 3 ∨ d = 4 ∨ d = 5 ∨ d = 6 ∨ d = 7
          ∨ d = 8 ∨ d = 9)%N as Hcases by lia.
  repeat (destruct Hcases as [->|Hcases]; [reflexivity|]). by subst.
Qed.

(** Reading the digits [stdpp] prints for [x] in front of [s] shifts the
    accumulator and adds [x]. *)
Lemma int_digits_pretty_N_go (x : N) :
  (0 < x)%N →
  ∀ s acc b, ∃ k : nat,
    int_digits acc b (pretty_N_go x s)
    = int_digits (acc * 10 ^ Z.of_nat k + Z.of_N x) true s.
Proof.
  induction (N.lt_wf_0 x) as [x _ IH]. intros Hx s acc b.
  rewrite pretty_N_go_step by done.
  assert (x `mod` 10 < 10)%N as Hmod by (apply N.mod_lt; lia).
  pose proof (N.div_mod x 10 ltac:(lia)) as Hdm.
  destruct (decide (x `div` 10 = 0)%N) as [Hz|Hnz].
  - rewrite Hz, pretty_N_go_0. exists 1. cbn [int_digits].
    rewrite is_nat_pretty_N_char by done. f_equal. lia.
  - destruct (IH (x `div` 10)%N) with
      (s := String (pretty_N_char (x `mod` 10)) s) (acc := acc) (b := b)
      as [k Hk]; [apply N.div_lt; lia|lia|].
    exists (S k). rewrite Hk. cbn [int_digits].
    rewrite is_nat_pretty_N_char by done. f_equal.
    rewrite Nat2Z.inj_succ, Z.pow_succ_r by lia. lia.
Qed.

Lemma int_digits_pretty_N (x : N) :
  (0 < x)%N → int_digits 0 false (pretty x) = Some (Z.of_N x).
Proof.
  intros Hx. unfold pretty, pretty_N. rewrite decide_False by lia.
  destruct (int_digits_pretty_N_go x Hx "" 0%Z false) as [k ->].
  by rewrite Z.mul_0_l, Z.add_0_l.
Qed.

Lemma py_int_unsigned (s : string) (v : Z) :
  (Z.of_nat (digit_count s) ≤ int_max_str_digits)%Z →
  int_digits 0 false s = Some v → py_int s = Some v.
Proof.
  intros Hlim. unfold py_int. rewrite (proj2 (Z.ltb_ge _ _)) by done.
  destruct s as [|c s]; [done|].
  destruct c as [[] [] [] [] [] [] [] []]; try done.
Qed.

Lemma py_int_too_long (s : string) :
  (int_max_str_digits < Z.of_nat (digit_count s))%Z → py_int s = None.
Proof. intros Hlim. unfold py_int. by rewrite (proj2 (Z.ltb_lt _ _)). Qed.

Lemma digit_count_digits (s : string) :
  all_chars is_digit s = true → digit_count s = String.length s.
Proof.
  induction s as [|c s IH]; [done|]. simpl.
  intros [Hc Hs]%andb_true_iff. rewrite IH by done.
  unfold is_digit in Hc. apply bool_decide_eq_true in Hc as [d Hd].
  by rewrite Hd.
Qed.

Lemma is_digit_pretty_N_char (d : N) : is_digit (pretty_N_char d) = true.
Proof. unfold pretty_N_char. by repeat case_match. Qed.

Lemma pretty_N_go_digits (x : N) (s : string) :
  all_chars is_digit s = true → all_chars is_digit (pretty_N_go x s) = true.
Proof.
  revert s. induction (N.lt_wf_0 x) as [x _ IH]. intros s Hs.
  destruct (decide (0 < x)%N) as [Hx|Hx].
  - rewrite pretty_N_go_step by done. apply IH; [apply N.div_lt; lia|].
    simpl. by rewrite is_digit_pretty_N_char, Hs.
  - assert (x = 0%N) as -> by lia. by rewrite pretty_N_go_0.
Qed.

Lemma pretty_nat_digits (i : nat) : all_chars is_digit (pretty (Z.of_nat i)) = true.
Proof.
  destruct (Z.of_nat i) as [|p|p] eqn:Hi; [done| |lia].
  unfold pretty, pretty_Z, pretty, pretty_positive, pretty, pretty_N.
  rewrite decide_False by done. by apply pretty_N_go_digits.
Qed.

Lemma int_digits_pretty_nat (i : nat) :
  int_digits 0 false (pretty (Z.of_nat i)) = Some (Z.of_nat i).
Proof.
  destruct (Z.of_nat i) as [|p|p] eqn:Hi; [done| |lia].
  apply (int_digits_pretty_N (Npos p)). lia.
Qed.

Lemma pretty_nat_nonempty (i : nat) : pretty (Z.of_nat i) ≠ "".
Proof.
  intros Heq. pose proof (int_digits_pretty_nat i) as Hint.
  by rewrite Heq in Hint.
Qed.

(** [int] reads back the number of an entry as the list shows it, unless
    it has more digits than [int] accepts. *)
Lemma py_int_pretty_nat (i : nat) :
  py_int (pretty (Z.of_nat i))
  = if (int_max_str_digits <? Z.of_nat (String.length (pretty (Z.of_nat i))))%Z
    then None else Some (Z.of_nat i).
Proof.
  rewrite <-(digit_count_digits _ (pretty_nat_digits i)).
  destruct (Z.ltb_spec int_max_str_digits
              (Z.of_nat (digit_count (pretty (Z.of_nat i))))) as [Hlt|Hle].
  - by apply py_int_too_long.
  - apply py_int_unsigned; [done|]. apply int_digits_pretty_nat.
Qed.

Lemma is_digit_not_space (c : ascii) : is_digit c = true → py_isspace c = false.
Proof. destruct c as [[] [] [] [] [] [] [] []]; by vm_compute. Qed.

Lemma is_digit_lower (c : ascii) : is_digit c = true → lower_ascii c = c.
Proof. destruct c as [[] [] [] [] [] [] [] []]; by vm_compute. Qed.

Lemma all_chars_impl (ok ok' : ascii → bool) (s : string) :
  (∀ c, ok c = true → ok' c = true) → all_chars ok s = true → all_chars ok' s = true.
Proof.
  intros Himpl. induction s as [|c s IH]; [done|]. simpl.
  intros [Hc Hs]%andb_true_iff. by rewrite Himpl, IH.
Qed.

Lemma digits_no_space (s : string) :
  all_chars is_digit s = true → all_chars (λ c, negb (py_isspace c)) s = true.
Proof.
  apply all_chars_impl. intros c Hc. by rewrite is_digit_not_space.
Qed.

Lemma lower_digits (s : string) : all_chars is_digit s = true → lower s = s.
Proof.
  induction s as [|c s IH]; [done|]. simpl. intros [Hc Hs]%andb_true_iff.
  by rewrite is_digit_lower, IH.
Qed.

Lemma rev_app_rev_app (t a b : string) :
  String.rev_app (String.rev_app t a) b = String.rev_app a (t +:+ b).
Proof.
  revert a. induction t as [|c t IH]; intros a; [done|].
  simpl. by rewrite IH.
Qed.

Lemma rev_involutive (t : string) : String.rev (String.rev t) = t.
Proof. unfold String.rev. rewrite rev_app_rev_app. simpl. apply append_nil_r. Qed.

(** A run of characters that are no spaces is one word. *)
Lemma split_go_word (t cur : string) :
  all_chars (λ c, negb (py_isspace c)) t = true →
  split_go cur t
  = if bool_decide (String.rev_app t cur = "") then []
    else [String.rev (String.rev_app t cur)].
Proof.
  revert cur. induction t as [|c t IH]; intros cur; [done|]. simpl.
  intros [Hc Hs]%andb_true_iff. apply negb_true_iff in Hc. rewrite Hc. by apply IH.
Qed.

Lemma split_d_word (t : string) :
  all_chars (λ c, negb (py_isspace c)) t = true → t ≠ "" →
  split ("d " +:+ t) = ["d"; t].
Proof.
  intros Hs Hne. unfold split. change ("d " +:+ t) with (String "d" (String " " t)).
  cbn [split_go]. change (py_isspace "d") with false. change (py_isspace " ") with true.
  cbn [bool_decide]. rewrite bool_decide_eq_false_2 by done.
  rewrite split_go_word by done. fold (String.rev t). rewrite rev_involutive.
  rewrite bool_decide_eq_false_2; [done|].
  intros Hz. apply Hne. rewrite <-(rev_involutive t). unfold String.rev at 1.
  fold (String.rev t) in Hz. by rewrite Hz.
Qed.

Lemma lstrip_rev_app (u v : string) :
  all_chars (λ c, negb (py_isspace c)) u = true → u ≠ "" →
  lstrip (String.rev_app u v) = String.rev_app u v.
Proof.
  revert v. induction u as [|c u IH]; intros v; [done|]. simpl.
  intros [Hc Hs]%andb_true_iff _. apply negb_true_iff in Hc.
  destruct u as [|c' u'].
  - simpl. by rewrite Hc.
  - by apply IH.
Qed.

Lemma strip_d_word (t : string) :
  all_chars (λ c, negb (py_isspace c)) t = true → t ≠ "" →
  strip ("d " +:+ t) = "d " +:+ t.
Proof.
  intros Hs Hne. unfold strip. change ("d " +:+ t) with (String "d" (String " " t)).
  cbn [lstrip]. change (py_isspace "d") with false. cbn iota.
  unfold String.rev at 2. cbn [String.rev_app].
  rewrite lstrip_rev_app by done.
  change (String.rev_app t (String " " (String "d" "")))
    with (String.rev (String "d" (String " " t))).
  apply rev_involutive.
Qed.

Lemma prefix_d_word (t : string) : String.prefix "d " ("d " +:+ t) = true.
Proof. by destruct t. Qed.

Section typed_index.
Context {P : Platform}.
Implicit Types (s : session) (use_trash : bool) (pwm : list (string * Z * Z)).

(** X12. Typing [d] and the decimal number of an entry, as the list shows it,
    acts on that entry: [d 0] is refused, [d i] for an entry [i] of the
    list after the first hands exactly the path of entry [i] to
    [delete_file], and a number past the end of the list is answered by
    "Invalid index" and deletes nothing.  A number of more digits than
    [int] accepts is answered by "Invalid command format". *)
Theorem typed_index_selects_entry (i : nat) rest use_trash pwm file_size s :
  prompt_loop (("d " +:+ pretty (Z.of_nat i)) :: rest) use_trash pwm file_size s
  = prompt_loop rest use_trash pwm file_size
      (if (int_max_str_digits <? Z.of_nat (String.length (pretty (Z.of_nat i))))%Z
       then say s InvalidFormat
       else
         match i with
         | O => say s CannotDeleteOriginal
         | S _ =>
             match pwm !! i with
             | Some x => delete_and_count use_trash file_size s x.1.1
             | None => say s (InvalidIndex (Z.of_nat i))
             end
         end).
Proof.
  pose proof (pretty_nat_digits i) as Hdig.
  pose proof (digits_no_space _ Hdig) as Hns.
  pose proof (pretty_nat_nonempty i) as Hne.
  cbn [prompt_loop]. rewrite (strip_d_word _ Hns Hne).
  assert (lower ("d " +:+ pretty (Z.of_nat i)) = "d " +:+ pretty (Z.of_nat i)) as ->.
  { change ("d " +:+ pretty (Z.of_nat i)) with (String "d" (String " " (pretty (Z.of_nat i)))).
    cbn [lower]. by rewrite (lower_digits _ Hdig). }
  rewrite !bool_decide_eq_false_2.
  2-4: change ("d " +:+ pretty (Z.of_nat i))
         with (String "d" (String " " (pretty (Z.of_nat i)))); congruence.
  rewrite prefix_d_word.
  f_equal. unfold d_command.
  rewrite (split_d_word _ Hns Hne). cbn [lookup list_lookup].
  rewrite py_int_pretty_nat.
  destruct (int_max_str_digits <? _)%Z; [done|].
  destruct i as [|i]; [done|].
  rewrite (proj2 (Z.eqb_neq _ _)) by lia.
  rewrite Nat2Z.id.
  destruct (pwm !! S i) as [x|] eqn:Hx.
  - apply lookup_lt_Some in Hx.
    rewrite (proj2 (Z.leb_le _ _)), (proj2 (Z.ltb_lt _ _)) by lia. done.
  - apply lookup_ge_None in Hx.
    rewrite (proj2 (Z.leb_le _ _)), (proj2 (Z.ltb_ge _ _)) by lia. done.
Qed.
End typed_index.

(** ** The space reported as freed *)

Section space_freed_more.
Context {P : Platform}.
Implicit Types (s : session) (use_trash : bool) (pwm : list (string * Z * Z)).

Lemma freed_by_refl file_size s : freed_by file_size s s.
Proof. unfold freed_by. lia. Qed.

Lemma freed_by_trans file_size s1 s2 s3 :
  freed_by file_size s1 s2 → freed_by file_size s2 s3 → freed_by file_size s1 s3.
Proof. unfold freed_by. lia. Qed.

Lemma freed_by_delete use_trash file_size s path :
  freed_by file_size s (delete_and_count use_trash file_size s path).
Proof.
  unfold freed_by.
  destruct (delete_and_count_spec use_trash file_size s path) as (_ & Ht & Hf).
  destruct ((delete_file (sw s) path use_trash).1.1).
  - destruct Ht as (_ & -> & ->); [done|]. lia.
  - destruct Hf as (_ & -> & ->); [done|]. lia.
Qed.

Lemma freed_by_batch use_trash file_size s (paths : list string) :
  freed_by file_size s (foldl (delete_and_count use_trash file_size) s paths).
Proof.
  revert s. induction paths as [|p paths IH]; intros s; simpl; [apply freed_by_refl|].
  eapply freed_by_trans; [apply freed_by_delete|apply IH].
Qed.

Lemma freed_by_say file_size s ev : freed_by file_size s (say s ev).
Proof. unfold freed_by. simpl. lia. Qed.

Lemma freed_by_d_command use_trash pwm file_size s choice :
  freed_by file_size s (d_command use_trash pwm file_size s choice).
Proof.
  unfold d_command.
  destruct (split choice !! 1%nat) as [token|]; [|apply freed_by_say].
  destruct (py_int token) as [num|]; [|apply freed_by_say].
  destruct (num =? 0)%Z; [apply freed_by_say|].
  destruct ((1 <=? num)%Z && (num <? Z.of_nat (length pwm))%Z); [|apply freed_by_say].
  destruct (pwm !! Z.to_nat num) as [x|]; [|apply freed_by_say].
  apply freed_by_delete.
Qed.

Lemma freed_by_prompt_loop inputs use_trash pwm file_size s :
  freed_by file_size s (prompt_loop inputs use_trash pwm file_size s).1.2.
Proof.
  revert s. induction inputs as [|line rest IH]; intros s; simpl; [apply freed_by_refl|].
  repeat case_bool_decide; try apply freed_by_refl.
  - destruct rest as [|line' rest']; [apply freed_by_refl|].
    case_bool_decide; [apply freed_by_batch|apply freed_by_refl].
  - destruct (String.prefix "d " (lower (strip line))).
    + eapply freed_by_trans; [apply freed_by_d_command|apply IH].
    + eapply freed_by_trans; [apply freed_by_say|apply IH].
Qed.

(** X8. What is added to [space_freed] for a deleted file is the size of
    the file kept in its group, the first entry of the sorted list, and
    not the size of the deleted file: over the work on a group the
    space freed grows by that size times the number of deletions
    counted.  This holds in [auto_delete] and at the interactive
    prompt. *)
Theorem space_freed_counts_kept_size :
  (∀ keep_strategy use_trash s (g : string * list string) keep others,
      paths_with_info keep_strategy (sw s) g.2 = keep :: others →
      (space_freed (auto_delete_group keep_strategy use_trash s g) - space_freed s
       = info_size keep
         * (files_deleted (auto_delete_group keep_strategy use_trash s g)
            - files_deleted s))%Z)
  ∧ (∀ inputs use_trash pwm orig others s,
      pwm = orig :: others →
      (space_freed (prompt_loop inputs use_trash pwm orig.2 s).1.2 - space_freed s
       = orig.2
         * (files_deleted (prompt_loop inputs use_trash pwm orig.2 s).1.2
            - files_deleted s))%Z).
Proof.
  split.
  - intros keep_strategy use_trash s g keep others Hpwi.
    unfold auto_delete_group. rewrite Hpwi.
    apply (freed_by_batch use_trash (info_size keep)
             {| sw := sw s; files_deleted := files_deleted s;
                space_freed := space_freed s;
                printed := printed s ++ [Keeping (info_path keep)] |}).
  - intros inputs use_trash pwm orig others s _. apply freed_by_prompt_loop.
Qed.
End space_freed_more.

(** ** The further properties at concrete inputs *)

Lemma all_visible_by_Forall (w : world) :
  map_Forall (λ _ f, st_ok f = true) (fs w) → all_visible w.
Proof. intros Hall p f Hp. by apply (Hall p f). Qed.

Lemma delete_file_succeeds_iff_witness :
  (delete_file (P := Demo.platform) Demo.abc "/d/b.txt" true).1.1 = true.
Proof.
  destruct (delete_file_succeeds_iff (P := Demo.platform) Demo.abc "/d/b.txt" true)
    as [[_ Hok] _].
  apply Hok. exists (Demo.plain "X" 200). split_and!; reflexivity.
Defined.

Lemma delete_file_quarantine_witness :
  ∃ w',
    delete_file (P := Demo.platform) Demo.abc "/d/b.txt" true
    = (true, "Moved to trash: " +:+ trash_path (P := Demo.platform) Demo.abc "/d/b.txt", w')
    ∧ os_path_exists Demo.abc (trash_path (P := Demo.platform) Demo.abc "/d/b.txt") = false
    ∧ fs w' !! "/d/b.txt" = None
    ∧ fs w' !! trash_path (P := Demo.platform) Demo.abc "/d/b.txt"
      = Some (Demo.plain "X" 200)
    ∧ (∀ q, q ≠ "/d/b.txt" →
            q ≠ trash_path (P := Demo.platform) Demo.abc "/d/b.txt" →
            fs w' !! q = fs Demo.abc !! q).
Proof.
  apply (delete_file_quarantine (P := Demo.platform) Demo.abc "/d/b.txt"
           (Demo.plain "X" 200)); [split|..]; reflexivity.
Defined.

Lemma trash_path_first_free_witness :
  os_path_exists Demo.abc (trash_path (P := Demo.platform) Demo.abc "/d/b.txt") = false.
Proof.
  destruct (trash_path_first_free (P := Demo.platform) Demo.abc "/d/b.txt")
    as (j & _ & _ & _ & Hfree).
  exact Hfree.
Defined.

Lemma untouched_files_remain_witness :
  visible
    (sw (auto_delete (P := Demo.platform) Demo.abc
           [("md5:X", ["/d/a.txt"; "/d/b.txt"])] "oldest" true))
    "/d/c.txt" (Demo.plain "Y" 150).
Proof.
  destruct (untouched_files_remain (P := Demo.platform)) as [Hauto _].
  apply Hauto; [split; reflexivity|by_compute].
Defined.

Lemma kept_files_exist_after_auto_delete_witness :
  ∃ f, visible
         (sw (auto_delete (P := Demo.platform) Demo.abc
                [("md5:X", ["/d/a.txt"; "/d/b.txt"])] "oldest" true))
         "/d/a.txt" f.
Proof.
  apply (kept_files_exist_after_auto_delete (P := Demo.platform) Demo.abc
           [("md5:X", ["/d/a.txt"; "/d/b.txt"])] "oldest" true); by_compute.
Defined.

Lemma trash_mode_loses_nothing_witness :
  nothing_lost Demo.guarded
    (sw (auto_delete (P := Demo.platform) Demo.guarded [Demo.guarded_group]
           "oldest" true)).
Proof.
  destruct (trash_mode_loses_nothing (P := Demo.platform)) as [Hauto _].
  apply Hauto. apply all_visible_by_Forall. by_compute.
Defined.

Lemma permanent_mode_only_removes_witness :
  fs (sw (auto_delete (P := Demo.platform) Demo.abc
            [("md5:X", ["/d/a.txt"; "/d/b.txt"])] "oldest" false))
    !! "/d/b.txt" = None.
Proof.
  destruct (permanent_mode_only_removes (P := Demo.platform)) as [Hauto _].
  destruct (Hauto Demo.abc [("md5:X", ["/d/a.txt"; "/d/b.txt"])] "oldest")
    as [_ Hgone].
  apply Hgone. by_compute.
Defined.

Lemma interactive_deletes_on_request_only_witness :
  attempted_paths
    (printed (interactive_delete (P := Demo.platform) Demo.abc
                [("md5:X", ["/d/a.txt"; "/d/b.txt"])] ["trash"; "x"; "delete"; "s"]).2)
  = [].
Proof.
  destruct (interactive_deletes_on_request_only (P := Demo.platform) Demo.abc
              [("md5:X", ["/d/a.txt"; "/d/b.txt"])] ["trash"; "x"; "delete"; "s"])
    as [Hnone _]; [by_compute..|].
  exact Hnone.
Defined.


Lemma find_duplicates_members_witness :
  "/d/b.txt" ∈ Demo.abc_walk
  ∧ (∃ size, getsize Demo.abc "/d/b.txt" = Ok size ∧ (0 ≤ size)%Z)
  ∧ ∃ f, fs Demo.abc !! "/d/b.txt" = Some f ∧ rd_ok f = true
         ∧ md5 (Platform := Demo.platform) (content f) = "md5:X".
Proof.
  destruct (find_duplicates_members (P := Demo.platform) Demo.abc Demo.abc_walk 0)
    as [Hmem _].
  apply (Hmem "md5:X" ["/d/a.txt"; "/d/b.txt"]); by_compute.
Defined.

Lemma find_duplicates_nothing_to_compare_witness :
  hashed_files (P := Demo.platform) Demo2.small Demo2.small_walk 100 = []
  ∧ find_duplicates (P := Demo.platform) Demo2.small Demo2.small_walk 100 = [].
Proof.
  apply (find_duplicates_nothing_to_compare (P := Demo.platform)). left.
  intros p size Hp Hsize.
  apply elem_of_cons in Hp as [-> | ->%list_elem_of_singleton];
    vm_compute in Hsize; injection Hsize as <-; lia.
Defined.

Lemma find_duplicates_walk_order_witness :
  same_groups
    (find_duplicates (P := Demo.platform) Demo.four Demo.four_walk 0)
    (find_duplicates (P := Demo.platform) Demo.four Demo.four_walk' 0).
Proof.
  apply (find_duplicates_walk_order (P := Demo.platform)); [by_compute|].
  apply NoDup_Permutation; by_compute || (intros x; split; intros Hx;
    repeat (apply elem_of_cons in Hx as [-> | Hx]; [by_compute|]);
    by apply elem_of_nil in Hx).
Defined.



Lemma main_exit_witness :
  ∃ o, main (P := Demo.platform) Demo.abc Demo2.report_only_args
         (Some Demo.abc_walk) [] = Ok o
       ∧ exit_code o = 0%Z ∧ is_Some (report o).
Proof.
  destruct (main_exit (P := Demo.platform) Demo.abc Demo2.report_only_args [])
    as (_ & Hret & _).
  eexists. split; [vm_compute; reflexivity|].
  apply (Hret Demo.abc_walk). vm_compute. reflexivity.
Defined.

Lemma auto_modes_keep_extreme_witness :
  (100 ≤ mtime (Demo.plain "X" 200))%Z.
Proof.
  destruct (auto_modes_keep_extreme (P := Demo.platform) Demo.abc
              Demo2.report_only_args [] []) as (_ & _ & Hold & _).
  apply (Hold ["/d/a.txt"; "/d/b.txt"] ("/d/a.txt", 100, 1, 8)%Z "/d/b.txt");
    [reflexivity|by_compute|split; reflexivity].
Defined.

Lemma format_size_rounds_to_nearest_witness :
  ∃ h : Z,
    format_size 1179648
    = pretty (h / 100)%Z +:+ "." +:+ two_digits (h mod 100)%Z +:+ " " +:+ "MB"
    ∧ (0 ≤ h)%Z
    ∧ (2 * Z.abs (100 * 1179648 - h * 1024 ^ Z.of_nat 2) ≤ 1024 ^ Z.of_nat 2)%Z
    ∧ ((2 * Z.abs (100 * 1179648 - h * 1024 ^ Z.of_nat 2) = 1024 ^ Z.of_nat 2)%Z →
       Z.even h = true).
Proof.
  apply (format_size_rounds_to_nearest 1179648 2 "MB");
    [reflexivity|lia|right; simpl; lia|right; simpl; lia].
Defined.

Lemma format_size_bytes_witness : format_size 512 = pretty 512%Z +:+ ".00 B".
Proof. apply format_size_bytes. lia. Defined.

Lemma format_size_unit_witness :
  format_size 1536 = fmt_2f 1536 (1024 ^ Z.of_nat 1) +:+ " " +:+ "KB".
Proof.
  apply (format_size_unit 1536 1 "KB"); [reflexivity|lia|right; simpl; lia|].
  right. simpl. lia.
Defined.

Lemma space_freed_counts_kept_size_witness :
  (space_freed (auto_delete_group (P := Demo.platform) "oldest" true
                  (new_session Demo.abc) ("md5:X", ["/d/a.txt"; "/d/b.txt"]))
   - space_freed (new_session Demo.abc)
   = info_size ("/d/a.txt", 100, 1, 8)
     * (files_deleted (auto_delete_group (P := Demo.platform) "oldest" true
                         (new_session Demo.abc) ("md5:X", ["/d/a.txt"; "/d/b.txt"]))
        - files_deleted (new_session Demo.abc)))%Z.
Proof.
  destruct (space_freed_counts_kept_size (P := Demo.platform)) as [Hgroup _].
  apply (Hgroup "oldest" true (new_session Demo.abc)
           ("md5:X", ["/d/a.txt"; "/d/b.txt"]) _ [("/d/b.txt", 200, 1, 8)%Z]).
  vm_compute. reflexivity.
Defined.
